(** * jsonl-db: JSON Lines persistence, embedded and verified

    A shallow embedding of the two engines of the repository:

    - [JsonlFile]: the single-file engine of [src/jsonlFile.js] (and of its
      TypeScript twin, whose [first]/[last] differ and live in
      [JsonlFileTs]);
    - [Jsonl]: the streaming reader/writer of [src/lib/jsonl.ts];
    - [JsonlDir]: the directory-collection facade built on [Jsonl];
    - [temporaryFileTask]: the scratch-file helper.

    Asynchronous functions run to completion one after the other (the
    library is single-writer), so a promise is modelled by the computation
    that produces its value: a state-and-exception monad over the file
    system, the console and the variables captured by the callbacks. *)

From stdpp Require Import base strings list gmap pretty.
From Stdlib Require Import ZArith Ascii Lia.

Set Default Proof Using "Type".
Set Warnings "-register-all".

(** ** JSON values and the JavaScript values the engine looks at *)

(** What [JSON.parse] can return.  Numbers are kept as integers: the engine
    only compares them and prints them back. *)
Inductive Json : Type :=
| JNull
| JBool (b : bool)
| JNum (n : Z)
| JStr (s : string)
| JArr (items : list Json)
| JObj (fields : list (string * Json)).

(** A JavaScript value as the engine meets it: [undefined] or a JSON value. *)
Inductive JsVal : Type :=
| VUndefined
| VJson (j : Json).

(** [if (v)]: JavaScript truthiness. *)
Definition truthy (v : JsVal) : bool :=
  match v with
  | VUndefined => false
  | VJson JNull => false
  | VJson (JBool b) => b
  | VJson (JNum n) => negb (n =? 0)%Z
  | VJson (JStr s) => negb (String.eqb s EmptyString)
  | VJson (JArr _) => true
  | VJson (JObj _) => true
  end.

(** [typeof o === "object" && o !== null && !Array.isArray(o)] *)
Definition isSingleJson (o : JsVal) : bool :=
  match o with
  | VJson (JObj _) => true
  | _ => false
  end.

(** [a === b] where [a] was read out of a freshly parsed line and [b] comes
    from the caller: primitives compare by value, while an array or an object
    inside a parsed line is a new reference, equal to nothing the caller
    holds. *)
Definition strict_equals (a b : JsVal) : bool :=
  match a, b with
  | VUndefined, VUndefined => true
  | VJson JNull, VJson JNull => true
  | VJson (JBool x), VJson (JBool y) => Bool.eqb x y
  | VJson (JNum x), VJson (JNum y) => (x =? y)%Z
  | VJson (JStr x), VJson (JStr y) => String.eqb x y
  | _, _ => false
  end.

(** The own field of an object, [undefined] when the key is absent. *)
Fixpoint field (key : string) (fields : list (string * Json)) : JsVal :=
  match fields with
  | [] => VUndefined
  | (k, v) :: rest => if String.eqb k key then VJson v else field key rest
  end.

Definition has_field (key : string) (r : Json) : bool :=
  match r with
  | JObj fields => existsb (fun kv => String.eqb (fst kv) key) fields
  | _ => false
  end.

Definition is_object (r : Json) : bool := isSingleJson (VJson r).

(** ** Errors and the monad of the engine *)

Inductive Error : Type :=
| ENOENT (path : string)          (* a file system call on a missing path *)
| SyntaxError (text : string)     (* JSON.parse on text that is not JSON *)
| TypeError                       (* property access on null *)
| Err (message : string).         (* new Error(message), also a callback's *)

Inductive Res (A : Type) : Type :=
| Ok (a : A)
| Throw (e : Error).
Arguments Ok {A} a.
Arguments Throw {A} e.

(** A computation over a state [W]; the state reached when an exception is
    thrown is kept, as a [catch] or a [finally] block runs in it. *)
Definition M (W A : Type) : Type := W -> Res A * W.

Definition ret {W A} (a : A) : M W A := fun w => (Ok a, w).
Definition throw {W A} (e : Error) : M W A := fun w => (Throw e, w).
Definition bind {W A B} (m : M W A) (k : A -> M W B) : M W B :=
  fun w => match m w with
           | (Ok a, w') => k a w'
           | (Throw e, w') => (Throw e, w')
           end.

Notation "x <- m ;; k" := (bind m (fun x => k))
  (at level 100, m at next level, right associativity).
Notation "m ;;; k" := (bind m (fun _ => k))
  (at level 100, right associativity).

(** [try { body } catch (e) { handler e }] *)
Definition try_catch {W A} (body : M W A) (handler : Error -> M W A) : M W A :=
  fun w => match body w with
           | (Ok a, w') => (Ok a, w')
           | (Throw e, w') => handler e w'
           end.

(** [try { body } finally { cleanup }]: the cleanup runs on every exit; an
    exception of the cleanup replaces the outcome of the body. *)
Definition try_finally {W A} (body : M W A) (cleanup : M W unit) : M W A :=
  fun w => let '(r, w1) := body w in
           match cleanup w1 with
           | (Ok _, w2) => (r, w2)
           | (Throw e, w2) => (Throw e, w2)
           end.

(** The world: files by path, the lines written to the console, and the
    variables [L] that the running callbacks close over. *)
Record World (L : Type) : Type := mkWorld {
  fs : gmap string string;
  console : list string;
  locals : L
}.
Arguments mkWorld {L} fs console locals.
Arguments fs {L} w.
Arguments console {L} w.
Arguments locals {L} w.

Definition set_fs {L} (f : gmap string string -> gmap string string)
    (w : World L) : World L :=
  mkWorld (f (fs w)) (console w) (locals w).

Definition set_locals {L L'} (l : L') (w : World L) : World L' :=
  mkWorld (fs w) (console w) l.

(** A block that declares variables of its own: [let l = init; ...]; the
    block's result comes back with the final value of its variables. *)
Definition with_locals {L0 L A} (init : L) (block : M (World L) A)
    : M (World L0) (A * L) :=
  fun w => let '(r, w') := block (set_locals init w) in
           (match r with
            | Ok a => Ok (a, locals w')
            | Throw e => Throw e
            end, set_locals (locals w) w').

Definition get_locals {L} : M (World L) L := fun w => (Ok (locals w), w).
Definition put_locals {L} (l : L) : M (World L) unit :=
  fun w => (Ok tt, set_locals l w).

(** A caller's callback, which reads and writes the caller's own variables
    and may throw; it does not touch the files. *)
Definition userCb {A B U} (f : A -> U -> Res B * U) : A -> M (World U) B :=
  fun a w => let '(r, u) := f a (locals w) in (r, set_locals u w).

(** A caller's predicate or transform: a function of the record that may
    throw. *)
Definition pureCb {A B L} (f : A -> Res B) : A -> M (World L) B :=
  fun a w => (f a, w).

(** [line[attribute]]: a field of a parsed line.  Reading a property of
    [null] throws; only own fields of objects are modelled (names inherited
    from a prototype, and the indices and [length] of arrays and strings,
    read as [undefined]). *)
Definition prop_of (line : Json) (attribute : string) : Res JsVal :=
  match line with
  | JNull => Throw TypeError
  | JObj fields => Ok (field attribute fields)
  | _ => Ok VUndefined
  end.

Definition get_prop {W} (line : Json) (attribute : string) : M W JsVal :=
  fun w => (prop_of line attribute, w).

(** ** The platform: node:fs, node:readline, console, JSON *)

Definition LF : ascii := "010"%char.
Definition CR : ascii := "013"%char.
Definition newline : string := String LF EmptyString.

(** The lines [readline] yields for a whole file ([crlfDelay: Infinity]):
    the text is cut at every LF, CR LF or CR, and what follows the last line
    ending is a line only if it is not empty. *)
Fixpoint rl_scan (cur : string) (text : string) : list string :=
  match text with
  | EmptyString =>
      match cur with EmptyString => [] | _ => [cur] end
  | String c rest =>
      if Ascii.eqb c LF then cur :: rl_scan EmptyString rest
      else if Ascii.eqb c CR then
        match rest with
        | String c' rest' =>
            if Ascii.eqb c' LF then cur :: rl_scan EmptyString rest'
            else cur :: rl_scan EmptyString rest
        | EmptyString => cur :: rl_scan EmptyString rest
        end
      else rl_scan (cur +:+ String c EmptyString) rest
  end.

Definition rl_lines (text : string) : list string := rl_scan EmptyString text.

(** The white space [String.prototype.trim] removes, among one-byte
    characters: TAB, LF, VT, FF, CR and space. *)
Definition is_space (c : ascii) : bool :=
  let n := nat_of_ascii c in
  ((9 <=? n) && (n <=? 13)) || (n =? 32).

(** [line.trim() === ""] *)
Fixpoint trim_is_empty (line : string) : bool :=
  match line with
  | EmptyString => true
  | String c rest => is_space c && trim_is_empty rest
  end.

(** [lines.join("\n")] *)
Definition join_lines (lines : list string) : string :=
  String.concat newline lines.

(** [line.substring(0, 100)] *)
Definition substring100 (line : string) : string := String.substring 0 100 line.

(** [JSON.parse] and [JSON.stringify], which the repository takes from the
    platform.  The two laws are the only facts about them the engine relies
    on: an object never prints as the empty text, and the text [undefined]
    (what [JSON.parse(undefined)] reads) is not JSON. *)
Class JsonCodec : Type := {
  JSON_parse : string -> option Json;
  JSON_stringify : Json -> string;
  JSON_stringify_object :
    forall fields, JSON_stringify (JObj fields) <> EmptyString;
  JSON_parse_undefined : JSON_parse "undefined" = None
}.

(** [JSON.parse(x)] first turns its argument into text: [undefined] reads as
    the text [undefined]. *)
Definition text_of_arg (x : option string) : string :=
  match x with
  | Some s => s
  | None => "undefined"
  end.

Section Platform.
Context {codec : JsonCodec} {L : Type}.

(** [JSON.parse(text)], throwing a [SyntaxError] on text that is not JSON. *)
Definition JSON_parse_or_throw (text : string) : M (World L) Json :=
  match JSON_parse text with
  | Some j => ret j
  | None => throw (SyntaxError text)
  end.

(** [JSON.stringify(o)] as the text that [prefix + ...] appends. *)
Definition JSON_stringify_text (o : JsVal) : string :=
  match o with
  | VJson j => JSON_stringify j
  | VUndefined => "undefined"
  end.

(** [fs.access(path)] *)
Definition access (path : string) : M (World L) unit :=
  fun w => match fs w !! path with
           | Some _ => (Ok tt, w)
           | None => (Throw (ENOENT path), w)
           end.

(** [fs.writeFile(path, data)] *)
Definition writeFile (path data : string) : M (World L) unit :=
  fun w => (Ok tt, set_fs (fun files => <[path := data]> files) w).

(** [fs.appendFile(path, data)], which creates a missing file. *)
Definition appendFile (path data : string) : M (World L) unit :=
  fun w => (Ok tt,
            set_fs (fun files =>
                      <[path := default EmptyString (files !! path) +:+ data]> files) w).

(** [fs.rename(oldPath, newPath)]: the old path must exist; the new path
    then holds its content and the old path is gone. *)
Definition rename (oldPath newPath : string) : M (World L) unit :=
  fun w => match fs w !! oldPath with
           | Some content =>
               (Ok tt,
                set_fs (fun files => <[newPath := content]> (delete oldPath files)) w)
           | None => (Throw (ENOENT oldPath), w)
           end.

(** [fs.unlink(path)] *)
Definition unlink (path : string) : M (World L) unit :=
  fun w => match fs w !! path with
           | Some _ => (Ok tt, set_fs (fun files => delete path files) w)
           | None => (Throw (ENOENT path), w)
           end.

(** [fs.rm(path)], called without [force]: a missing path is an error. *)
Definition rm (path : string) : M (World L) unit :=
  fun w => match fs w !! path with
           | Some _ => (Ok tt, set_fs (fun files => delete path files) w)
           | None => (Throw (ENOENT path), w)
           end.

(** [(await fs.stat(path)).size]: the number of bytes of the file. *)
Definition stat_size (path : string) : M (World L) nat :=
  fun w => match fs w !! path with
           | Some content => (Ok (String.length content), w)
           | None => (Throw (ENOENT path), w)
           end.

(** [console.warn(message)] and [console.error(message)] *)
Definition console_warn (message : string) : M (World L) unit :=
  fun w => (Ok tt, mkWorld (fs w) (console w ++ [message]) (locals w)).
Definition console_error (message : string) : M (World L) unit :=
  console_warn message.

(** [createInterface({ input: createReadStream(path), crlfDelay: Infinity })]
    as the loop [for await (const line of rl)] sees it: the lines of the
    file as it is when the stream opens, or the stream's ENOENT. *)
Definition getRl (path : string) : M (World L) (list string) :=
  fun w => match fs w !! path with
           | Some content => (Ok (rl_lines content), w)
           | None => (Throw (ENOENT path), w)
           end.

(** [rl.close()] *)
Definition rl_close : M (World L) unit := ret tt.

(** [safePathExists], the same function in every source file. *)
Definition safePathExists (path : string) : M (World L) bool :=
  try_catch (access path ;;; ret true)
    (fun error =>
       match error with
       | ENOENT _ => ret false
       | _ => throw error
       end).
End Platform.

(** ** The scratch-file helper ([temporaryFileTask]) *)

(** What the helper draws from its environment: [os.tmpdir()] and the hex
    text of [randomBytes(16)]. *)
Record TempSource : Type := {
  os_tmpdir : string;
  random_hex : string
}.

(** [path.join(dir, name)], for a directory and a file name that need no
    normalisation. *)
Definition path_join (dir name : string) : string := dir +:+ "/" +:+ name.

Definition starts_with_dot (s : string) : bool :=
  match s with
  | String c _ => Ascii.eqb c "."%char
  | EmptyString => false
  end.

Definition generateTempFilePath (src : TempSource) (extension : string) : string :=
  let uniqueName := random_hex src in
  let ext := if starts_with_dot extension then extension else "." +:+ extension in
  path_join (os_tmpdir src) (uniqueName +:+ ext).

Definition temporaryFileTask {L A} (src : TempSource)
    (task : string -> M (World L) A) : M (World L) A :=
  let tempFilePath := generateTempFilePath src EmptyString in
  try_finally (task tempFilePath)
    (try_catch (unlink tempFilePath)
       (fun err =>
          match err with
          | ENOENT _ => ret tt
          | _ => console_error ("Failed to delete temporary file: " +:+ tempFilePath)
          end)).

(** ** The single-file engine ([src/jsonlFile.js]) *)

Module JsonlFile.
Section Engine.
Context {codec : JsonCodec}.

Definition isEmptyFile {L} (path : string) : M (World L) bool :=
  pathExists <- safePathExists path ;;
  if negb pathExists then ret true
  else
    lines <- getRl path ;;
    ret (match lines with
         | [] => true
         | _line :: _ => false
         end).

Definition ensureFileAndGetPrefix {L} (path : string) : M (World L) string :=
  pathExists <- safePathExists path ;;
  fileIsEmpty <- (if negb pathExists
                  then writeFile path EmptyString ;;; ret true
                  else isEmptyFile path) ;;
  ret (if fileIsEmpty : bool then EmptyString else newline).

Definition addText {L} (path line : string) : M (World L) unit :=
  prefix <- ensureFileAndGetPrefix path ;;
  appendFile path (prefix +:+ line).

Definition addManyText {L} (path : string) (lines : list string)
    : M (World L) unit :=
  prefix <- ensureFileAndGetPrefix path ;;
  appendFile path (prefix +:+ join_lines lines).

Definition add {L} (path : string) (o : JsVal) : M (World L) unit :=
  if negb (isSingleJson o)
  then throw (Err "add() only accepts a single json object")
  else addText path (JSON_stringify_text o).

(** [addMany(os)]: [Array.isArray(os)] holds of the arrays only. *)
Definition addMany {L} (path : string) (os : JsVal) : M (World L) unit :=
  match os with
  | VJson (JArr items) =>
      if length items =? 0 then ret tt
      else if negb (forallb (fun o => isSingleJson (VJson o)) items)
      then throw (Err "addMany() only accepts an array of json objects")
      else addManyText path (map (fun o => JSON_stringify_text (VJson o)) items)
  | _ => throw (Err "addMany() only accepts an array of json objects")
  end.

Definition first {L} (path : string) : M (World L) Json :=
  lines <- getRl path ;;
  let firstLine := head lines in
  JSON_parse_or_throw (text_of_arg firstLine).

Definition last {L} (path : string) : M (World L) Json :=
  lines <- getRl path ;;
  let lastLine := last lines in
  JSON_parse_or_throw (text_of_arg lastLine).

(** The loop of [read]: [for await (const line of rl)]. *)
Fixpoint read_loop {L} (onLine : Json -> M (World L) JsVal)
    (lines : list string) : M (World L) unit :=
  match lines with
  | [] => ret tt
  | line :: rest =>
      parsed <- JSON_parse_or_throw line ;;
      canEnd <- onLine parsed ;;
      if truthy canEnd then ret tt else read_loop onLine rest
  end.

Definition read {L} (path : string) (onLine : Json -> M (World L) JsVal)
    : M (World L) unit :=
  lines <- getRl path ;;
  read_loop onLine lines.

(** The loop of [readByBatch]; it returns [batch] and [canEndGlobal] as
    they are when the loop ends. *)
Fixpoint readByBatch_loop {L} (onBatch : list Json -> M (World L) JsVal)
    (batchSize : Z) (lines : list string) (batch : list Json)
    : M (World L) (list Json * bool) :=
  match lines with
  | [] => ret (batch, false)
  | line :: rest =>
      parsed <- JSON_parse_or_throw line ;;
      let batch := batch ++ [parsed] in
      if (Z.of_nat (length batch) =? batchSize)%Z then
        canEnd <- onBatch batch ;;
        if truthy canEnd then ret (batch, true)
        else readByBatch_loop onBatch batchSize rest []
      else readByBatch_loop onBatch batchSize rest batch
  end.

Definition readByBatch {L} (path : string)
    (onBatch : list Json -> M (World L) JsVal) (batchSize : Z)
    : M (World L) unit :=
  lines <- getRl path ;;
  state <- readByBatch_loop onBatch batchSize lines [] ;;
  let '(batch, canEndGlobal) := state in
  if (0 <? length batch) && negb canEndGlobal
  then onBatch batch ;;; ret tt
  else ret tt.

Definition findWhere {L} (path attribute : string) (value : JsVal)
    : M (World L) (option Json) :=
  out <- with_locals None
    (read path (fun line =>
       v <- get_prop line attribute ;;
       if strict_equals v value
       then put_locals (Some line) ;;; ret (VJson (JBool true))
       else ret (VJson (JBool false)))) ;;
  ret (snd out).

Definition findMatch {L} (path : string) (matchFn : Json -> Res JsVal)
    : M (World L) (list Json) :=
  out <- with_locals []
    (read path (fun line =>
       matched <- pureCb matchFn line ;;
       (if truthy matched
        then found <- get_locals ;; put_locals (found ++ [line])
        else ret tt) ;;;
       ret VUndefined)) ;;
  ret (snd out).

Definition count {L} (path : string) : M (World L) nat :=
  lines <- getRl path ;;
  ret (length lines).

Definition countMatch {L} (path : string) (matchFn : Json -> Res JsVal)
    : M (World L) nat :=
  out <- with_locals 0
    (read path (fun line =>
       matched <- pureCb matchFn line ;;
       (if truthy matched
        then lineCount <- get_locals ;; put_locals (S lineCount)
        else ret tt) ;;;
       ret VUndefined)) ;;
  ret (snd out).

(** The four mutations.  Each one hands [read] a callback that writes to
    the scratch file, named here [..._onLine], and then renames the scratch
    file over the source. *)
Definition updateWhere_onLine {L} (tmpPath attribute : string)
    (value : JsVal) (updateFn : Json -> Res JsVal) (line : Json)
    : M (World L) JsVal :=
  v <- get_prop line attribute ;;
  if strict_equals v value
  then updatedLine <- pureCb updateFn line ;;
       add tmpPath updatedLine ;;; ret VUndefined
  else add tmpPath (VJson line) ;;; ret VUndefined.

Definition updateWhere {L} (src : TempSource) (path attribute : string)
    (value : JsVal) (updateFn : Json -> Res JsVal) : M (World L) unit :=
  temporaryFileTask src (fun tmpPath =>
    read path (updateWhere_onLine tmpPath attribute value updateFn) ;;;
    rename tmpPath path).

Definition updateMatch_onLine {L} (tmpPath : string)
    (matchFn updateFn : Json -> Res JsVal) (line : Json)
    : M (World L) JsVal :=
  matched <- pureCb matchFn line ;;
  if truthy matched
  then updatedLine <- pureCb updateFn line ;;
       add tmpPath updatedLine ;;; ret VUndefined
  else add tmpPath (VJson line) ;;; ret VUndefined.

Definition updateMatch {L} (src : TempSource) (path : string)
    (matchFn updateFn : Json -> Res JsVal) : M (World L) unit :=
  temporaryFileTask src (fun tmpPath =>
    read path (updateMatch_onLine tmpPath matchFn updateFn) ;;;
    rename tmpPath path).

Definition deleteWhere_onLine {L} (tmpPath attribute : string)
    (value : JsVal) (line : Json) : M (World L) JsVal :=
  v <- get_prop line attribute ;;
  if negb (strict_equals v value)
  then add tmpPath (VJson line) ;;; ret VUndefined
  else ret VUndefined.

Definition deleteWhere {L} (src : TempSource) (path attribute : string)
    (value : JsVal) : M (World L) unit :=
  temporaryFileTask src (fun tmpPath =>
    read path (deleteWhere_onLine tmpPath attribute value) ;;;
    rename tmpPath path).

Definition deleteMatch_onLine {L} (tmpPath : string)
    (matchFn : Json -> Res JsVal) (line : Json) : M (World L) JsVal :=
  matched <- pureCb matchFn line ;;
  if negb (truthy matched)
  then add tmpPath (VJson line) ;;; ret VUndefined
  else ret VUndefined.

Definition deleteMatch {L} (src : TempSource) (path : string)
    (matchFn : Json -> Res JsVal) : M (World L) unit :=
  temporaryFileTask src (fun tmpPath =>
    read path (deleteMatch_onLine tmpPath matchFn) ;;;
    rename tmpPath path).

Definition deleteFile {L} (path : string) : M (World L) unit :=
  rm path.
End Engine.
End JsonlFile.

(** ** The TypeScript twin of the single-file engine

    It is [src/jsonlFile.js] with types, callbacks that end in
    [return false], and a guard in [first] and [last]. *)

Module JsonlFileTs.
Section Engine.
Context {codec : JsonCodec}.

(** [!firstLine]: no line was read, or the line is the empty text. *)
Definition not_line (line : option string) : bool :=
  match line with
  | None => true
  | Some s => String.eqb s EmptyString
  end.

Definition first {L} (path : string) : M (World L) Json :=
  lines <- getRl path ;;
  let firstLine := head lines in
  if not_line firstLine then throw (Err "File is empty")
  else JSON_parse_or_throw (text_of_arg firstLine).

Definition last {L} (path : string) : M (World L) Json :=
  lines <- getRl path ;;
  let lastLine := last lines in
  if not_line lastLine then throw (Err "File is empty")
  else JSON_parse_or_throw (text_of_arg lastLine).
End Engine.
End JsonlFileTs.

(** ** The streaming reader ([src/lib/jsonl.ts]) *)

Module Jsonl.
Section Engine.
Context {codec : JsonCodec}.

Definition warning (line : string) : string :=
  "Warning: Skipping invalid JSON line: " +:+ substring100 line +:+ "...".

(** The loop of [read]; it returns [batch] and [canEndGlobal] as they are
    when the loop ends.  The inner [try] holds [JSON.parse] and the push
    only. *)
Fixpoint read_loop {L} (onBatch : list Json -> M (World L) JsVal)
    (batchSize : Z) (lines : list string) (batch : list Json)
    : M (World L) (list Json * bool) :=
  match lines with
  | [] => ret (batch, false)
  | line :: rest =>
      if trim_is_empty line then read_loop onBatch batchSize rest batch
      else
        pushed <- try_catch
                    (parsed <- JSON_parse_or_throw line ;;
                     ret (Some (batch ++ [parsed])))
                    (fun parseError => console_warn (warning line) ;;; ret None) ;;
        match pushed with
        | None => read_loop onBatch batchSize rest batch
        | Some batch =>
            if (Z.of_nat (length batch) =? batchSize)%Z then
              canEnd <- onBatch batch ;;
              if truthy canEnd then ret (batch, true)
              else read_loop onBatch batchSize rest []
            else read_loop onBatch batchSize rest batch
        end
  end.

Definition read {L} (filePath : string)
    (onBatch : list Json -> M (World L) JsVal) (batchSize : Z)
    : M (World L) unit :=
  pathExists <- safePathExists filePath ;;
  if negb pathExists then ret tt
  else
    lines <- getRl filePath ;;
    try_finally
      (state <- read_loop onBatch batchSize lines [] ;;
       let '(batch, canEndGlobal) := state in
       if (0 <? length batch) && negb canEndGlobal
       then onBatch batch ;;; ret tt
       else ret tt)
      rl_close.

(** The default of [batchSize]. *)
Definition default_batchSize : Z := 1000.

(** [result === true] *)
Definition is_true (result : JsVal) : bool :=
  match result with
  | VJson (JBool true) => true
  | _ => false
  end.

(** The loop of [readLineByLine].  Here the [try] holds [JSON.parse], the
    call of [onLine] and the [break]; its value tells whether the loop was
    left. *)
Fixpoint readLineByLine_loop {L} (onLine : Json -> M (World L) JsVal)
    (lines : list string) : M (World L) unit :=
  match lines with
  | [] => ret tt
  | line :: rest =>
      if trim_is_empty line then readLineByLine_loop onLine rest
      else
        stop <- try_catch
                  (parsed <- JSON_parse_or_throw line ;;
                   result <- onLine parsed ;;
                   ret (is_true result))
                  (fun parseError => console_warn (warning line) ;;; ret false) ;;
        if stop : bool then ret tt else readLineByLine_loop onLine rest
  end.

Definition readLineByLine {L} (filePath : string)
    (onLine : Json -> M (World L) JsVal) : M (World L) unit :=
  pathExists <- safePathExists filePath ;;
  if negb pathExists then ret tt
  else
    lines <- getRl filePath ;;
    try_finally (readLineByLine_loop onLine lines) rl_close.

Definition count {L} (filePath : string) : M (World L) nat :=
  pathExists <- safePathExists filePath ;;
  if negb pathExists then ret 0
  else
    out <- with_locals 0
      (read filePath (fun batch =>
         lineCount <- get_locals ;;
         put_locals (lineCount + length batch) ;;;
         ret (VJson (JBool false))) default_batchSize) ;;
    ret (snd out).

(** The loop of [isEmptyFile]: it leaves at the first line that is not
    blank. *)
Fixpoint isEmptyFile_loop (lines : list string) : bool :=
  match lines with
  | [] => true
  | _line :: rest =>
      if negb (trim_is_empty _line) then false else isEmptyFile_loop rest
  end.

(** [isEmptyFile]: the first [try] returns from the function when the
    size is zero, and so does its [catch]. *)
Definition isEmptyFile {L} (filePath : string) : M (World L) bool :=
  pathExists <- safePathExists filePath ;;
  if negb pathExists then ret true
  else
    returned <- try_catch
                  (size <- stat_size filePath ;; ret (size =? 0))
                  (fun _ => ret true) ;;
    if returned : bool then ret true
    else
      lines <- getRl filePath ;;
      try_finally (ret (isEmptyFile_loop lines)) rl_close.

Definition ensure {L} (filePath : string) : M (World L) string :=
  pathExists <- safePathExists filePath ;;
  fileIsEmpty <- (if negb pathExists
                  then writeFile filePath EmptyString ;;; ret true
                  else isEmptyFile filePath) ;;
  ret (if fileIsEmpty : bool then EmptyString else newline).

Definition appendText {L} (filePath : string) (lines : list string)
    : M (World L) unit :=
  if length lines =? 0 then ret tt
  else
    linePrefix <- ensure filePath ;;
    appendFile filePath (linePrefix +:+ join_lines lines).

(** [append(data)], for [data] a JSON value: an array is taken as the
    list of its elements, anything else as a list of one. *)
Definition append {L} (filePath : string) (data : Json) : M (World L) unit :=
  let lines := match data with
               | JArr items => items
               | _ => [data]
               end in
  let jsonLines := map JSON_stringify lines in
  appendText filePath jsonLines.

(** [delete] of the file object. *)
Definition delete_ {L} (filePath : string) : M (World L) unit :=
  pathExists <- safePathExists filePath ;;
  if pathExists : bool then rm filePath else ret tt.

Definition isEmpty {L} (filePath : string) : M (World L) bool :=
  isEmptyFile filePath.

Definition clear {L} (filePath : string) : M (World L) unit :=
  writeFile filePath EmptyString.

Definition getPath {L} (filePath : string) : M (World L) string :=
  ret filePath.

(** [exists] of the file object. *)
Definition exists_ {L} (filePath : string) : M (World L) bool :=
  safePathExists filePath.
End Engine.
End Jsonl.

(** ** The directory-collection facade ([jsonlDir]) *)

Module JsonlDir.
Section Facade.
Context {codec : JsonCodec}.

(** [path.join(dirPath, entityName + ".jsonl")] *)
Definition filePath (dirPath entityName : string) : string :=
  path_join dirPath (entityName +:+ ".jsonl").

Definition add {L} (dirPath entityName : string) (data : JsVal)
    : M (World L) unit :=
  match data with
  | VJson (JArr items) =>
      if length items =? 0 then ret tt
      else Jsonl.appendText (filePath dirPath entityName)
             (map JSON_stringify items)
  | _ =>
      if isSingleJson data
      then Jsonl.appendText (filePath dirPath entityName)
             [JSON_stringify_text data]
      else throw (Err "add() only accepts a single json object or an array of json objects")
  end.

(** The body of the callback of [findOne]: [found] and [canEnd] are the
    variables it closes over. *)
Fixpoint findOne_batch (matchFn : Json -> Res bool) (batch : list Json)
    : M (World (option Json * bool)) JsVal :=
  match batch with
  | [] => st <- get_locals ;; ret (VJson (JBool (snd st)))
  | jsonObject :: rest =>
      matched <- pureCb matchFn jsonObject ;;
      if matched : bool
      then put_locals (Some jsonObject, true) ;;; ret (VJson (JBool true))
      else findOne_batch matchFn rest
  end.

Definition findOne {L} (dirPath entityName : string)
    (matchFn : Json -> Res bool) : M (World L) (option Json) :=
  out <- with_locals (None, false)
    (Jsonl.read (filePath dirPath entityName)
       (findOne_batch matchFn) Jsonl.default_batchSize) ;;
  ret (fst (snd out)).

Fixpoint find_batch (matchFn : Json -> Res bool) (batch : list Json)
    : M (World (list Json)) JsVal :=
  match batch with
  | [] => ret (VJson (JBool false))
  | jsonObject :: rest =>
      matched <- pureCb matchFn jsonObject ;;
      (if matched : bool
       then found <- get_locals ;; put_locals (found ++ [jsonObject])
       else ret tt) ;;;
      find_batch matchFn rest
  end.

Definition find {L} (dirPath entityName : string)
    (matchFn : Json -> Res bool) : M (World L) (list Json) :=
  out <- with_locals []
    (Jsonl.read (filePath dirPath entityName)
       (find_batch matchFn) Jsonl.default_batchSize) ;;
  ret (snd out).

Fixpoint update_batch (matchFn : Json -> Res bool) (updateFn : Json -> Res Json)
    (batch : list Json) : M (World (list Json)) JsVal :=
  match batch with
  | [] => ret (VJson (JBool false))
  | jsonObject :: rest =>
      matched <- pureCb matchFn jsonObject ;;
      (if matched : bool
       then changed <- pureCb updateFn jsonObject ;;
            updated <- get_locals ;; put_locals (updated ++ [changed])
       else ret tt) ;;;
      update_batch matchFn updateFn rest
  end.

Definition update {L} (dirPath entityName : string)
    (matchFn : Json -> Res bool) (updateFn : Json -> Res Json)
    : M (World L) (list Json) :=
  out <- with_locals []
    (Jsonl.read (filePath dirPath entityName)
       (update_batch matchFn updateFn) Jsonl.default_batchSize) ;;
  ret (snd out).

Fixpoint delete_batch (matchFn : Json -> Res bool) (batch : list Json)
    : M (World (list Json)) JsVal :=
  match batch with
  | [] => ret (VJson (JBool false))
  | jsonObject :: rest =>
      matched <- pureCb matchFn jsonObject ;;
      (if negb matched
       then deleted <- get_locals ;; put_locals (deleted ++ [jsonObject])
       else ret tt) ;;;
      delete_batch matchFn rest
  end.

(** [delete] of the facade ([delete] itself names the removal of a key
    from a finite map). *)
Definition delete_ {L} (dirPath entityName : string)
    (matchFn : Json -> Res bool) : M (World L) (list Json) :=
  out <- with_locals []
    (Jsonl.read (filePath dirPath entityName)
       (delete_batch matchFn) Jsonl.default_batchSize) ;;
  ret (snd out).

Definition count {L} (dirPath entityName : string) : M (World L) nat :=
  Jsonl.count (filePath dirPath entityName).
End Facade.
End JsonlDir.

(** ** A reference codec

    A parser and a printer for the part of JSON that the examples below are
    written in: [null], booleans, integers, strings with the two-character
    escapes, arrays and objects.  It instantiates [JsonCodec] wherever a
    statement is run on a concrete file; no proof about the engine looks
    inside it. *)

Module MiniJson.
Definition dquote : ascii := "034"%char.
Definition backslash : ascii := "092"%char.

Definition is_json_ws (c : ascii) : bool :=
  let n := nat_of_ascii c in
  (n =? 32) || (n =? 9) || (n =? 10) || (n =? 13).

Fixpoint skip_ws (s : string) : string :=
  match s with
  | String c rest => if is_json_ws c then skip_ws rest else s
  | EmptyString => s
  end.

Definition digit_of (c : ascii) : option Z :=
  let n := nat_of_ascii c in
  if (48 <=? n) && (n <=? 57) then Some (Z.of_nat (n - 48)) else None.

Fixpoint digits (acc : Z) (s : string) : Z * string :=
  match s with
  | String c rest =>
      match digit_of c with
      | Some d => digits (10 * acc + d) rest
      | None => (acc, s)
      end
  | EmptyString => (acc, s)
  end.

(** A fraction or an exponent follows: outside the part of JSON read here. *)
Definition starts_fraction (s : string) : bool :=
  match s with
  | String c _ => Ascii.eqb c "."%char || Ascii.eqb c "e"%char || Ascii.eqb c "E"%char
  | EmptyString => false
  end.

Definition parse_natural (s : string) : option (Z * string) :=
  match s with
  | String c rest =>
      match digit_of c with
      | Some d =>
          let '(n, rest') := if (d =? 0)%Z then (0%Z, rest) else digits d rest in
          match rest' with
          | String c' _ =>
              if starts_fraction rest' then None
              else match digit_of c' with Some _ => None | None => Some (n, rest') end
          | EmptyString => Some (n, rest')
          end
      | None => None
      end
  | EmptyString => None
  end.

Definition parse_number (s : string) : option (Json * string) :=
  match s with
  | String c rest =>
      if Ascii.eqb c "-"%char
      then match parse_natural rest with
           | Some (n, rest') => Some (JNum (- n), rest')
           | None => None
           end
      else match parse_natural s with
           | Some (n, rest') => Some (JNum n, rest')
           | None => None
           end
  | EmptyString => None
  end.

Definition unescape (c : ascii) : option ascii :=
  if Ascii.eqb c dquote then Some dquote
  else if Ascii.eqb c backslash then Some backslash
  else if Ascii.eqb c "/"%char then Some "/"%char
  else if Ascii.eqb c "b"%char then Some "008"%char
  else if Ascii.eqb c "f"%char then Some "012"%char
  else if Ascii.eqb c "n"%char then Some LF
  else if Ascii.eqb c "r"%char then Some CR
  else if Ascii.eqb c "t"%char then Some "009"%char
  else None.

(** The characters of a string literal, after its opening quote. *)
Fixpoint parse_chars (acc : string) (s : string) : option (string * string) :=
  match s with
  | EmptyString => None
  | String c rest =>
      if Ascii.eqb c dquote then Some (acc, rest)
      else if Ascii.eqb c backslash then
        match rest with
        | String e rest' =>
            match unescape e with
            | Some ch => parse_chars (acc +:+ String ch EmptyString) rest'
            | None => None
            end
        | EmptyString => None
        end
      else if nat_of_ascii c <? 32 then None
      else parse_chars (acc +:+ String c EmptyString) rest
  end.

Fixpoint strip_prefix (p s : string) : option string :=
  match p, s with
  | EmptyString, _ => Some s
  | String a p', String b s' => if Ascii.eqb a b then strip_prefix p' s' else None
  | String _ _, EmptyString => None
  end.

(** [obj[key] = v] on the fields read so far: a repeated key keeps its
    place and takes the last value. *)
Fixpoint set_field (key : string) (v : Json) (fields : list (string * Json))
    : list (string * Json) :=
  match fields with
  | [] => [(key, v)]
  | (k, old) :: rest =>
      if String.eqb k key then (k, v) :: rest else (k, old) :: set_field key v rest
  end.

Fixpoint parse_value (fuel : nat) (s : string) {struct fuel}
    : option (Json * string) :=
  match fuel with
  | O => None
  | S fuel' =>
      match skip_ws s with
      | EmptyString => None
      | String c rest as s1 =>
          if Ascii.eqb c "n"%char then
            match strip_prefix "ull" rest with Some r => Some (JNull, r) | None => None end
          else if Ascii.eqb c "t"%char then
            match strip_prefix "rue" rest with Some r => Some (JBool true, r) | None => None end
          else if Ascii.eqb c "f"%char then
            match strip_prefix "alse" rest with Some r => Some (JBool false, r) | None => None end
          else if Ascii.eqb c dquote then
            match parse_chars EmptyString rest with
            | Some (str, r) => Some (JStr str, r)
            | None => None
            end
          else if Ascii.eqb c "["%char then
            match skip_ws rest with
            | String c' r =>
                if Ascii.eqb c' "]"%char then Some (JArr [], r)
                else parse_elements fuel' rest []
            | EmptyString => None
            end
          else if Ascii.eqb c "{"%char then
            match skip_ws rest with
            | String c' r =>
                if Ascii.eqb c' "}"%char then Some (JObj [], r)
                else parse_members fuel' rest []
            | EmptyString => None
            end
          else parse_number s1
      end
  end
with parse_elements (fuel : nat) (s : string) (acc : list Json) {struct fuel}
    : option (Json * string) :=
  match fuel with
  | O => None
  | S fuel' =>
      match parse_value fuel' s with
      | Some (v, rest) =>
          match skip_ws rest with
          | String c r =>
              if Ascii.eqb c ","%char then parse_elements fuel' r (acc ++ [v])
              else if Ascii.eqb c "]"%char then Some (JArr (acc ++ [v]), r)
              else None
          | EmptyString => None
          end
      | None => None
      end
  end
with parse_members (fuel : nat) (s : string) (acc : list (string * Json))
    {struct fuel} : option (Json * string) :=
  match fuel with
  | O => None
  | S fuel' =>
      match skip_ws s with
      | String q rest =>
          if Ascii.eqb q dquote then
            match parse_chars EmptyString rest with
            | Some (key, rest1) =>
                match skip_ws rest1 with
                | String colon rest2 =>
                    if Ascii.eqb colon ":"%char then
                      match parse_value fuel' rest2 with
                      | Some (v, rest3) =>
                          match skip_ws rest3 with
                          | String c r =>
                              if Ascii.eqb c ","%char
                              then parse_members fuel' r (set_field key v acc)
                              else if Ascii.eqb c "}"%char
                              then Some (JObj (set_field key v acc), r)
                              else None
                          | EmptyString => None
                          end
                      | None => None
                      end
                    else None
                | EmptyString => None
                end
            | None => None
            end
          else None
      | EmptyString => None
      end
  end.

Definition parse (text : string) : option Json :=
  match parse_value (2 * String.length text + 2) text with
  | Some (v, rest) =>
      match skip_ws rest with
      | EmptyString => Some v
      | String _ _ => None
      end
  | None => None
  end.

Definition hex_digit (n : nat) : ascii :=
  ascii_of_nat (if n <? 10 then 48 + n else 87 + n).

Definition escape (c : ascii) : string :=
  let n := nat_of_ascii c in
  if Ascii.eqb c dquote then String backslash (String dquote EmptyString)
  else if Ascii.eqb c backslash then String backslash (String backslash EmptyString)
  else if n =? 8 then "\b"
  else if n =? 12 then "\f"
  else if n =? 10 then "\n"
  else if n =? 13 then "\r"
  else if n =? 9 then "\t"
  else if n <? 32
  then "\u00" +:+ String (hex_digit (n / 16)) (String (hex_digit (n mod 16)) EmptyString)
  else String c EmptyString.

Fixpoint escape_all (s : string) : string :=
  match s with
  | EmptyString => EmptyString
  | String c rest => escape c +:+ escape_all rest
  end.

Definition quote (s : string) : string :=
  String dquote (escape_all s +:+ String dquote EmptyString).

Fixpoint stringify (j : Json) : string :=
  match j with
  | JNull => "null"
  | JBool true => "true"
  | JBool false => "false"
  | JNum n => pretty n
  | JStr s => quote s
  | JArr items => "[" +:+ String.concat "," (map stringify items) +:+ "]"
  | JObj fields =>
      "{" +:+ String.concat ","
                (map (fun kv => quote (fst kv) +:+ ":" +:+ stringify (snd kv)) fields)
          +:+ "}"
  end.
End MiniJson.

Definition mini_codec : JsonCodec := {|
  JSON_parse := MiniJson.parse;
  JSON_stringify := MiniJson.stringify;
  JSON_stringify_object :=
    fun fields (H : MiniJson.stringify (JObj fields) = EmptyString) =>
      ltac:(discriminate H);
  JSON_parse_undefined := eq_refl
|}.

(** * What the operations are meant to compute *)

Section Records.
Context {codec : JsonCodec}.

(** A line as the streaming reader decodes it: blank lines and lines that
    are not JSON give no record. *)
Definition decode_line (line : string) : option Json :=
  if trim_is_empty line then None else JSON_parse line.

Definition decodable_lines (lines : list string) : list Json :=
  omap decode_line lines.

(** The decodable records of the file at [path], in file order; a missing
    file has none. *)
Definition records_of (files : gmap string string) (path : string) : list Json :=
  match files !! path with
  | Some content => decodable_lines (rl_lines content)
  | None => []
  end.

(** A line that is not blank and is not JSON. *)
Definition malformed (line : string) : bool :=
  negb (trim_is_empty line) &&
  match JSON_parse line with Some _ => false | None => true end.

Definition warnings_of (lines : list string) : list string :=
  map Jsonl.warning (List.filter malformed lines).

Definition file_lines (files : gmap string string) (path : string) : list string :=
  match files !! path with
  | Some content => rl_lines content
  | None => []
  end.

(** The records of lines that all decode: no blank line, no line that is
    not JSON. *)
Fixpoint strict_decode (lines : list string) : option (list Json) :=
  match lines with
  | [] => Some []
  | line :: rest =>
      match decode_line line, strict_decode rest with
      | Some r, Some rs => Some (r :: rs)
      | _, _ => None
      end
  end.

(** [file_records files path = Some records]: the file exists and its
    lines are exactly the records [records], one per line. *)
Definition file_records (files : gmap string string) (path : string)
    : option (list Json) :=
  match files !! path with
  | Some content => strict_decode (rl_lines content)
  | None => None
  end.
End Records.

Section Deliveries.
Context {A U : Type}.
Implicit Types (f : A -> U -> Res JsVal * U) (signal : JsVal -> bool).

(** The caller's variables after [f] has been called on [items] in turn. *)
Definition replay f (items : list A) (u : U) : U :=
  fold_left (fun u a => snd (f a u)) items u.

(** Called on [items] in turn, from the variables [u], the callback
    returns every time, and never with a stop signal. *)
Fixpoint quiet signal f (items : list A) (u : U) : bool :=
  match items with
  | [] => true
  | a :: rest =>
      match fst (f a u) with
      | Ok v => negb (signal v) && quiet signal f rest (snd (f a u))
      | Throw _ => false
      end
  end.

(** Called on [a] with the variables [u], the callback returns a stop
    signal. *)
Definition stops signal f (a : A) (u : U) : bool :=
  match fst (f a u) with
  | Ok v => signal v
  | Throw _ => false
  end.

(** Handing [items] over to the callback, one after the other, until it
    returns a stop signal or throws. *)
Fixpoint hand_over signal f (items : list A) (u : U) : Res unit * U :=
  match items with
  | [] => (Ok tt, u)
  | a :: rest =>
      match f a u with
      | (Ok v, u') => if signal v then (Ok tt, u') else hand_over signal f rest u'
      | (Throw e, u') => (Throw e, u')
      end
  end.

(** The same, when what the callback throws is caught and the hand-over
    goes on, as [readLineByLine] does. *)
Fixpoint hand_over_lenient signal f (items : list A) (u : U) : U :=
  match items with
  | [] => u
  | a :: rest =>
      match f a u with
      | (Ok v, u') => if signal v then u' else hand_over_lenient signal f rest u'
      | (Throw e, u') => hand_over_lenient signal f rest u'
      end
  end.

(** A callback that also notes, in a log of its own, each item it is
    called on. *)
Definition traced f : A -> U * list A -> Res JsVal * (U * list A) :=
  fun a st => let '(r, u) := f a (fst st) in (r, (u, snd st ++ [a])).
End Deliveries.

Section Batches.
Context {A : Type}.

(** The batches of size [k] cut from [buf ++ l], when [buf] is the buffer
    already filled. *)
Fixpoint chunks_from (k : nat) (buf l : list A) : list (list A) :=
  match l with
  | [] => match buf with [] => [] | _ :: _ => [buf] end
  | x :: rest =>
      if length (buf ++ [x]) =? k
      then (buf ++ [x]) :: chunks_from k [] rest
      else chunks_from k (buf ++ [x]) rest
  end.

Definition chunks (k : nat) (l : list A) : list (list A) := chunks_from k [] l.

(** [bs] cuts [l] into batches of size [k]: in order, ceil(n/k) of them,
    all of size [k] except possibly the last, which is not empty. *)
Definition batching (k : nat) (l : list A) (bs : list (list A)) : Prop :=
  concat bs = l /\
  length bs = (length l + k - 1) / k /\
  (forall i b, bs !! i = Some b -> S i < length bs -> length b = k) /\
  (forall b, List.last bs [] = b -> bs <> [] -> 0 < length b <= k).
End Batches.

(** A computation that leaves every file as it is. *)
Definition keeps_files {L A} (m : M (World L) A) : Prop :=
  forall w, fs (snd (m w)) = fs w.

(** The log of a traced callback, in a world whose variables are the
    caller's own and that log. *)
Definition log_of {A U} (w : World (U * list A)) : list A := snd (locals w).

(** The computation [c] is the callback [f] of a caller: it works on the
    variables it closes over and on nothing else. *)
Definition acts_as {A B U} (c : A -> M (World U) B) (f : A -> U -> Res B * U) : Prop :=
  forall a w, c a w = userCb f a w.

(** What [readByBatch] and the streaming [read] do once their loop has
    ended: the last, unfinished batch is handed over unless a stop was
    signalled. *)
Definition flush {L} (onBatch : list Json -> M (World L) JsVal)
    (state : list Json * bool) : M (World L) unit :=
  let '(batch, canEndGlobal) := state in
  if (0 <? length batch) && negb canEndGlobal
  then onBatch batch ;;; ret tt
  else ret tt.

(** The world after [warns] have been written to the console. *)
Definition warned {L} (warns : list string) (w : World L) : World L :=
  mkWorld (fs w) (console w ++ warns) (locals w).

(** ** The copy-rewrite mutations, as plans *)

Inductive Mutation : Type :=
| UpdateWhere (attribute : string) (value : JsVal) (updateFn : Json -> Res JsVal)
| UpdateMatch (matchFn updateFn : Json -> Res JsVal)
| DeleteWhere (attribute : string) (value : JsVal)
| DeleteMatch (matchFn : Json -> Res JsVal).

(** What a mutation asks to be written for one record: a value, nothing, or
    the exception of the caller's function. *)
Definition decision (op : Mutation) (r : Json) : Res (option JsVal) :=
  match op with
  | UpdateWhere attribute value updateFn =>
      match prop_of r attribute with
      | Throw e => Throw e
      | Ok v =>
          if strict_equals v value
          then match updateFn r with Ok x => Ok (Some x) | Throw e => Throw e end
          else Ok (Some (VJson r))
      end
  | UpdateMatch matchFn updateFn =>
      match matchFn r with
      | Throw e => Throw e
      | Ok m =>
          if truthy m
          then match updateFn r with Ok x => Ok (Some x) | Throw e => Throw e end
          else Ok (Some (VJson r))
      end
  | DeleteWhere attribute value =>
      match prop_of r attribute with
      | Throw e => Throw e
      | Ok v => if strict_equals v value then Ok None else Ok (Some (VJson r))
      end
  | DeleteMatch matchFn =>
      match matchFn r with
      | Throw e => Throw e
      | Ok m => if truthy m then Ok None else Ok (Some (VJson r))
      end
  end.

Section Plans.
Context {codec : JsonCodec}.

(** The records a mutation writes to the scratch file, line after line of
    the source, or the first exception on the way: a line that is not
    JSON, the caller's function throwing, or a value that [add] refuses. *)
Fixpoint scratch_plan (decide : Json -> Res (option JsVal)) (lines : list string)
    : Res (list Json) :=
  match lines with
  | [] => Ok []
  | line :: rest =>
      match JSON_parse line with
      | None => Throw (SyntaxError line)
      | Some r =>
          match decide r with
          | Throw e => Throw e
          | Ok None => scratch_plan decide rest
          | Ok (Some (VJson (JObj fields))) =>
              match scratch_plan decide rest with
              | Ok written => Ok (JObj fields :: written)
              | Throw e => Throw e
              end
          | Ok (Some _) => Throw (Err "add() only accepts a single json object")
          end
      end
  end.

(** The text of a file that holds [records], one per line. *)
Definition serialize (records : list Json) : string :=
  join_lines (map JSON_stringify records).

(** The scratch file while [written] has been added to it: absent until
    the first [add]. *)
Definition scratch_put (tmp : string) (written : list Json)
    (files : gmap string string) : gmap string string :=
  match written with
  | [] => files
  | _ :: _ => <[tmp := serialize written]> files
  end.

(** The callback each mutation hands to [read]. *)
Definition onLine_of {L} (op : Mutation) (tmpPath : string)
    : Json -> M (World L) JsVal :=
  match op with
  | UpdateWhere attribute value updateFn =>
      JsonlFile.updateWhere_onLine tmpPath attribute value updateFn
  | UpdateMatch matchFn updateFn =>
      JsonlFile.updateMatch_onLine tmpPath matchFn updateFn
  | DeleteWhere attribute value =>
      JsonlFile.deleteWhere_onLine tmpPath attribute value
  | DeleteMatch matchFn =>
      JsonlFile.deleteMatch_onLine tmpPath matchFn
  end.

(** The copy phase of a mutation: everything before the rename. *)
Definition copy_phase {L} (op : Mutation) (path tmpPath : string)
    : M (World L) unit :=
  JsonlFile.read path (onLine_of op tmpPath).

(** Running a mutation of the engine. *)
Definition mutate {L} (src : TempSource) (path : string) (op : Mutation)
    : M (World L) unit :=
  match op with
  | UpdateWhere attribute value updateFn =>
      JsonlFile.updateWhere src path attribute value updateFn
  | UpdateMatch matchFn updateFn =>
      JsonlFile.updateMatch src path matchFn updateFn
  | DeleteWhere attribute value =>
      JsonlFile.deleteWhere src path attribute value
  | DeleteMatch matchFn =>
      JsonlFile.deleteMatch src path matchFn
  end.

(** The contract of a mutation run with a fresh scratch path [tmp]:
    - the copy phase leaves the source file as it was;
    - if the run fails, the whole file system, and with it the source
      file, is as before;
    - an exception of the caller's predicate or transform on a record the
      copy reaches aborts the run with that exception, nothing changed;
    - if the run succeeds, the scratch file held the text of the records
      written to it, and the source file now holds exactly that text. *)
Definition commit_contract {L} (src : TempSource) (path : string)
    (op : Mutation) (w : World L) : Prop :=
  let tmp := generateTempFilePath src EmptyString in
  let copied := snd (copy_phase op path tmp w) in
  let out := mutate src path op w in
  fs copied !! path = fs w !! path /\
  (forall e, fst out = Throw e -> snd out = w) /\
  (forall content before line after written r e,
      fs w !! path = Some content ->
      rl_lines content = before ++ line :: after ->
      scratch_plan (decision op) before = Ok written ->
      JSON_parse line = Some r ->
      decision op r = Throw e ->
      out = (Throw e, w)) /\
  (fst out = Ok tt ->
   exists content written,
     fs w !! path = Some content /\
     scratch_plan (decision op) (rl_lines content) = Ok written /\
     fs copied !! tmp = Some (serialize written) /\
     fs (snd out) = <[path := serialize written]> (fs w) /\
     console (snd out) = console w /\ locals (snd out) = locals w).
End Plans.

(** ** Contracts of the traversals *)

Section TraversalContracts.
Context {codec : JsonCodec} {U : Type}.

(** A batch traversal of a file of [records] with batch size [k], run with
    any callback [f] (traced, to see its calls): it writes no file, and
    - if [f] never signals a stop on the batches of [chunks k records],
      it completes after calling [f] on every one of them, in order:
      ceil(n/k) calls, the last batch alone possibly smaller;
    - if [f] first signals a stop on the batch [b], it completes after
      calling [f] on the batches up to [b], and on nothing after it. *)
Definition batch_contract
    (traverse : (list Json -> M (World (U * list (list Json))) JsVal) -> Z ->
                M (World (U * list (list Json))) unit)
    (k : nat) (records : list Json) (w : World (U * list (list Json))) : Prop :=
  batching k records (chunks k records) /\
  forall f,
    let u := fst (locals w) in
    let out := traverse (userCb (traced f)) (Z.of_nat k) w in
    fs (snd out) = fs w /\
    (quiet truthy f (chunks k records) u = true ->
     fst out = Ok tt /\
     log_of (snd out) = log_of w ++ chunks k records) /\
    (forall before b after,
        chunks k records = before ++ b :: after ->
        quiet truthy f before u = true ->
        stops truthy f b (replay f before u) = true ->
        fst out = Ok tt /\
        log_of (snd out) = log_of w ++ before ++ [b]).

(** A line traversal of a file of [records] whose callback stops it with
    the answers that [signal] accepts: it writes no file; if the callback
    first signals a stop on the record [r], it completes after calling
    the callback on the records up to [r] and on none after it; and a
    second traversal, run afterwards with a callback that never stops,
    calls it on every record. *)
Definition line_contract (signal : JsVal -> bool)
    (traverse : (Json -> M (World (U * list Json)) JsVal) ->
                M (World (U * list Json)) unit)
    (records : list Json) (w : World (U * list Json)) : Prop :=
  forall f,
    let u := fst (locals w) in
    let out := traverse (userCb (traced f)) w in
    fs (snd out) = fs w /\
    (forall before r after,
        records = before ++ r :: after ->
        quiet signal f before u = true ->
        stops signal f r (replay f before u) = true ->
        fst out = Ok tt /\
        log_of (snd out) = log_of w ++ before ++ [r]) /\
    (forall g,
        quiet signal g records (fst (locals (snd out))) = true ->
        let out2 := traverse (userCb (traced g)) (snd out) in
        fst out2 = Ok tt /\
        log_of (snd out2) = log_of (snd out) ++ records).
End TraversalContracts.

Section SkipContract.
Context {codec : JsonCodec} {A U : Type}.

(** A traversal that passes over the lines that are not JSON.  [items] is
    what the decodable records of the file amount to for the callback
    (the records, or their batches) and [lines] are the lines of the
    file: run with a callback that never stops, the traversal completes,
    the callback has been called on [items] and on nothing else, each
    line that is not blank and not JSON has put one warning on the
    console, and no file has changed. *)
Definition skip_contract
    (traverse : (A -> M (World (U * list A)) JsVal) -> M (World (U * list A)) unit)
    (items : list A) (lines : list string) (w : World (U * list A)) : Prop :=
  forall f,
    quiet truthy f items (fst (locals w)) = true ->
    let out := traverse (userCb (traced f)) w in
    fst out = Ok tt /\
    log_of (snd out) = log_of w ++ items /\
    console (snd out) = console w ++ warnings_of lines /\
    fs (snd out) = fs w.

(** A traversal for which a missing file is an empty file: it completes
    without a call of the callback, the world as it was. *)
Definition reads_missing_as_empty
    (traverse : string -> (A -> M (World U) JsVal) -> M (World U) unit) : Prop :=
  forall path onItem w, fs w !! path = None -> traverse path onItem w = (Ok tt, w).
End SkipContract.

Section FirstLastContract.
Context {codec : JsonCodec} {L : Type}.

(** [first] and [last] as accessors of the decodable records: they fail
    with the empty-file error exactly on a file without decodable record,
    and otherwise return the first and the last decodable record. *)
Definition first_last_contract (first last : string -> M (World L) Json) : Prop :=
  forall path w,
    let records := records_of (fs w) path in
    (fst (first path w) = Throw (Err "File is empty") <-> records = []) /\
    (fst (last path w) = Throw (Err "File is empty") <-> records = []) /\
    (forall r, head records = Some r -> first path w = (Ok r, w)) /\
    (forall r, list.last records = Some r -> last path w = (Ok r, w)).
End FirstLastContract.

(** ** The text of a file and its lines *)

(** A text without a line ending in it: no LF, no CR. *)
Fixpoint plain (s : string) : bool :=
  match s with
  | EmptyString => true
  | String c rest => negb (Ascii.eqb c LF) && negb (Ascii.eqb c CR) && plain rest
  end.

Fixpoint last_char (s : string) : option ascii :=
  match s with
  | EmptyString => None
  | String c EmptyString => Some c
  | String _ rest => last_char rest
  end.

(** The text ends with a line feed, as the files of most tools do. *)
Definition ends_with_LF (s : string) : bool :=
  match last_char s with
  | Some c => Ascii.eqb c LF
  | None => false
  end.

(** The empty line that shows up when a line feed is written after [text]
    (read from the pending line [cur]): there is one when the text already
    ended with a line feed, or when there was no text at all. *)
Definition gap (cur text : string) : list string :=
  match last_char text with
  | Some c => if Ascii.eqb c LF then [EmptyString] else []
  | None => match cur with EmptyString => [EmptyString] | _ => [] end
  end.

(** The text of the file at [path] after [text] has been added to it with
    the prefix of [ensureFileAndGetPrefix]: a line feed, unless the file
    was missing or held nothing. *)
Definition extended (files : gmap string string) (path text : string) : string :=
  match files !! path with
  | None => text
  | Some content =>
      if bool_decide (content = EmptyString) then text
      else content +:+ (newline +:+ text)
  end.

(** The same for the streaming engine, whose [ensure] takes a file of
    blank lines for an empty one: the text is then written right after
    what is there. *)
Definition lib_extended (files : gmap string string) (path text : string) : string :=
  match files !! path with
  | None => text
  | Some content =>
      if Jsonl.isEmptyFile_loop (rl_lines content) then content +:+ text
      else content +:+ (newline +:+ text)
  end.

(** The records that [append(data)] is asked to write: the elements of an
    array, or the value itself. *)
Definition appended (data : Json) : list Json :=
  match data with
  | JArr items => items
  | _ => [data]
  end.

Section Faithful.
Context {codec : JsonCodec}.

(** The codec is faithful on [r]: it prints [r] on one line, the line is
    not blank, and it reads [r] back from it.  [JSON.stringify] and
    [JSON.parse] of the platform are faithful on every object made of
    JSON values. *)
Definition faithful (r : Json) : Prop :=
  plain (JSON_stringify r) = true /\
  trim_is_empty (JSON_stringify r) = false /\
  JSON_parse (JSON_stringify r) = Some r.

(** A file the single-file engine can extend: it is missing, or it holds
    the records [records], one per line, and does not end with a line
    feed.  The files the engine writes are of this kind. *)
Definition appendable (files : gmap string string) (path : string)
    (records : list Json) : Prop :=
  match files !! path with
  | None => records = []
  | Some content =>
      strict_decode (rl_lines content) = Some records /\
      ends_with_LF content = false
  end.

(** A file the streaming engine can extend without gluing a record to
    what is there: it is missing or empty, or it has a line that is not
    blank. *)
Definition extendable (files : gmap string string) (path : string) : Prop :=
  match files !! path with
  | None => True
  | Some content =>
      content = EmptyString \/
      Jsonl.isEmptyFile_loop (rl_lines content) = false
  end.
End Faithful.

(** [line[attribute] === value] as a predicate on the parsed line. *)
Definition where_ (attribute : string) (value : JsVal) (line : Json) : Res JsVal :=
  match prop_of line attribute with
  | Ok v => Ok (VJson (JBool (strict_equals v value)))
  | Throw e => Throw e
  end.

(** The same on an object, where reading a field never throws. *)
Definition matches (attribute : string) (value : JsVal) (line : Json) : bool :=
  match prop_of line attribute with
  | Ok v => strict_equals v value
  | Throw _ => false
  end.

(** The caller's predicate returns on every record of the list. *)
Definition returns_on (matchFn : Json -> Res JsVal) (records : list Json) : Prop :=
  Forall (fun r => exists v, matchFn r = Ok v) records.

(** Whether the caller's predicate holds of a record: it returns a truthy
    value. *)
Definition holds_of (matchFn : Json -> Res JsVal) (r : Json) : bool :=
  match matchFn r with
  | Ok v => truthy v
  | Throw _ => false
  end.

(** [add] run on each record of a list, one call after the other. *)
Definition add_each {codec : JsonCodec} {L} (path : string) (os : list Json)
    : M (World L) unit :=
  foldr (fun o rest => JsonlFile.add path (VJson o) ;;; rest) (ret tt) os.

(** ** The single-file engine on any file *)

Section Reached.
Context {codec : JsonCodec}.

(** What [JSON.parse] gives for a text: the value, or its exception. *)
Definition parsed (text : string) : Res Json :=
  match JSON_parse text with
  | Some r => Ok r
  | None => Throw (SyntaxError text)
  end.

(** The single-file engine gives every line to [JSON.parse] as it is,
    blank or not, one after the other.  [parsed_prefix lines] is what it
    can reach: the records of the lines before the first line that is not
    JSON, and that line, if there is one. *)
Fixpoint parsed_prefix (lines : list string) : list Json * option string :=
  match lines with
  | [] => ([], None)
  | line :: rest =>
      match JSON_parse line with
      | None => ([], Some line)
      | Some r => let '(rs, bad) := parsed_prefix rest in (r :: rs, bad)
      end
  end.

(** How a traversal ends that has gone through every record it can
    reach: at the end of the file, or with the parser's exception on the
    line that is not JSON. *)
Definition ending (bad : option string) : Res unit :=
  match bad with
  | None => Ok tt
  | Some line => Throw (SyntaxError line)
  end.
End Reached.

Section FullBatches.
Context {A : Type}.

(** The batches of size [k] that fill up while [l] is read into the
    buffer [buf]: those of [chunks_from], without the unfinished buffer
    that is left at the end. *)
Fixpoint full_from (k : nat) (buf l : list A) : list (list A) :=
  match l with
  | [] => []
  | x :: rest =>
      if length (buf ++ [x]) =? k
      then (buf ++ [x]) :: full_from k [] rest
      else full_from k (buf ++ [x]) rest
  end.

Definition full_batches (k : nat) (l : list A) : list (list A) := full_from k [] l.

(** [bs] are the full batches of [l]: each of size [k], in order, and
    fewer than [k] items of [l] are left over. *)
Definition full_batching (k : nat) (l : list A) (bs : list (list A)) : Prop :=
  Forall (fun b => length b = k) bs /\
  exists rest, l = concat bs ++ rest /\ length rest < k.
End FullBatches.

Section AnyFileContracts.
Context {codec : JsonCodec} {U : Type}.

(** A line traversal of the single-file engine on a file with the lines
    [lines], run with any callback [f] (traced, to see its calls).  With
    [records] the records it can reach: it writes no file; if [f] first
    answers with a truthy value on the record [r], it completes after
    calling [f] on the records up to [r], and on none after it; and a
    second traversal, run afterwards with a callback that never stops, is
    not affected: it calls the callback on every record it can reach and
    ends as such a traversal does, at the end of a file whose lines are
    all JSON, and with the parser's exception otherwise. *)
Definition js_line_contract
    (traverse : (Json -> M (World (U * list Json)) JsVal) ->
                M (World (U * list Json)) unit)
    (lines : list string) (w : World (U * list Json)) : Prop :=
  forall records bad,
    parsed_prefix lines = (records, bad) ->
    forall f,
      let u := fst (locals w) in
      let out := traverse (userCb (traced f)) w in
      fs (snd out) = fs w /\
      (forall before r after,
          records = before ++ r :: after ->
          quiet truthy f before u = true ->
          stops truthy f r (replay f before u) = true ->
          fst out = Ok tt /\
          log_of (snd out) = log_of w ++ before ++ [r]) /\
      (forall g,
          quiet truthy g records (fst (locals (snd out))) = true ->
          let out2 := traverse (userCb (traced g)) (snd out) in
          fst out2 = ending bad /\
          log_of (snd out2) = log_of (snd out) ++ records).

(** A batch traversal of the single-file engine on a file with the lines
    [lines], with batch size [k].  On a file whose lines are all JSON it
    is the batch traversal of [batch_contract].  On a file with a line
    that is not JSON, with [records] the records before the first such
    line: it writes no file; the callback is only called on the full
    batches of [records]; if it never signals a stop on them, the
    traversal fails with the parser's exception on that line, after
    calling it on every one of them, and the unfinished buffer is never
    handed over; if it first signals a stop on the batch [b], the
    traversal completes after the batches up to [b]. *)
Definition js_batch_contract
    (traverse : (list Json -> M (World (U * list (list Json))) JsVal) -> Z ->
                M (World (U * list (list Json))) unit)
    (k : nat) (lines : list string) (w : World (U * list (list Json))) : Prop :=
  forall records bad,
    parsed_prefix lines = (records, bad) ->
    match bad with
    | None => batch_contract traverse k records w
    | Some line =>
        full_batching k records (full_batches k records) /\
        forall f,
          let u := fst (locals w) in
          let out := traverse (userCb (traced f)) (Z.of_nat k) w in
          fs (snd out) = fs w /\
          (quiet truthy f (full_batches k records) u = true ->
           fst out = Throw (SyntaxError line) /\
           log_of (snd out) = log_of w ++ full_batches k records) /\
          (forall before b after,
              full_batches k records = before ++ b :: after ->
              quiet truthy f before u = true ->
              stops truthy f b (replay f before u) = true ->
              fst out = Ok tt /\
              log_of (snd out) = log_of w ++ before ++ [b])
    end.
End AnyFileContracts.

(** The names that every object inherits from [Object.prototype]: for
    these [line[attribute]] is never [undefined], whatever the fields of
    the line. *)
Definition inherited (attribute : string) : bool :=
  existsb (String.eqb attribute)
    ["constructor"; "toString"; "toLocaleString"; "valueOf";
     "hasOwnProperty"; "isPrototypeOf"; "propertyIsEnumerable"; "__proto__";
     "__defineGetter__"; "__defineSetter__"; "__lookupGetter__";
     "__lookupSetter__"].

(** An object that has the field. *)
Definition object_with (attribute : string) (r : Json) : bool :=
  is_object r && has_field attribute r.

(** An object that does not have the field. *)
Definition object_without (attribute : string) (r : Json) : bool :=
  is_object r && negb (has_field attribute r).

Section MissingFieldContract.
Context {codec : JsonCodec} {L : Type}.

(** [findWhere(attribute, undefined)] as a query on the decodable records
    of any file: it returns the first record that lacks the attribute,
    and [undefined] when there is none. *)
Definition missing_field_contract
    (findWhere : string -> string -> JsVal -> M (World L) (option Json)) : Prop :=
  forall path attribute w,
    findWhere path attribute VUndefined w =
      (Ok (List.find (fun r => negb (has_field attribute r))
             (records_of (fs w) path)), w).
End MissingFieldContract.

(** ** Sample data *)

Module Sample.
Definition alice : Json := JObj [("name", JStr "Alice"); ("age", JNum 25)].
Definition bob : Json := JObj [("name", JStr "Bob"); ("age", JNum 30)].
Definition carol : Json := JObj [("name", JStr "Carol")].

Definition src : TempSource := {| os_tmpdir := "/tmp"; random_hex := "3f9a" |}.

(** A world with one file, [data.jsonl]. *)
Definition world_with {L} (content : string) (l : L) : World L :=
  mkWorld {[ "data.jsonl" := content ]} [] l.

(** Alice, Bob, Carol, one per line. *)
Definition three_records : string :=
  serialize (codec := mini_codec) [alice; bob; carol].

(** A line that is not JSON, then Alice. *)
Definition broken_then_alice : string :=
  "not-json" +:+ newline +:+ MiniJson.stringify alice.

(** The worlds the statements below are run in: the file of the three
    records, or the file with the broken line, and the variables of the
    caller: nothing, or nothing and an empty log. *)
Definition plain_world : World unit := world_with three_records tt.
Definition line_world : World (unit * list Json) :=
  world_with three_records (tt, []).
Definition batch_world : World (unit * list (list Json)) :=
  world_with three_records (tt, []).
Definition broken_world : World unit := world_with broken_then_alice tt.
Definition broken_line_world : World (unit * list Json) :=
  world_with broken_then_alice (tt, []).

(** A callback that answers [v] on every item. *)
Definition always {A} (v : JsVal) : A -> unit -> Res JsVal * unit :=
  fun _ u => (Ok v, u).

(** A callback that throws on every record. *)
Definition boom : Json -> unit -> Res JsVal * unit :=
  fun _ u => (Throw (Err "boom"), u).

(** Two more records. *)
Definition dave : Json := JObj [("name", JStr "Dave"); ("age", JNum 41)].
Definition erin : Json := JObj [("name", JStr "Erin")].

(** More worlds: no file at all; the file [data.jsonl] empty; the three
    records with a line feed after the last; Alice, a line [null], Bob;
    and the three records as the collection [users] of the directory
    [db]. *)
Definition no_file : World unit := mkWorld ∅ [] tt.
Definition empty_world : World unit := world_with EmptyString tt.
Definition newline_world : World unit :=
  world_with (three_records +:+ newline) tt.
Definition null_world : World unit :=
  world_with (serialize (codec := mini_codec) [alice; JNull; bob]) tt.
Definition users_world : World unit :=
  mkWorld {[ "db/users.jsonl" := three_records ]} [] tt.

(** Predicates and an update function of a caller: the record has an
    age; the record is Bob's, with an exception for Carol's; the record
    with one more field. *)
Definition has_age (r : Json) : bool := has_field "age" r.
Definition with_age (r : Json) : Res JsVal := Ok (VJson (JBool (has_age r))).
Definition bob_or_boom (r : Json) : Res JsVal :=
  if matches "name" (VJson (JStr "Carol")) r then Throw (Err "boom")
  else Ok (VJson (JBool (matches "name" (VJson (JStr "Bob")) r))).
Definition retire (r : Json) : Json :=
  match r with
  | JObj fields => JObj (fields ++ [("retired", JBool true)])
  | other => other
  end.

(** Alice, an empty line, Bob; and the worlds with that file. *)
Definition alice_gap_bob : string :=
  MiniJson.stringify alice +:+ newline +:+ newline +:+ MiniJson.stringify bob.
Definition gap_world : World unit := world_with alice_gap_bob tt.
Definition gap_line_world : World (unit * list Json) :=
  world_with alice_gap_bob (tt, []).
Definition gap_batch_world : World (unit * list (list Json)) :=
  world_with alice_gap_bob (tt, []).

(** Carol, a line that is not JSON, Alice. *)
Definition carol_broken_alice : string :=
  MiniJson.stringify carol +:+ newline +:+ "not-json" +:+ newline +:+
  MiniJson.stringify alice.
End Sample.

(** * Basic facts *)

Lemma string_app_nil_l (a : string) : EmptyString +:+ a = a.
Proof. reflexivity. Qed.

Lemma string_app_cons (c : ascii) (a b : string) :
  String c a +:+ b = String c (a +:+ b).
Proof. reflexivity. Qed.

Lemma string_app_assoc (a b c : string) : (a +:+ b) +:+ c = a +:+ (b +:+ c).
Proof.
  induction a as [|ch a IH]; [done |].
  rewrite !string_app_cons. by f_equal.
Qed.

Lemma string_app_nil_r (a : string) : a +:+ EmptyString = a.
Proof.
  induction a as [|ch a IH]; [done |].
  rewrite string_app_cons. by f_equal.
Qed.

Lemma string_app_eq_nil (a b : string) :
  a +:+ b = EmptyString -> a = EmptyString /\ b = EmptyString.
Proof. destruct a; [done | rewrite string_app_cons; discriminate]. Qed.

Lemma rl_scan_nil cur text : rl_scan cur text = [] -> cur = EmptyString /\ text = EmptyString.
Proof.
  revert cur. induction text as [|c rest IH]; intros cur; simpl.
  - destruct cur; [done | discriminate].
  - destruct (Ascii.eqb c LF); [discriminate |].
    destruct (Ascii.eqb c CR).
    + destruct rest as [|c' rest']; [discriminate |].
      destruct (Ascii.eqb c' LF); discriminate.
    + intros H. apply IH in H as [H _].
      apply string_app_eq_nil in H as [_ H]. discriminate.
Qed.

(** A file that is not empty has a first line. *)
Lemma rl_lines_nil text : rl_lines text = [] <-> text = EmptyString.
Proof.
  split.
  - intros H. by apply rl_scan_nil in H as [_ ?].
  - by intros ->.
Qed.

(** * The monad, the file system and [add] *)

Ltac munfold :=
  repeat progress
    (unfold bind, ret, throw, try_catch, try_finally, pureCb, userCb, get_prop,
       get_locals, put_locals, with_locals, access, writeFile, appendFile,
       rename, unlink, console_warn, console_error, getRl, rl_close,
       safePathExists, JSON_parse_or_throw in *).

Lemma set_fs_id {L} (w : World L) : set_fs (fun files => files) w = w.
Proof. by destruct w. Qed.

Lemma world_eq {L} (w w' : World L) :
  fs w = fs w' -> console w = console w' -> locals w = locals w' -> w = w'.
Proof. destruct w, w'; simpl; by intros -> -> ->. Qed.

Section AddFacts.
Context {codec : JsonCodec} {L : Type}.
Implicit Types (w : World L) (path : string).

Lemma safePathExists_spec path w :
  safePathExists path w =
    (Ok (match fs w !! path with Some _ => true | None => false end), w).
Proof. munfold. by destruct (fs w !! path). Qed.

Lemma getRl_spec path w :
  getRl path w =
    (match fs w !! path with
     | Some content => Ok (rl_lines content)
     | None => Throw (ENOENT path)
     end, w).
Proof. unfold getRl. by destruct (fs w !! path). Qed.

Lemma isEmptyFile_spec path w :
  JsonlFile.isEmptyFile path w =
    (Ok (match fs w !! path with
         | Some content => bool_decide (content = EmptyString)
         | None => true
         end), w).
Proof.
  unfold JsonlFile.isEmptyFile, bind.
  rewrite safePathExists_spec. destruct (fs w !! path) as [content|] eqn:Hp; simpl; [|done].
  rewrite getRl_spec, Hp. unfold ret. do 2 f_equal.
  destruct (rl_lines content) eqn:Hl.
  - apply rl_lines_nil in Hl. by rewrite bool_decide_eq_true_2.
  - rewrite bool_decide_eq_false_2; [done |]. intros ->. discriminate.
Qed.

Lemma ensureFileAndGetPrefix_spec path w :
  JsonlFile.ensureFileAndGetPrefix path w =
    match fs w !! path with
    | Some content =>
        (Ok (if bool_decide (content = EmptyString) then EmptyString else newline), w)
    | None =>
        (Ok EmptyString, set_fs (fun files => <[path := EmptyString]> files) w)
    end.
Proof.
  unfold JsonlFile.ensureFileAndGetPrefix, bind.
  rewrite safePathExists_spec. destruct (fs w !! path) as [content|] eqn:Hp; simpl.
  - rewrite isEmptyFile_spec, Hp. done.
  - done.
Qed.

Lemma add_refused path o w :
  isSingleJson o = false ->
  JsonlFile.add path o w =
    (Throw (Err "add() only accepts a single json object"), w).
Proof. intros H. unfold JsonlFile.add. by rewrite H. Qed.

(** The first [add] creates the file with the record as its only line. *)
Lemma add_missing path o w :
  isSingleJson o = true ->
  fs w !! path = None ->
  JsonlFile.add path o w =
    (Ok tt, set_fs (fun files => <[path := JSON_stringify_text o]> files) w).
Proof.
  intros Ho Hp. unfold JsonlFile.add, JsonlFile.addText, bind. rewrite Ho. simpl.
  rewrite ensureFileAndGetPrefix_spec, Hp. unfold appendFile, set_fs. simpl.
  rewrite lookup_insert_eq. simpl. by rewrite insert_insert_eq.
Qed.

(** A later [add] starts a new line. *)
Lemma add_existing path o w content :
  isSingleJson o = true ->
  fs w !! path = Some content ->
  content <> EmptyString ->
  JsonlFile.add path o w =
    (Ok tt,
     set_fs (fun files =>
               <[path := content +:+ (newline +:+ JSON_stringify_text o)]> files) w).
Proof.
  intros Ho Hp Hne. unfold JsonlFile.add, JsonlFile.addText, bind. rewrite Ho. simpl.
  rewrite ensureFileAndGetPrefix_spec, Hp.
  rewrite bool_decide_eq_false_2 by done. unfold appendFile, set_fs.
  by rewrite Hp.
Qed.
End AddFacts.

(** * The copy-rewrite mutations *)

Section Serialize.
Context {codec : JsonCodec}.

Lemma serialize_one r : serialize [r] = JSON_stringify r.
Proof. reflexivity. Qed.

Lemma serialize_cons r r' rs :
  serialize (r :: r' :: rs) =
    JSON_stringify r +:+ (newline +:+ serialize (r' :: rs)).
Proof. reflexivity. Qed.

Lemma serialize_snoc rs r :
  rs <> [] ->
  serialize (rs ++ [r]) = serialize rs +:+ (newline +:+ JSON_stringify r).
Proof.
  induction rs as [|a rs IH]; [done | intros _].
  destruct rs as [|b rs]; [done |].
  change ((a :: b :: rs) ++ [r]) with (a :: (b :: rs) ++ [r]).
  change ((b :: rs) ++ [r]) with (b :: rs ++ [r]) at 1.
  rewrite (serialize_cons a b (rs ++ [r])).
  change (b :: rs ++ [r]) with ((b :: rs) ++ [r]).
  rewrite IH by done. rewrite serialize_cons.
  by rewrite !string_app_assoc.
Qed.

(** Objects never print as the empty text, so neither does a file of
    them. *)
Lemma serialize_nonempty rs :
  rs <> [] -> Forall (fun r => is_object r = true) rs ->
  serialize rs <> EmptyString.
Proof.
  destruct rs as [|r rs]; [done |]. intros _ Hall.
  apply Forall_cons in Hall as [Hr _].
  destruct r; try discriminate.
  destruct rs as [|r' rs].
  - rewrite serialize_one. apply JSON_stringify_object.
  - rewrite serialize_cons. intros H.
    apply string_app_eq_nil in H as [H _].
    by apply JSON_stringify_object in H.
Qed.
End Serialize.

Section CopyRewrite.
Context {codec : JsonCodec} {L : Type}.
Implicit Types (w : World L) (op : Mutation) (path tmp : string).

(** Each of the four callbacks decides, then adds. *)
Lemma onLine_of_spec op tmp r w :
  onLine_of op tmp r w =
    match decision op r with
    | Throw e => (Throw e, w)
    | Ok None => (Ok VUndefined, w)
    | Ok (Some v) => (JsonlFile.add tmp v ;;; ret VUndefined) w
    end.
Proof.
  destruct op; simpl;
    unfold JsonlFile.updateWhere_onLine, JsonlFile.updateMatch_onLine,
      JsonlFile.deleteWhere_onLine, JsonlFile.deleteMatch_onLine,
      bind, get_prop, pureCb, ret.
  - destruct (prop_of r attribute) as [v|e]; [|done].
    destruct (strict_equals v value); [|done].
    by destruct (updateFn r).
  - destruct (matchFn r) as [m|e]; [|done].
    destruct (truthy m); [|done].
    by destruct (updateFn r).
  - destruct (prop_of r attribute) as [v|e]; [|done].
    by destruct (strict_equals v value).
  - destruct (matchFn r) as [m|e]; [|done].
    by destruct (truthy m).
Qed.

Lemma scratch_put_lookup tmp written files :
  files !! tmp = None ->
  scratch_put tmp written files !! tmp =
    match written with [] => None | _ :: _ => Some (serialize written) end.
Proof.
  intros H. destruct written; [done |]. simpl. by rewrite lookup_insert_eq.
Qed.

Lemma scratch_put_other tmp written files path :
  path <> tmp -> scratch_put tmp written files !! path = files !! path.
Proof. intros H. destruct written; [done |]. simpl. by rewrite lookup_insert_ne. Qed.

Lemma scratch_put_put tmp written written' files :
  written' <> [] ->
  <[tmp := serialize written']> (scratch_put tmp written files) =
    scratch_put tmp written' files.
Proof.
  intros H. destruct written' as [|a l]; [done |].
  destruct written; [done |]. simpl. by rewrite insert_insert_eq.
Qed.

(** One [add] to the scratch file that holds [written]. *)
Lemma add_scratch tmp written fields w0 :
  fs w0 !! tmp = None ->
  Forall (fun r => is_object r = true) written ->
  JsonlFile.add tmp (VJson (JObj fields)) (set_fs (scratch_put tmp written) w0) =
    (Ok tt, set_fs (scratch_put tmp (written ++ [JObj fields])) w0).
Proof.
  intros Hfresh Hall.
  destruct written as [|a l] eqn:Hw.
  - rewrite add_missing by done. done.
  - rewrite <- Hw in *.
    assert (written <> []) as Hne by (by rewrite Hw).
    erewrite add_existing; [| done | |].
    + f_equal. unfold set_fs. simpl. f_equal.
      rewrite <- serialize_snoc by done.
      apply scratch_put_put. by destruct written.
    + simpl. rewrite scratch_put_lookup by done. rewrite Hw. by rewrite <- Hw.
    + by apply serialize_nonempty.
Qed.

Lemma read_loop_cons (onLine : Json -> M (World L) JsVal) line rest w :
  JsonlFile.read_loop onLine (line :: rest) w =
    match JSON_parse line with
    | None => (Throw (SyntaxError line), w)
    | Some r =>
        match onLine r w with
        | (Ok v, w') =>
            if truthy v then (Ok tt, w') else JsonlFile.read_loop onLine rest w'
        | (Throw e, w') => (Throw e, w')
        end
    end.
Proof.
  simpl. unfold bind, JSON_parse_or_throw, ret, throw.
  destruct (JSON_parse line) as [r|]; [|done].
  destruct (onLine r w) as [[v|e] w']; [|done].
  by destruct (truthy v).
Qed.

(** One turn of the copy loop. *)
Lemma read_loop_copy_cons op tmp line rest written0 w0 :
  fs w0 !! tmp = None ->
  Forall (fun r => is_object r = true) written0 ->
  let W := set_fs (scratch_put tmp written0) w0 in
  JsonlFile.read_loop (onLine_of op tmp) (line :: rest) W =
    match JSON_parse line with
    | None => (Throw (SyntaxError line), W)
    | Some r =>
        match decision op r with
        | Throw e => (Throw e, W)
        | Ok None => JsonlFile.read_loop (onLine_of op tmp) rest W
        | Ok (Some (VJson (JObj fields))) =>
            JsonlFile.read_loop (onLine_of op tmp) rest
              (set_fs (scratch_put tmp (written0 ++ [JObj fields])) w0)
        | Ok (Some _) =>
            (Throw (Err "add() only accepts a single json object"), W)
        end
    end.
Proof.
  intros Hfresh Hall W. rewrite read_loop_cons.
  destruct (JSON_parse line) as [r|]; [|done].
  rewrite onLine_of_spec.
  destruct (decision op r) as [[v|]|e]; [|done..].
  unfold bind.
  destruct v as [|j]; [by rewrite add_refused |].
  destruct j as [| | | | |fields]; try (by rewrite add_refused).
  unfold W. by rewrite add_scratch.
Qed.

(** The copy loop follows the plan: the scratch file collects what the
    plan writes, and nothing else changes. *)
Lemma read_loop_plan op tmp lines written0 w0 :
  fs w0 !! tmp = None ->
  Forall (fun r => is_object r = true) written0 ->
  match scratch_plan (decision op) lines with
  | Ok written =>
      Forall (fun r => is_object r = true) written /\
      JsonlFile.read_loop (onLine_of op tmp) lines
          (set_fs (scratch_put tmp written0) w0) =
        (Ok tt, set_fs (scratch_put tmp (written0 ++ written)) w0)
  | Throw e =>
      exists written,
        JsonlFile.read_loop (onLine_of op tmp) lines
            (set_fs (scratch_put tmp written0) w0) =
          (Throw e, set_fs (scratch_put tmp written) w0)
  end.
Proof.
  intros Hfresh. revert written0.
  induction lines as [|line rest IH]; intros written0 Hall.
  { simpl. split; [constructor |]. by rewrite app_nil_r. }
  rewrite read_loop_copy_cons by done. cbn [scratch_plan].
  destruct (JSON_parse line) as [r|]; [|by exists written0].
  destruct (decision op r) as [[v|]|e]; [| |by exists written0].
  - destruct v as [|j]; [by exists written0 |].
    destruct j as [| | | | |fields]; try (by exists written0).
    assert (Forall (fun r => is_object r = true) (written0 ++ [JObj fields]))
      as Hall' by (apply Forall_app; split; [done | by constructor]).
    specialize (IH _ Hall').
    destruct (scratch_plan (decision op) rest) as [written|e]; [|done].
    destruct IH as [Hw IH]. split; [by constructor |].
    rewrite IH. by rewrite <- app_assoc.
  - by apply IH.
Qed.

Lemma unlink_cleanup tmp w :
  try_catch (unlink tmp)
    (fun err =>
       match err with
       | ENOENT _ => ret tt
       | _ => console_error ("Failed to delete temporary file: " +:+ tmp)
       end) w =
    (Ok tt, set_fs (fun files => delete tmp files) w).
Proof.
  unfold try_catch, unlink. destruct (fs w !! tmp) eqn:H; [done |].
  unfold ret. f_equal. apply world_eq; try done. simpl.
  by rewrite delete_id.
Qed.

(** The helper runs the task and leaves no file at the scratch path. *)
Lemma temporaryFileTask_spec {A} src (task : string -> M (World L) A) w :
  temporaryFileTask src task w =
    let tmp := generateTempFilePath src EmptyString in
    (fst (task tmp w), set_fs (fun files => delete tmp files) (snd (task tmp w))).
Proof.
  unfold temporaryFileTask, try_finally. cbv zeta.
  destruct (task _ w) as [r w1]. by rewrite unlink_cleanup.
Qed.

Lemma copy_phase_spec op path tmp w :
  fs w !! tmp = None ->
  match fs w !! path with
  | None => copy_phase op path tmp w = (Throw (ENOENT path), w)
  | Some content =>
      match scratch_plan (decision op) (rl_lines content) with
      | Ok written =>
          copy_phase op path tmp w = (Ok tt, set_fs (scratch_put tmp written) w)
      | Throw e =>
          exists written,
            copy_phase op path tmp w = (Throw e, set_fs (scratch_put tmp written) w)
      end
  end.
Proof.
  intros Hfresh. unfold copy_phase, JsonlFile.read, bind. rewrite getRl_spec.
  destruct (fs w !! path) as [content|]; [|done].
  pose proof (read_loop_plan op tmp (rl_lines content) [] w Hfresh (List.Forall_nil _)) as H.
  change (set_fs (scratch_put tmp []) w) with (set_fs (fun files => files) w) in H.
  rewrite set_fs_id in H.
  destruct (scratch_plan (decision op) (rl_lines content)) as [written|e].
  - by destruct H as [_ ->].
  - done.
Qed.

(** What a mutation does, in full. *)
Lemma mutate_spec src path op w :
  let tmp := generateTempFilePath src EmptyString in
  fs w !! tmp = None ->
  mutate src path op w =
    match fs w !! path with
    | None => (Throw (ENOENT path), w)
    | Some content =>
        match scratch_plan (decision op) (rl_lines content) with
        | Throw e => (Throw e, w)
        | Ok [] => (Throw (ENOENT tmp), w)
        | Ok (r :: rs) =>
            (Ok tt, set_fs (fun files => <[path := serialize (r :: rs)]> files) w)
        end
    end.
Proof.
  intros tmp Hfresh.
  assert (mutate src path op w =
          temporaryFileTask src
            (fun tmpPath => copy_phase op path tmpPath ;;; rename tmpPath path) w)
    as -> by (by destruct op).
  rewrite temporaryFileTask_spec. cbv zeta. fold tmp.
  pose proof (copy_phase_spec op path tmp w Hfresh) as H.
  unfold bind at 1 2.
  destruct (fs w !! path) as [content|] eqn:Hpath.
  2: { rewrite H. simpl. f_equal. apply world_eq; try done. simpl.
       by rewrite delete_id. }
  assert (path <> tmp) as Hne by (intros ->; congruence).
  destruct (scratch_plan (decision op) (rl_lines content)) as [written|e].
  - rewrite H. unfold rename. simpl.
    rewrite scratch_put_lookup by done.
    destruct written as [|r rs]; simpl.
    + f_equal. apply world_eq; try done. simpl. by rewrite delete_id.
    + f_equal. apply world_eq; try done. simpl.
      rewrite delete_insert_id by done.
      rewrite delete_insert_ne by done. by rewrite delete_id.
  - destruct H as [written ->]. simpl. f_equal. apply world_eq; try done. simpl.
    destruct written; simpl; [by rewrite delete_id |].
    by rewrite delete_insert_id.
Qed.

Lemma scratch_plan_app decide before rest :
  scratch_plan decide (before ++ rest) =
    match scratch_plan decide before with
    | Ok written =>
        match scratch_plan decide rest with
        | Ok written' => Ok (written ++ written')
        | Throw e => Throw e
        end
    | Throw e => Throw e
    end.
Proof.
  induction before as [|line before IH]; simpl.
  { by destruct (scratch_plan decide rest). }
  destruct (JSON_parse line) as [r|]; [|done].
  destruct (decide r) as [[[|j]|]|e]; try done.
  - destruct j; try done. rewrite IH.
    destruct (scratch_plan decide before); [|done].
    by destruct (scratch_plan decide rest).
Qed.

(** C1. For each of the four mutations, run with a fresh scratch path:
    the copy phase leaves the source file as it was; a run that fails, in
    particular because the predicate or the update function throws,
    leaves the file system as it was; and a run that succeeds puts in the
    source file exactly the records written to the scratch file.  The
    rename is the only step that changes the source. *)
Theorem mutation_commits_by_rename src path op w :
  fs w !! generateTempFilePath src EmptyString = None ->
  commit_contract src path op w.
Proof.
  intros Hfresh. unfold commit_contract. cbv zeta.
  set (tmp := generateTempFilePath src EmptyString) in *.
  pose proof (mutate_spec src path op w Hfresh) as Hm. cbv zeta in Hm. fold tmp in Hm.
  pose proof (copy_phase_spec op path tmp w Hfresh) as Hc.
  split; [|split; [|split]].
  - destruct (fs w !! path) as [content|] eqn:Hpath.
    + assert (path <> tmp) as Hne by (intros ->; congruence).
      destruct (scratch_plan (decision op) (rl_lines content)) as [written|e].
      * rewrite Hc. simpl. by rewrite scratch_put_other.
      * destruct Hc as [written ->]. simpl. by rewrite scratch_put_other.
    + rewrite Hc. done.
  - intros e. rewrite Hm.
    destruct (fs w !! path) as [content|]; [|done].
    destruct (scratch_plan (decision op) (rl_lines content)) as [[|r rs]|e']; done.
  - intros content before line after written r e Hpath Hlines Hbefore Hparse Hdec.
    rewrite Hm, Hpath, Hlines, scratch_plan_app, Hbefore. simpl.
    by rewrite Hparse, Hdec.
  - rewrite Hm.
    destruct (fs w !! path) as [content|] eqn:Hpath; [|done].
    assert (path <> tmp) as Hne by (intros ->; congruence).
    destruct (scratch_plan (decision op) (rl_lines content))
      as [[|r rs]|e'] eqn:Hplan; try done.
    intros _. exists content, (r :: rs). rewrite Hc. simpl.
    by rewrite lookup_insert_eq.
Qed.
End CopyRewrite.

(** * Deliveries and batches *)

Section DeliveryFacts.
Context {A U : Type}.
Implicit Types (f : A -> U -> Res JsVal * U) (signal : JsVal -> bool).

Lemma replay_cons f a items u :
  replay f (a :: items) u = replay f items (snd (f a u)).
Proof. reflexivity. Qed.

Lemma replay_app f items items' u :
  replay f (items ++ items') u = replay f items' (replay f items u).
Proof. unfold replay. by rewrite fold_left_app. Qed.

Lemma quiet_cons signal f a items u :
  quiet signal f (a :: items) u = true ->
  exists v, f a u = (Ok v, snd (f a u)) /\ signal v = false /\
            quiet signal f items (snd (f a u)) = true.
Proof.
  simpl. destruct (f a u) as [[v|e] u']; simpl; [|done].
  intros [Hv Hq]%andb_true_iff. exists v.
  by apply negb_true_iff in Hv.
Qed.

Lemma stops_eq signal f a u :
  stops signal f a u = true ->
  exists v, f a u = (Ok v, snd (f a u)) /\ signal v = true.
Proof.
  unfold stops. destruct (f a u) as [[v|e] u']; simpl; [|done].
  intros Hv. by exists v.
Qed.

(** A callback that always returns, and never a stop signal, is quiet on
    every list. *)
Lemma quiet_always signal f items u :
  (forall a u, exists v, fst (f a u) = Ok v /\ signal v = false) ->
  quiet signal f items u = true.
Proof.
  intros H. revert u. induction items as [|a items IH]; intros u; simpl; [done |].
  destruct (H a u) as (v & -> & ->). simpl. apply IH.
Qed.

Lemma quiet_weaken signal signal' f items u :
  (forall v, signal' v = true -> signal v = true) ->
  quiet signal f items u = true -> quiet signal' f items u = true.
Proof.
  intros Himp. revert u. induction items as [|a items IH]; intros u; simpl; [done |].
  destruct (fst (f a u)) as [v|e]; [|done].
  intros [Hv Hq]%andb_true_iff. apply andb_true_iff. split; [|by apply IH].
  apply negb_true_iff. apply negb_true_iff in Hv.
  destruct (signal' v) eqn:E; [|done]. apply Himp in E. congruence.
Qed.

Lemma hand_over_app_quiet signal f before rest u :
  quiet signal f before u = true ->
  hand_over signal f (before ++ rest) u =
    hand_over signal f rest (replay f before u).
Proof.
  revert u. induction before as [|a before IH]; intros u Hq; [done |].
  apply quiet_cons in Hq as (v & Hf & Hv & Hq).
  simpl app. cbn [hand_over]. rewrite Hf, Hv, replay_cons. by apply IH.
Qed.

Lemma hand_over_quiet signal f items u :
  quiet signal f items u = true ->
  hand_over signal f items u = (Ok tt, replay f items u).
Proof.
  intros Hq. rewrite <- (app_nil_r items) at 1.
  by rewrite hand_over_app_quiet.
Qed.

Lemma hand_over_stop signal f before a after u :
  quiet signal f before u = true ->
  stops signal f a (replay f before u) = true ->
  hand_over signal f (before ++ a :: after) u =
    (Ok tt, replay f (before ++ [a]) u).
Proof.
  intros Hq Hs. rewrite hand_over_app_quiet by done.
  apply stops_eq in Hs as (v & Hf & Hv).
  cbn [hand_over]. rewrite Hf, Hv. by rewrite replay_app.
Qed.

Lemma hand_over_throw signal f before a after u e :
  quiet signal f before u = true ->
  fst (f a (replay f before u)) = Throw e ->
  hand_over signal f (before ++ a :: after) u =
    (Throw e, replay f (before ++ [a]) u).
Proof.
  intros Hq He. rewrite hand_over_app_quiet by done.
  cbn [hand_over]. rewrite replay_app.
  destruct (f a (replay f before u)) as [r u'] eqn:Hf. simpl in He. subst r.
  unfold replay at 1. simpl. by rewrite Hf.
Qed.

Lemma lenient_app_quiet signal f before rest u :
  quiet signal f before u = true ->
  hand_over_lenient signal f (before ++ rest) u =
    hand_over_lenient signal f rest (replay f before u).
Proof.
  revert u. induction before as [|a before IH]; intros u Hq; [done |].
  apply quiet_cons in Hq as (v & Hf & Hv & Hq).
  simpl app. cbn [hand_over_lenient]. rewrite Hf, Hv, replay_cons. by apply IH.
Qed.

Lemma lenient_quiet signal f items u :
  quiet signal f items u = true ->
  hand_over_lenient signal f items u = replay f items u.
Proof.
  intros Hq. rewrite <- (app_nil_r items) at 1.
  by rewrite lenient_app_quiet.
Qed.

Lemma lenient_stop signal f before a after u :
  quiet signal f before u = true ->
  stops signal f a (replay f before u) = true ->
  hand_over_lenient signal f (before ++ a :: after) u =
    replay f (before ++ [a]) u.
Proof.
  intros Hq Hs. rewrite lenient_app_quiet by done.
  apply stops_eq in Hs as (v & Hf & Hv).
  cbn [hand_over_lenient]. rewrite Hf, Hv. by rewrite replay_app.
Qed.

End DeliveryFacts.

Section TracedFacts.
Context {A U : Type}.
Implicit Types (f : A -> U -> Res JsVal * U) (signal : JsVal -> bool).

Lemma traced_fst f a u log : fst (traced f a (u, log)) = fst (f a u).
Proof. unfold traced. simpl. by destruct (f a u). Qed.

Lemma traced_snd f a u log :
  snd (traced f a (u, log)) = (snd (f a u), log ++ [a]).
Proof. unfold traced. simpl. by destruct (f a u). Qed.

Lemma replay_traced f items u log :
  replay (traced f) items (u, log) = (replay f items u, log ++ items).
Proof.
  revert u log. induction items as [|a items IH]; intros u log.
  - simpl. by rewrite app_nil_r.
  - rewrite (replay_cons (traced f)), (replay_cons f), traced_snd, IH.
  by rewrite <- app_assoc.
Qed.

Lemma quiet_traced signal f items u log :
  quiet signal (traced f) items (u, log) = quiet signal f items u.
Proof.
  revert u log. induction items as [|a items IH]; intros u log; [done |].
  cbn [quiet]. rewrite traced_fst, traced_snd. by rewrite IH.
Qed.

Lemma stops_traced signal f a u log :
  stops signal (traced f) a (u, log) = stops signal f a u.
Proof. unfold stops. by rewrite traced_fst. Qed.
End TracedFacts.

Section BatchFacts.
Context {A : Type}.
Implicit Types (k : nat) (buf l : list A).

Lemma chunks_from_concat k buf l : concat (chunks_from k buf l) = buf ++ l.
Proof.
  revert buf. induction l as [|x l IH]; intros buf; simpl.
  - destruct buf; simpl; [done | by rewrite !app_nil_r].
  - destruct (length (buf ++ [x]) =? k); simpl; rewrite IH; simpl;
      by rewrite <- app_assoc.
Qed.

Lemma chunks_from_length k buf l :
  0 < k -> length buf < k ->
  length (chunks_from k buf l) = (length buf + length l + k - 1) / k.
Proof.
  intros Hk. revert buf. induction l as [|x l IH]; intros buf Hbuf; simpl.
  - destruct buf as [|b buf]; simpl in *.
    + symmetry. apply Nat.div_small. lia.
    + apply (Nat.div_unique _ _ 1 (length buf)); lia.
  - rewrite length_app. simpl.
    destruct (length buf + 1 =? k) eqn:Hfull.
    + apply Nat.eqb_eq in Hfull. simpl. rewrite IH by (simpl; lia). simpl.
      replace (length buf + S (length l) + k - 1) with (1 * k + (length l + k - 1)) by lia.
      rewrite Nat.div_add_l by lia. done.
    + apply Nat.eqb_neq in Hfull. rewrite IH by (rewrite length_app; simpl; lia).
      rewrite length_app. simpl. f_equal. lia.
Qed.

Lemma chunks_from_sizes k buf l :
  0 < k -> length buf < k ->
  forall i b, chunks_from k buf l !! i = Some b ->
    0 < length b <= k /\ (S i < length (chunks_from k buf l) -> length b = k).
Proof.
  intros Hk. revert buf. induction l as [|x l IH]; intros buf Hbuf i b; simpl.
  - destruct buf as [|a buf]; [done |].
    destruct i; simpl; [|done]. intros [= <-]. simpl in *. lia.
  - rewrite length_app. simpl.
    destruct (length buf + 1 =? k) eqn:Hfull.
    + apply Nat.eqb_eq in Hfull. destruct i; simpl.
      * intros [= <-]. rewrite length_app. simpl. lia.
      * intros Hb. apply IH in Hb; [|simpl; lia]. destruct Hb as [? Hb].
        split; [done |]. intros ?. apply Hb. lia.
    + apply Nat.eqb_neq in Hfull. intros Hb.
      apply IH in Hb; [done |]. rewrite length_app. simpl. lia.
Qed.

(** [chunks] cuts a list into ceil(n/k) batches of size [k], the last one
    possibly smaller, which concatenate to the list. *)
Lemma chunks_batching k l : 0 < k -> batching k l (chunks k l).
Proof.
  intros Hk. unfold batching, chunks. split; [|split; [|split]].
  - by rewrite chunks_from_concat.
  - rewrite chunks_from_length by (simpl; lia). done.
  - intros i b Hb Hi. by eapply (chunks_from_sizes k [] l) in Hb as [_ Hb]; [apply Hb | | simpl; lia].
  - intros b Hlast Hne.
    destruct (chunks_from k [] l) as [|c cs] eqn:Hc using rev_ind; [done |].
    rewrite List.last_last in Hlast. subst c.
    assert (chunks_from k [] l !! length cs = Some b) as Hb.
    { rewrite Hc. by rewrite list_lookup_middle. }
    by eapply (chunks_from_sizes k [] l) in Hb as [Hb _]; [ | | simpl; lia].
Qed.
End BatchFacts.

(** * Traversals of the single-file engine *)

Lemma set_locals_id {L} (w : World L) : set_locals (locals w) w = w.
Proof. by destruct w. Qed.

Lemma Z_of_nat_eqb (a b : nat) : (Z.of_nat a =? Z.of_nat b)%Z = (a =? b).
Proof.
  destruct (Nat.eqb_spec a b) as [->|Hne].
  - apply Z.eqb_refl.
  - apply Z.eqb_neq. lia.
Qed.

Section JsTraversal.
Context {codec : JsonCodec} {U : Type}.
Implicit Types (w : World U) (path : string).

Lemma strict_decode_cons line rest records :
  strict_decode (line :: rest) = Some records ->
  exists r rs,
    records = r :: rs /\ trim_is_empty line = false /\
    JSON_parse line = Some r /\ strict_decode rest = Some rs.
Proof.
  simpl. unfold decode_line.
  destruct (trim_is_empty line); [done |].
  destruct (JSON_parse line) as [r|]; [|done].
  destruct (strict_decode rest) as [rs|]; [|done].
  intros [= <-]. by exists r, rs.
Qed.

Lemma strict_decode_app before rest records :
  strict_decode (before ++ rest) = Some records ->
  exists rs1 rs2,
    records = rs1 ++ rs2 /\ strict_decode before = Some rs1 /\
    strict_decode rest = Some rs2.
Proof.
  revert records. induction before as [|line before IH]; intros records H.
  - by exists [], records.
  - simpl app in H. apply strict_decode_cons in H as (r & rs & -> & Hne & Hp & H).
    apply IH in H as (rs1 & rs2 & -> & H1 & H2).
    exists (r :: rs1), rs2. split; [done |]. split; [|done].
    simpl. unfold decode_line. by rewrite Hne, Hp, H1.
Qed.

(** [read] on a file of records hands them over to the callback, in
    order, until it answers with a truthy value or throws. *)
Lemma js_read_loop_spec (f : Json -> U -> Res JsVal * U) lines records w :
  strict_decode lines = Some records ->
  JsonlFile.read_loop (userCb f) lines w =
    (fst (hand_over truthy f records (locals w)),
     set_locals (snd (hand_over truthy f records (locals w))) w).
Proof.
  revert records w.
  induction lines as [|line rest IH]; intros records w Hdec.
  - injection Hdec as <-. simpl. unfold ret. by rewrite set_locals_id.
  - apply strict_decode_cons in Hdec as (r & rs & -> & _ & Hparse & Hrest).
    rewrite read_loop_cons, Hparse. unfold userCb at 1. cbn [hand_over].
    destruct (f r (locals w)) as [[v|e] u']; [|done].
    destruct (truthy v); [done |].
    by rewrite (IH rs).
Qed.

Lemma js_read_spec (f : Json -> U -> Res JsVal * U) path records w :
  file_records (fs w) path = Some records ->
  JsonlFile.read path (userCb f) w =
    (fst (hand_over truthy f records (locals w)),
     set_locals (snd (hand_over truthy f records (locals w))) w).
Proof.
  intros Hrec. unfold file_records in Hrec.
  unfold JsonlFile.read, bind. rewrite getRl_spec.
  destruct (fs w !! path) as [content|]; [|done].
  by apply js_read_loop_spec.
Qed.

(** [read] stops with the parser's exception at the first line that is
    not JSON, after the records before it. *)
Lemma js_read_loop_malformed (f : Json -> U -> Res JsVal * U)
    before bad after records w :
  strict_decode before = Some records ->
  quiet truthy f records (locals w) = true ->
  JSON_parse bad = None ->
  JsonlFile.read_loop (userCb f) (before ++ bad :: after) w =
    (Throw (SyntaxError bad), set_locals (replay f records (locals w)) w).
Proof.
  revert records w.
  induction before as [|line rest IH]; intros records w Hdec Hq Hbad.
  - injection Hdec as <-. simpl app. rewrite read_loop_cons, Hbad.
    simpl. by rewrite set_locals_id.
  - apply strict_decode_cons in Hdec as (r & rs & -> & _ & Hparse & Hrest).
    apply quiet_cons in Hq as (v & Hf & Hv & Hq).
    simpl app. rewrite read_loop_cons, Hparse. unfold userCb at 1.
    rewrite Hf, Hv. by rewrite (IH rs).
Qed.

Lemma readByBatch_loop_cons (onBatch : list Json -> M (World U) JsVal)
    batchSize line rest batch w :
  JsonlFile.readByBatch_loop onBatch batchSize (line :: rest) batch w =
    match JSON_parse line with
    | None => (Throw (SyntaxError line), w)
    | Some r =>
        if (Z.of_nat (length (batch ++ [r])) =? batchSize)%Z then
          match onBatch (batch ++ [r]) w with
          | (Ok v, w') =>
              if truthy v then (Ok (batch ++ [r], true), w')
              else JsonlFile.readByBatch_loop onBatch batchSize rest [] w'
          | (Throw e, w') => (Throw e, w')
          end
        else JsonlFile.readByBatch_loop onBatch batchSize rest (batch ++ [r]) w
    end.
Proof.
  simpl. unfold bind, JSON_parse_or_throw, ret, throw.
  destruct (JSON_parse line) as [r|]; [|done].
  destruct (_ =? _)%Z; [|done].
  destruct (onBatch (batch ++ [r]) w) as [[v|e] w']; [|done].
  by destruct (truthy v).
Qed.

(** [readByBatch] on a file of records hands their batches over to the
    callback. *)
Lemma js_readByBatch_loop_spec (f : list Json -> U -> Res JsVal * U)
    k lines records buf w :
  0 < k -> length buf < k ->
  strict_decode lines = Some records ->
  (state <- JsonlFile.readByBatch_loop (userCb f) (Z.of_nat k) lines buf ;;
   flush (userCb f) state) w =
    (fst (hand_over truthy f (chunks_from k buf records) (locals w)),
     set_locals
       (snd (hand_over truthy f (chunks_from k buf records) (locals w))) w).
Proof.
  intros Hk. revert records buf w.
  induction lines as [|line rest IH]; intros records buf w Hbuf Hdec.
  - injection Hdec as <-. unfold bind. simpl.
    destruct buf as [|b buf]; simpl.
    + unfold ret. by rewrite set_locals_id.
    + unfold bind, ret, userCb.
      destruct (f (b :: buf) (locals w)) as [[v|e] u']; [|done].
      by destruct (truthy v).
  - apply strict_decode_cons in Hdec as (r & rs & -> & _ & Hparse & Hrest).
    unfold bind at 1. rewrite readByBatch_loop_cons, Hparse, Z_of_nat_eqb.
    cbn [chunks_from].
    destruct (length (buf ++ [r]) =? k) eqn:Hfull.
    + unfold userCb at 1. cbn [hand_over].
      destruct (f (buf ++ [r]) (locals w)) as [[v|e] u']; [|done].
      destruct (truthy v).
      * simpl. by rewrite andb_false_r.
      * specialize (IH rs [] (set_locals u' w)).
        unfold bind at 1 in IH. rewrite IH; [done | simpl; lia | done].
    + apply Nat.eqb_neq in Hfull.
      specialize (IH rs (buf ++ [r]) w). unfold bind at 1 in IH.
      rewrite IH; [done | | done].
      rewrite length_app in *. simpl in *. lia.
Qed.

Lemma js_readByBatch_spec (f : list Json -> U -> Res JsVal * U)
    k path records w :
  0 < k ->
  file_records (fs w) path = Some records ->
  JsonlFile.readByBatch path (userCb f) (Z.of_nat k) w =
    (fst (hand_over truthy f (chunks k records) (locals w)),
     set_locals (snd (hand_over truthy f (chunks k records) (locals w))) w).
Proof.
  intros Hk Hrec. unfold file_records in Hrec.
  unfold JsonlFile.readByBatch. unfold bind at 1. rewrite getRl_spec.
  destruct (fs w !! path) as [content|]; [|done].
  by apply (js_readByBatch_loop_spec f k (rl_lines content) records []).
Qed.
End JsTraversal.

(** ** On any file *)

Section FullBatchFacts.
Context {A : Type}.
Implicit Types (k : nat) (buf l : list A).

Lemma full_from_batching k buf l :
  0 < k -> length buf < k ->
  Forall (fun b => length b = k) (full_from k buf l) /\
  exists rest, buf ++ l = concat (full_from k buf l) ++ rest /\ length rest < k.
Proof.
  intros Hk. revert buf. induction l as [|x l IH]; intros buf Hbuf; simpl.
  - split; [constructor |]. exists buf. by rewrite app_nil_r.
  - destruct (length (buf ++ [x]) =? k) eqn:Hfull.
    + apply Nat.eqb_eq in Hfull.
      destruct (IH []) as [Hall (rest & Hrest & Hlen)]; [simpl; lia |].
      split; [by constructor |]. exists rest. split; [|done].
      simpl in Hrest. simpl. rewrite <- !app_assoc. simpl. by rewrite <- Hrest.
    + apply Nat.eqb_neq in Hfull.
      destruct (IH (buf ++ [x])) as [Hall (rest & Hrest & Hlen)].
      { rewrite length_app in *. simpl in *. lia. }
      split; [done |]. exists rest. split; [|done].
      rewrite <- Hrest, <- app_assoc. done.
Qed.

Lemma full_batches_batching k l :
  0 < k -> full_batching k l (full_batches k l).
Proof.
  intros Hk. destruct (full_from_batching k [] l) as [? ?]; [done | simpl; lia |].
  by split.
Qed.
End FullBatchFacts.

Section JsAnyFile.
Context {codec : JsonCodec} {U : Type}.
Implicit Types (w : World U) (path : string).

Lemma parsed_prefix_cons line rest records bad :
  parsed_prefix (line :: rest) = (records, bad) ->
  match JSON_parse line with
  | None => records = [] /\ bad = Some line
  | Some r => exists rs, records = r :: rs /\ parsed_prefix rest = (rs, bad)
  end.
Proof.
  simpl. destruct (JSON_parse line) as [r|].
  - destruct (parsed_prefix rest) as [rs b]. intros [= <- <-]. by exists rs.
  - by intros [= <- <-].
Qed.

(** A file whose lines are all records is reached to its end. *)
Lemma strict_decode_prefix lines records :
  strict_decode lines = Some records -> parsed_prefix lines = (records, None).
Proof.
  revert records. induction lines as [|line rest IH]; intros records H.
  - by injection H as <-.
  - apply strict_decode_cons in H as (r & rs & -> & _ & Hp & Hrest).
    simpl. by rewrite Hp, (IH rs).
Qed.

(** [read] with a callback that never stops goes through the records it
    can reach, and ends there. *)
Lemma js_read_loop_reached (f : Json -> U -> Res JsVal * U) lines records bad w :
  parsed_prefix lines = (records, bad) ->
  quiet truthy f records (locals w) = true ->
  JsonlFile.read_loop (userCb f) lines w =
    (ending bad, set_locals (replay f records (locals w)) w).
Proof.
  revert records w.
  induction lines as [|line rest IH]; intros records w Hpre Hq.
  - injection Hpre as <- <-. simpl. unfold ret. by rewrite set_locals_id.
  - apply parsed_prefix_cons in Hpre. rewrite read_loop_cons.
    destruct (JSON_parse line) as [r|].
    + destruct Hpre as (rs & -> & Hrest).
      apply quiet_cons in Hq as (v & Hf & Hv & Hq).
      unfold userCb at 1. rewrite Hf, Hv. by rewrite (IH rs).
    + destruct Hpre as [-> ->]. simpl. by rewrite set_locals_id.
Qed.

(** [read] halts at the first record on which the callback answers with
    a truthy value, whatever the lines after it. *)
Lemma js_read_loop_halts (f : Json -> U -> Res JsVal * U)
    lines records bad before r after w :
  parsed_prefix lines = (records, bad) ->
  records = before ++ r :: after ->
  quiet truthy f before (locals w) = true ->
  stops truthy f r (replay f before (locals w)) = true ->
  JsonlFile.read_loop (userCb f) lines w =
    (Ok tt, set_locals (replay f (before ++ [r]) (locals w)) w).
Proof.
  revert records before w.
  induction lines as [|line rest IH]; intros records before w Hpre -> Hq Hs.
  - injection Hpre as Hnil _. by destruct before.
  - apply parsed_prefix_cons in Hpre. rewrite read_loop_cons.
    destruct (JSON_parse line) as [r0|].
    + destruct Hpre as (rs & Hrs & Hrest).
      destruct before as [|b before]; simpl in Hrs; injection Hrs as <- <-.
      * apply stops_eq in Hs as (v & Hf & Hv). simpl in Hf.
        unfold userCb at 1. rewrite Hf, Hv. done.
      * apply quiet_cons in Hq as (v & Hf & Hv & Hq).
        unfold userCb at 1. rewrite Hf, Hv.
        by rewrite (IH (before ++ r :: after) before).
    + destruct Hpre as [Hnil _]. by destruct before.
Qed.

(** [readByBatch] on a file with a line that is not JSON: the callback
    gets the batches that fill up before that line. *)
Lemma js_batch_loop_bad (f : list Json -> U -> Res JsVal * U)
    k lines records bad buf w :
  parsed_prefix lines = (records, Some bad) ->
  quiet truthy f (full_from k buf records) (locals w) = true ->
  JsonlFile.readByBatch_loop (userCb f) (Z.of_nat k) lines buf w =
    (Throw (SyntaxError bad),
     set_locals (replay f (full_from k buf records) (locals w)) w).
Proof.
  revert records buf w.
  induction lines as [|line rest IH]; intros records buf w Hpre Hq.
  - done.
  - apply parsed_prefix_cons in Hpre. rewrite readByBatch_loop_cons.
    destruct (JSON_parse line) as [r|].
    + destruct Hpre as (rs & -> & Hrest). rewrite Z_of_nat_eqb.
      cbn [full_from] in *.
      destruct (length (buf ++ [r]) =? k).
      * apply quiet_cons in Hq as (v & Hf & Hv & Hq).
        unfold userCb at 1. rewrite Hf, Hv. by rewrite (IH rs).
      * by apply IH.
    + destruct Hpre as [-> [= ->]]. simpl. by rewrite set_locals_id.
Qed.

(** [readByBatch] halts at the first full batch on which the callback
    answers with a truthy value, whatever the lines after it. *)
Lemma js_batch_loop_halts (f : list Json -> U -> Res JsVal * U)
    k lines records bad buf before b after w :
  parsed_prefix lines = (records, bad) ->
  full_from k buf records = before ++ b :: after ->
  quiet truthy f before (locals w) = true ->
  stops truthy f b (replay f before (locals w)) = true ->
  exists batch,
    JsonlFile.readByBatch_loop (userCb f) (Z.of_nat k) lines buf w =
      (Ok (batch, true), set_locals (replay f (before ++ [b]) (locals w)) w).
Proof.
  revert records buf before w.
  induction lines as [|line rest IH]; intros records buf before w Hpre Hfull Hq Hs.
  - injection Hpre as <- _. by destruct before.
  - apply parsed_prefix_cons in Hpre. rewrite readByBatch_loop_cons.
    destruct (JSON_parse line) as [r|].
    + destruct Hpre as (rs & -> & Hrest). rewrite Z_of_nat_eqb.
      cbn [full_from] in Hfull.
      destruct (length (buf ++ [r]) =? k).
      * destruct before as [|b0 before]; simpl in Hfull; injection Hfull as <- Hfull.
        -- apply stops_eq in Hs as (v & Hf & Hv). simpl in Hf.
           unfold userCb at 1. rewrite Hf, Hv. by eexists.
        -- apply quiet_cons in Hq as (v & Hf & Hv & Hq).
           unfold userCb at 1. rewrite Hf, Hv.
           destruct (IH rs [] before (set_locals (snd (f (buf ++ [r]) (locals w))) w))
             as [batch Hb]; [done | done | done | done |].
           exists batch. by rewrite Hb.
      * by apply (IH rs (buf ++ [r]) before).
    + destruct Hpre as [-> _]. by destruct before.
Qed.

(** [readByBatch] on a file whose lines are all JSON hands the batches of
    its records over to the callback. *)
Lemma js_batch_loop_parsed (f : list Json -> U -> Res JsVal * U)
    k lines records buf w :
  0 < k -> length buf < k ->
  parsed_prefix lines = (records, None) ->
  (state <- JsonlFile.readByBatch_loop (userCb f) (Z.of_nat k) lines buf ;;
   flush (userCb f) state) w =
    (fst (hand_over truthy f (chunks_from k buf records) (locals w)),
     set_locals
       (snd (hand_over truthy f (chunks_from k buf records) (locals w))) w).
Proof.
  intros Hk. revert records buf w.
  induction lines as [|line rest IH]; intros records buf w Hbuf Hpre.
  - injection Hpre as <-. unfold bind. simpl.
    destruct buf as [|b buf]; simpl.
    + unfold ret. by rewrite set_locals_id.
    + unfold bind, ret, userCb.
      destruct (f (b :: buf) (locals w)) as [[v|e] u']; [|done].
      by destruct (truthy v).
  - apply parsed_prefix_cons in Hpre.
    unfold bind at 1. rewrite readByBatch_loop_cons.
    destruct (JSON_parse line) as [r|]; [|by destruct Hpre].
    destruct Hpre as (rs & -> & Hrest). rewrite Z_of_nat_eqb.
    cbn [chunks_from].
    destruct (length (buf ++ [r]) =? k) eqn:Hfull.
    + unfold userCb at 1. cbn [hand_over].
      destruct (f (buf ++ [r]) (locals w)) as [[v|e] u']; [|done].
      destruct (truthy v).
      * simpl. by rewrite andb_false_r.
      * specialize (IH rs [] (set_locals u' w)).
        unfold bind at 1 in IH. rewrite IH; [done | simpl; lia | done].
    + apply Nat.eqb_neq in Hfull.
      specialize (IH rs (buf ++ [r]) w). unfold bind at 1 in IH.
      rewrite IH; [done | | done].
      rewrite length_app in *. simpl in *. lia.
Qed.

Lemma js_read_reached (f : Json -> U -> Res JsVal * U) path content records bad w :
  fs w !! path = Some content ->
  parsed_prefix (rl_lines content) = (records, bad) ->
  quiet truthy f records (locals w) = true ->
  JsonlFile.read path (userCb f) w =
    (ending bad, set_locals (replay f records (locals w)) w).
Proof.
  intros Hpath Hpre Hq. unfold JsonlFile.read, bind. rewrite getRl_spec, Hpath.
  by apply js_read_loop_reached.
Qed.

Lemma js_read_halts (f : Json -> U -> Res JsVal * U)
    path content records bad before r after w :
  fs w !! path = Some content ->
  parsed_prefix (rl_lines content) = (records, bad) ->
  records = before ++ r :: after ->
  quiet truthy f before (locals w) = true ->
  stops truthy f r (replay f before (locals w)) = true ->
  JsonlFile.read path (userCb f) w =
    (Ok tt, set_locals (replay f (before ++ [r]) (locals w)) w).
Proof.
  intros Hpath Hpre Hrec Hq Hs. unfold JsonlFile.read, bind.
  rewrite getRl_spec, Hpath.
  by apply (js_read_loop_halts f _ records bad before r after).
Qed.

Lemma js_readByBatch_parsed (f : list Json -> U -> Res JsVal * U)
    k path content records w :
  0 < k ->
  fs w !! path = Some content ->
  parsed_prefix (rl_lines content) = (records, None) ->
  JsonlFile.readByBatch path (userCb f) (Z.of_nat k) w =
    (fst (hand_over truthy f (chunks k records) (locals w)),
     set_locals (snd (hand_over truthy f (chunks k records) (locals w))) w).
Proof.
  intros Hk Hpath Hpre.
  unfold JsonlFile.readByBatch. unfold bind at 1. rewrite getRl_spec, Hpath.
  by apply (js_batch_loop_parsed f k (rl_lines content) records []).
Qed.

Lemma js_readByBatch_bad (f : list Json -> U -> Res JsVal * U)
    k path content records bad w :
  fs w !! path = Some content ->
  parsed_prefix (rl_lines content) = (records, Some bad) ->
  quiet truthy f (full_batches k records) (locals w) = true ->
  JsonlFile.readByBatch path (userCb f) (Z.of_nat k) w =
    (Throw (SyntaxError bad),
     set_locals (replay f (full_batches k records) (locals w)) w).
Proof.
  intros Hpath Hpre Hq.
  unfold JsonlFile.readByBatch. unfold bind at 1. rewrite getRl_spec, Hpath.
  unfold bind. by rewrite (js_batch_loop_bad f k _ records bad []).
Qed.

Lemma js_readByBatch_halts (f : list Json -> U -> Res JsVal * U)
    k path content records bad before b after w :
  fs w !! path = Some content ->
  parsed_prefix (rl_lines content) = (records, bad) ->
  full_batches k records = before ++ b :: after ->
  quiet truthy f before (locals w) = true ->
  stops truthy f b (replay f before (locals w)) = true ->
  JsonlFile.readByBatch path (userCb f) (Z.of_nat k) w =
    (Ok tt, set_locals (replay f (before ++ [b]) (locals w)) w).
Proof.
  intros Hpath Hpre Hfull Hq Hs.
  unfold JsonlFile.readByBatch. unfold bind at 1. rewrite getRl_spec, Hpath.
  unfold bind.
  destruct (js_batch_loop_halts f k (rl_lines content) records bad []
              before b after w) as [batch ->]; [done | done | done | done |].
  by rewrite andb_false_r.
Qed.
End JsAnyFile.

(** * Traversals of the streaming reader *)

Lemma warned_nil {L} (w : World L) : warned [] w = w.
Proof. destruct w. unfold warned. simpl. by rewrite app_nil_r. Qed.

Lemma warned_warned {L} (a b : list string) (w : World L) :
  warned b (warned a w) = warned (a ++ b) w.
Proof. unfold warned. simpl. by rewrite app_assoc. Qed.

Lemma warned_set_locals {L L'} (a : list string) (l : L') (w : World L) :
  warned a (set_locals l w) = set_locals l (warned a w).
Proof. done. Qed.

Section LibTraversal.
Context {codec : JsonCodec} {U : Type}.
Implicit Types (w : World U) (path : string).

Lemma lib_read_loop_cons (onBatch : list Json -> M (World U) JsVal)
    batchSize line rest batch w :
  Jsonl.read_loop onBatch batchSize (line :: rest) batch w =
    if trim_is_empty line then Jsonl.read_loop onBatch batchSize rest batch w
    else
      match JSON_parse line with
      | None =>
          Jsonl.read_loop onBatch batchSize rest batch
            (warned [Jsonl.warning line] w)
      | Some r =>
          if (Z.of_nat (length (batch ++ [r])) =? batchSize)%Z then
            match onBatch (batch ++ [r]) w with
            | (Ok v, w') =>
                if truthy v then (Ok (batch ++ [r], true), w')
                else Jsonl.read_loop onBatch batchSize rest [] w'
            | (Throw e, w') => (Throw e, w')
            end
          else Jsonl.read_loop onBatch batchSize rest (batch ++ [r]) w
      end.
Proof.
  simpl. destruct (trim_is_empty line); [done |].
  unfold bind, try_catch, JSON_parse_or_throw, ret, throw, console_warn.
  destruct (JSON_parse line) as [r|]; [|done].
  destruct (_ =? _)%Z; [|done].
  destruct (onBatch (batch ++ [r]) w) as [[v|e] w']; [|done].
  by destruct (truthy v).
Qed.

Lemma decodable_lines_cons line rest :
  decodable_lines (line :: rest) =
    if trim_is_empty line then decodable_lines rest
    else match JSON_parse line with
         | Some r => r :: decodable_lines rest
         | None => decodable_lines rest
         end.
Proof.
  unfold decodable_lines. simpl. unfold decode_line.
  destruct (trim_is_empty line); [done |]. by destruct (JSON_parse line).
Qed.

Lemma warnings_of_cons line rest :
  warnings_of (line :: rest) =
    if trim_is_empty line then warnings_of rest
    else match JSON_parse line with
         | Some r => warnings_of rest
         | None => Jsonl.warning line :: warnings_of rest
         end.
Proof.
  unfold warnings_of. simpl. unfold malformed.
  destruct (trim_is_empty line); [done |]. by destruct (JSON_parse line).
Qed.

(** The streaming [read]: blank lines and lines that are not JSON are
    passed over, the latter with a warning; the batches of the decodable
    records are handed over to the callback. *)
Lemma lib_read_loop_spec (c : list Json -> M (World U) JsVal)
    (f : list Json -> U -> Res JsVal * U) k lines buf w :
  acts_as c f -> 0 < k -> length buf < k ->
  let items := chunks_from k buf (decodable_lines lines) in
  exists warns,
    (state <- Jsonl.read_loop c (Z.of_nat k) lines buf ;; flush c state) w =
      (fst (hand_over truthy f items (locals w)),
       set_locals (snd (hand_over truthy f items (locals w))) (warned warns w)) /\
    (quiet truthy f items (locals w) = true -> warns = warnings_of lines).
Proof.
  intros Hc Hk. revert buf w.
  induction lines as [|line rest IH]; intros buf w Hbuf; cbv zeta.
  - exists []. split; [|done]. rewrite warned_nil. unfold bind. simpl.
    destruct buf as [|b buf]; simpl.
    + unfold ret. by rewrite set_locals_id.
    + unfold bind, ret. rewrite Hc. unfold userCb.
      destruct (f (b :: buf) (locals w)) as [[v|e] u']; [|done].
      by destruct (truthy v).
  - unfold bind at 1. rewrite lib_read_loop_cons, decodable_lines_cons,
      warnings_of_cons.
    destruct (trim_is_empty line).
    { destruct (IH buf w Hbuf) as (warns & Heq & Hall).
      exists warns. split; [|done]. unfold bind at 1 in Heq. by rewrite Heq. }
    destruct (JSON_parse line) as [r|].
    2: { destruct (IH buf (warned [Jsonl.warning line] w) Hbuf)
           as (warns & Heq & Hall).
         exists (Jsonl.warning line :: warns). split.
         - unfold bind at 1 in Heq. rewrite Heq.
           by rewrite warned_warned.
         - intros Hq. by rewrite Hall. }
    rewrite Z_of_nat_eqb. cbn [chunks_from].
    destruct (length (buf ++ [r]) =? k) eqn:Hfull.
    + rewrite Hc. unfold userCb at 1. cbn [hand_over quiet].
      destruct (f (buf ++ [r]) (locals w)) as [[v|e] u'] eqn:Hf.
      2: { exists []. split; [by rewrite warned_nil | done]. }
      cbn [fst snd]. destruct (truthy v) eqn:Hstop.
      * exists []. split; [|done].
        simpl. rewrite andb_false_r. by rewrite warned_nil.
      * destruct (IH [] (set_locals u' w)) as (warns & Heq & Hall);
          [simpl; lia |].
        exists warns. split; [|done].
        unfold bind at 1 in Heq. by rewrite Heq.
    + apply Nat.eqb_neq in Hfull.
      destruct (IH (buf ++ [r]) w) as (warns & Heq & Hall).
      { rewrite length_app in *. simpl in *. lia. }
      exists warns. split; [|done]. unfold bind at 1 in Heq. by rewrite Heq.
Qed.

Lemma lib_read_spec (c : list Json -> M (World U) JsVal)
    (f : list Json -> U -> Res JsVal * U) k path w :
  acts_as c f -> 0 < k ->
  let items := chunks k (records_of (fs w) path) in
  exists warns,
    Jsonl.read path c (Z.of_nat k) w =
      (fst (hand_over truthy f items (locals w)),
       set_locals (snd (hand_over truthy f items (locals w))) (warned warns w)) /\
    (quiet truthy f items (locals w) = true ->
     warns = warnings_of (file_lines (fs w) path)).
Proof.
  intros Hc Hk. unfold Jsonl.read, records_of, file_lines. cbv zeta.
  unfold bind at 1. rewrite safePathExists_spec.
  destruct (fs w !! path) as [content|] eqn:Hpath; simpl.
  2: { exists []. split; [|done]. unfold ret.
       by rewrite warned_nil, set_locals_id. }
  unfold bind at 1. rewrite getRl_spec, Hpath.
  destruct (lib_read_loop_spec c f k (rl_lines content) [] w Hc Hk)
    as (warns & Heq & Hall); [simpl; lia |].
  exists warns. split; [|done].
  unfold try_finally, rl_close. unfold flush in Heq. rewrite Heq.
  by destruct (hand_over _ _ _ _) as [[[]|e] u'].
Qed.

Lemma readLineByLine_loop_cons (onLine : Json -> M (World U) JsVal)
    line rest w :
  Jsonl.readLineByLine_loop onLine (line :: rest) w =
    if trim_is_empty line then Jsonl.readLineByLine_loop onLine rest w
    else
      match JSON_parse line with
      | None =>
          Jsonl.readLineByLine_loop onLine rest (warned [Jsonl.warning line] w)
      | Some r =>
          match onLine r w with
          | (Ok v, w') =>
              if Jsonl.is_true v then (Ok tt, w')
              else Jsonl.readLineByLine_loop onLine rest w'
          | (Throw e, w') =>
              Jsonl.readLineByLine_loop onLine rest (warned [Jsonl.warning line] w')
          end
      end.
Proof.
  simpl. destruct (trim_is_empty line); [done |].
  unfold bind, try_catch, JSON_parse_or_throw, ret, throw, console_warn.
  destruct (JSON_parse line) as [r|]; [|done].
  destruct (onLine r w) as [[v|e] w']; [|done].
  by destruct (Jsonl.is_true v).
Qed.

(** [readLineByLine] hands the decodable records over to the callback
    until it answers the boolean [true]; what the callback throws is
    caught, and the traversal always completes. *)
Lemma readLineByLine_loop_spec (f : Json -> U -> Res JsVal * U) lines w :
  let items := decodable_lines lines in
  exists warns,
    Jsonl.readLineByLine_loop (userCb f) lines w =
      (Ok tt,
       set_locals (hand_over_lenient Jsonl.is_true f items (locals w))
         (warned warns w)) /\
    (quiet Jsonl.is_true f items (locals w) = true -> warns = warnings_of lines).
Proof.
  cbv zeta. revert w.
  induction lines as [|line rest IH]; intros w.
  - exists []. split; [|done]. simpl. unfold ret.
    by rewrite warned_nil, set_locals_id.
  - rewrite readLineByLine_loop_cons, decodable_lines_cons, warnings_of_cons.
    destruct (trim_is_empty line); [apply IH |].
    destruct (JSON_parse line) as [r|].
    2: { destruct (IH (warned [Jsonl.warning line] w)) as (warns & Heq & Hall).
         exists (Jsonl.warning line :: warns). split.
         - rewrite Heq. by rewrite warned_warned.
         - intros Hq. by rewrite Hall. }
    unfold userCb at 1. cbn [hand_over_lenient quiet].
    destruct (f r (locals w)) as [[v|e] u'] eqn:Hf; cbn [fst snd].
    + destruct (Jsonl.is_true v) eqn:Hstop.
      * exists []. split; [by rewrite warned_nil | done].
      * destruct (IH (set_locals u' w)) as (warns & Heq & Hall).
        exists warns. split; [|done]. by rewrite Heq.
    + destruct (IH (warned [Jsonl.warning line] (set_locals u' w)))
        as (warns & Heq & Hall).
      exists (Jsonl.warning line :: warns). split; [|done].
      rewrite Heq. by rewrite warned_warned.
Qed.

Lemma readLineByLine_spec (f : Json -> U -> Res JsVal * U) path w :
  let items := records_of (fs w) path in
  exists warns,
    Jsonl.readLineByLine path (userCb f) w =
      (Ok tt,
       set_locals (hand_over_lenient Jsonl.is_true f items (locals w))
         (warned warns w)) /\
    (quiet Jsonl.is_true f items (locals w) = true ->
     warns = warnings_of (file_lines (fs w) path)).
Proof.
  unfold Jsonl.readLineByLine, records_of, file_lines. cbv zeta.
  unfold bind at 1. rewrite safePathExists_spec.
  destruct (fs w !! path) as [content|] eqn:Hpath; simpl.
  2: { exists []. split; [|done]. unfold ret.
       by rewrite warned_nil, set_locals_id. }
  unfold bind at 1. rewrite getRl_spec, Hpath.
  destruct (readLineByLine_loop_spec f (rl_lines content) w)
    as (warns & Heq & Hall).
  exists warns. split; [|done].
  unfold try_finally, rl_close. by rewrite Heq.
Qed.

(** Whatever the callback does, [readLineByLine] completes. *)
Lemma readLineByLine_loop_completes (onLine : Json -> M (World U) JsVal) lines w :
  fst (Jsonl.readLineByLine_loop onLine lines w) = Ok tt.
Proof.
  revert w. induction lines as [|line rest IH]; intros w; [done |].
  rewrite readLineByLine_loop_cons.
  destruct (trim_is_empty line); [apply IH |].
  destruct (JSON_parse line) as [r|]; [|apply IH].
  destruct (onLine r w) as [[v|e] w']; [|apply IH].
  destruct (Jsonl.is_true v); [done | apply IH].
Qed.

Lemma readLineByLine_completes (onLine : Json -> M (World U) JsVal) path w :
  fst (Jsonl.readLineByLine path onLine w) = Ok tt.
Proof.
  unfold Jsonl.readLineByLine. unfold bind at 1. rewrite safePathExists_spec.
  destruct (fs w !! path) as [content|] eqn:Hpath; simpl; [|done].
  unfold bind at 1. rewrite getRl_spec, Hpath.
  unfold try_finally, rl_close.
  pose proof (readLineByLine_loop_completes onLine (rl_lines content) w) as H.
  destruct (Jsonl.readLineByLine_loop onLine (rl_lines content) w) as [r w'].
  simpl in *. by subst r.
Qed.
End LibTraversal.

(** * Reading leaves the files alone *)

Section KeepsFiles.
Context {codec : JsonCodec}.

Lemma keeps_ret {L A} (a : A) : keeps_files (ret a : M (World L) A).
Proof. by intros w. Qed.

Lemma keeps_throw {L A} e : keeps_files (throw e : M (World L) A).
Proof. by intros w. Qed.

Lemma keeps_bind {L A B} (m : M (World L) A) (k : A -> M (World L) B) :
  keeps_files m -> (forall a, keeps_files (k a)) -> keeps_files (bind m k).
Proof.
  intros Hm Hk w. unfold bind. specialize (Hm w).
  destruct (m w) as [[a|e] w']; simpl in *; [|done].
  by rewrite Hk.
Qed.

Lemma keeps_try_catch {L A} (m : M (World L) A) h :
  keeps_files m -> (forall e, keeps_files (h e)) -> keeps_files (try_catch m h).
Proof.
  intros Hm Hh w. unfold try_catch. specialize (Hm w).
  destruct (m w) as [[a|e] w']; simpl in *; [done |].
  by rewrite Hh.
Qed.

Lemma keeps_try_finally {L A} (m : M (World L) A) c :
  keeps_files m -> keeps_files c -> keeps_files (try_finally m c).
Proof.
  intros Hm Hc w. unfold try_finally. specialize (Hm w).
  destruct (m w) as [r w1]. specialize (Hc w1).
  destruct (c w1) as [[[]|e] w2]; simpl in *; congruence.
Qed.

Lemma keeps_userCb {A B U} (f : A -> U -> Res B * U) a : keeps_files (userCb f a).
Proof. intros w. unfold userCb. by destruct (f a (locals w)). Qed.

Lemma keeps_pureCb {A B L} (f : A -> Res B) a :
  keeps_files (pureCb f a : M (World L) B).
Proof. by intros w. Qed.

Lemma keeps_get_locals {L} : keeps_files (get_locals : M (World L) L).
Proof. by intros w. Qed.

Lemma keeps_put_locals {L} (l : L) : keeps_files (put_locals l).
Proof. by intros w. Qed.

Lemma keeps_get_prop {L} line attribute :
  keeps_files (get_prop line attribute : M (World L) JsVal).
Proof. by intros w. Qed.

Lemma keeps_console_warn {L} msg : keeps_files (console_warn msg : M (World L) unit).
Proof. by intros w. Qed.

Lemma keeps_parse {L} text : keeps_files (JSON_parse_or_throw text : M (World L) Json).
Proof. intros w. unfold JSON_parse_or_throw. by destruct (JSON_parse text). Qed.

Lemma keeps_getRl {L} path : keeps_files (getRl path : M (World L) (list string)).
Proof. intros w. by rewrite getRl_spec. Qed.

Lemma keeps_safePathExists {L} path :
  keeps_files (safePathExists path : M (World L) bool).
Proof. intros w. by rewrite safePathExists_spec. Qed.

Lemma keeps_with_locals {L0 L A} (init : L) (m : M (World L) A) :
  keeps_files m -> keeps_files (with_locals init m : M (World L0) (A * L)).
Proof.
  intros Hm w. unfold with_locals. specialize (Hm (set_locals init w)).
  by destruct (m (set_locals init w)) as [[a|e] w'].
Qed.

End KeepsFiles.

Create HintDb keeps discriminated.
#[global] Hint Resolve keeps_ret keeps_throw keeps_userCb keeps_pureCb keeps_get_locals
    keeps_put_locals keeps_get_prop keeps_console_warn keeps_parse keeps_getRl
    keeps_safePathExists : keeps.

Ltac keeps :=
    repeat first
      [ match goal with |- forall _, _ => intro end
      | solve [auto with keeps]
      | simple apply keeps_bind
      | simple apply keeps_try_catch
      | simple apply keeps_try_finally
      | simple apply keeps_with_locals
      | match goal with
        | |- keeps_files (if ?b then _ else _) => destruct b
        | |- keeps_files (match ?x with _ => _ end) => destruct x
        | |- keeps_files (let '(_, _) := ?x in _) => destruct x
        end ].

Section KeepsFilesLoops.
Context {codec : JsonCodec}.

Lemma keeps_js_read_loop {L} (onLine : Json -> M (World L) JsVal) lines :
  (forall a, keeps_files (onLine a)) ->
  keeps_files (JsonlFile.read_loop onLine lines).
Proof. intros H. induction lines as [|line rest IH]; simpl; keeps. Qed.

Lemma keeps_js_read {L} path (onLine : Json -> M (World L) JsVal) :
  (forall a, keeps_files (onLine a)) -> keeps_files (JsonlFile.read path onLine).
Proof. intros H. unfold JsonlFile.read. keeps. by apply keeps_js_read_loop. Qed.

Lemma keeps_js_readByBatch_loop {L} (onBatch : list Json -> M (World L) JsVal)
    k lines batch :
  (forall a, keeps_files (onBatch a)) ->
  keeps_files (JsonlFile.readByBatch_loop onBatch k lines batch).
Proof.
  intros H. revert batch. induction lines as [|line rest IH]; intros batch; simpl; keeps.
Qed.

Lemma keeps_js_readByBatch {L} path (onBatch : list Json -> M (World L) JsVal) k :
  (forall a, keeps_files (onBatch a)) ->
  keeps_files (JsonlFile.readByBatch path onBatch k).
Proof.
  intros H. unfold JsonlFile.readByBatch. keeps. by apply keeps_js_readByBatch_loop.
Qed.

Lemma keeps_lib_read_loop {L} (onBatch : list Json -> M (World L) JsVal)
    k lines batch :
  (forall a, keeps_files (onBatch a)) ->
  keeps_files (Jsonl.read_loop onBatch k lines batch).
Proof.
  intros H. revert batch. induction lines as [|line rest IH]; intros batch; simpl; keeps.
Qed.

Lemma keeps_lib_read {L} path (onBatch : list Json -> M (World L) JsVal) k :
  (forall a, keeps_files (onBatch a)) -> keeps_files (Jsonl.read path onBatch k).
Proof.
  intros H. unfold Jsonl.read, rl_close. keeps. by apply keeps_lib_read_loop.
Qed.

Lemma keeps_readLineByLine_loop {L} (onLine : Json -> M (World L) JsVal) lines :
  (forall a, keeps_files (onLine a)) ->
  keeps_files (Jsonl.readLineByLine_loop onLine lines).
Proof. intros H. induction lines as [|line rest IH]; simpl; keeps. Qed.

Lemma keeps_readLineByLine {L} path (onLine : Json -> M (World L) JsVal) :
  (forall a, keeps_files (onLine a)) ->
  keeps_files (Jsonl.readLineByLine path onLine).
Proof.
  intros H. unfold Jsonl.readLineByLine, rl_close. keeps.
  by apply keeps_readLineByLine_loop.
Qed.
End KeepsFilesLoops.

#[global] Hint Resolve keeps_js_read keeps_js_readByBatch keeps_lib_read
  keeps_readLineByLine : keeps.

(** * The facade *)

Lemma default_batchSize_nat : Jsonl.default_batchSize = Z.of_nat 1000.
Proof. reflexivity. Qed.

Section Accumulate.
Context {A B : Type}.

(** A callback that appends [h a] to a list and asks to go on. *)
Lemma replay_append (h : A -> list B) (v : JsVal) items (u : list B) :
  replay (fun a u => (Ok v, u ++ h a)) items u = u ++ concat (map h items).
Proof.
  revert u. induction items as [|a items IH]; intros u; simpl.
  - by rewrite app_nil_r.
  - unfold replay in *. simpl. rewrite IH. by rewrite <- app_assoc.
Qed.
End Accumulate.

Lemma concat_map_filter {A B} (p : A -> bool) (g : A -> B) (bs : list (list A)) :
  concat (map (fun b => map g (List.filter p b)) bs) = map g (List.filter p (concat bs)).
Proof.
  induction bs as [|b bs IH]; simpl; [done |].
  by rewrite IH, List.filter_app, map_app.
Qed.

Section FacadeFacts.
Context {codec : JsonCodec}.

Lemma lib_read_missing {L} path (onBatch : list Json -> M (World L) JsVal) k w :
  fs w !! path = None -> Jsonl.read path onBatch k w = (Ok tt, w).
Proof.
  intros H. unfold Jsonl.read, bind. by rewrite safePathExists_spec, H.
Qed.

Lemma readLineByLine_missing {L} path (onLine : Json -> M (World L) JsVal) w :
  fs w !! path = None -> Jsonl.readLineByLine path onLine w = (Ok tt, w).
Proof.
  intros H. unfold Jsonl.readLineByLine, bind. by rewrite safePathExists_spec, H.
Qed.

Lemma find_batch_total (p : Json -> bool) :
  acts_as (JsonlDir.find_batch (fun r => Ok (p r)))
    (fun batch found => (Ok (VJson (JBool false)), found ++ List.filter p batch)).
Proof.
  intros batch. induction batch as [|r batch IH]; intros w.
  - unfold userCb. simpl. unfold ret. by rewrite app_nil_r, set_locals_id.
  - simpl. unfold bind, pureCb, userCb. simpl.
    destruct (p r); simpl; rewrite IH; unfold userCb; simpl;
      by rewrite <- ?app_assoc.
Qed.

Lemma update_batch_total (p : Json -> bool) (g : Json -> Json) :
  acts_as (JsonlDir.update_batch (fun r => Ok (p r)) (fun r => Ok (g r)))
    (fun batch updated =>
       (Ok (VJson (JBool false)), updated ++ map g (List.filter p batch))).
Proof.
  intros batch. induction batch as [|r batch IH]; intros w.
  - unfold userCb. simpl. unfold ret. by rewrite app_nil_r, set_locals_id.
  - simpl. unfold bind, pureCb, userCb. simpl.
    destruct (p r); simpl; rewrite IH; unfold userCb; simpl;
      by rewrite <- ?app_assoc.
Qed.

Lemma delete_batch_total (p : Json -> bool) :
  acts_as (JsonlDir.delete_batch (fun r => Ok (p r)))
    (fun batch deleted =>
       (Ok (VJson (JBool false)),
        deleted ++ List.filter (fun r => negb (p r)) batch)).
Proof.
  intros batch. induction batch as [|r batch IH]; intros w.
  - unfold userCb. simpl. unfold ret. by rewrite app_nil_r, set_locals_id.
  - simpl. unfold bind, pureCb, userCb. simpl.
    destruct (p r); simpl; rewrite IH; unfold userCb; simpl;
      by rewrite <- ?app_assoc.
Qed.

(** A query of the facade that collects [h batch] from every batch. *)
Lemma collect_spec {L} (c : list Json -> M (World (list Json)) JsVal)
    (h : Json -> bool) (g : Json -> Json) path (w : World L) :
  acts_as c
    (fun batch acc => (Ok (VJson (JBool false)), acc ++ map g (List.filter h batch))) ->
  with_locals [] (Jsonl.read path c Jsonl.default_batchSize) w =
    (Ok (tt, map g (List.filter h (records_of (fs w) path))),
     warned (warnings_of (file_lines (fs w) path)) w).
Proof.
  intros Hc. unfold with_locals. rewrite default_batchSize_nat.
  destruct (lib_read_spec c _ 1000 path (set_locals [] w) Hc)
    as (warns & Heq & Hall); [lia |].
  cbv zeta in Heq, Hall.
  rewrite hand_over_quiet in Heq by (apply quiet_always; intros; by eexists).
  rewrite Heq, Hall by (apply quiet_always; intros; by eexists). simpl.
  rewrite (replay_append (fun b => map g (List.filter h b))). simpl.
  rewrite concat_map_filter. unfold chunks. by rewrite chunks_from_concat.
Qed.

Lemma map_id_eq {A} (l : list A) : map (fun x => x) l = l.
Proof. induction l; simpl; congruence. Qed.

Lemma find_spec {L} dirPath entityName (p : Json -> bool) (w : World L) :
  let path := JsonlDir.filePath dirPath entityName in
  JsonlDir.find dirPath entityName (fun r => Ok (p r)) w =
    (Ok (List.filter p (records_of (fs w) path)),
     warned (warnings_of (file_lines (fs w) path)) w).
Proof.
  intros path. unfold JsonlDir.find, bind. fold path.
  rewrite (collect_spec _ p (fun x => x)).
  - simpl. by rewrite map_id_eq.
  - intros batch w'. rewrite find_batch_total. unfold userCb. simpl.
    by rewrite map_id_eq.
Qed.

Lemma update_spec {L} dirPath entityName (p : Json -> bool) (g : Json -> Json)
    (w : World L) :
  let path := JsonlDir.filePath dirPath entityName in
  JsonlDir.update dirPath entityName (fun r => Ok (p r)) (fun r => Ok (g r)) w =
    (Ok (map g (List.filter p (records_of (fs w) path))),
     warned (warnings_of (file_lines (fs w) path)) w).
Proof.
  intros path. unfold JsonlDir.update, bind. fold path.
  rewrite (collect_spec _ p g); [done |]. apply update_batch_total.
Qed.

Lemma delete_spec {L} dirPath entityName (p : Json -> bool) (w : World L) :
  let path := JsonlDir.filePath dirPath entityName in
  JsonlDir.delete_ dirPath entityName (fun r => Ok (p r)) w =
    (Ok (List.filter (fun r => negb (p r)) (records_of (fs w) path)),
     warned (warnings_of (file_lines (fs w) path)) w).
Proof.
  intros path. unfold JsonlDir.delete_, bind. fold path.
  rewrite (collect_spec _ (fun r => negb (p r)) (fun x => x)).
  - simpl. by rewrite map_id_eq.
  - intros batch w'. rewrite delete_batch_total. unfold userCb. simpl.
    by rewrite map_id_eq.
Qed.

Lemma replay_count (v : JsVal) (items : list (list Json)) (n : nat) :
  replay (fun b n => (Ok v, n + length b)) items n = n + length (concat items).
Proof.
  revert n. induction items as [|b items IH]; intros n; simpl; [lia |].
  unfold replay in *. simpl. rewrite IH, length_app. lia.
Qed.

Lemma count_spec {L} path (w : World L) :
  Jsonl.count path w =
    (Ok (length (records_of (fs w) path)),
     warned (warnings_of (file_lines (fs w) path)) w).
Proof.
  unfold Jsonl.count. unfold bind at 1. rewrite safePathExists_spec.
  unfold records_of, file_lines.
  destruct (fs w !! path) as [content|] eqn:Hpath; simpl.
  2: { unfold ret. by rewrite warned_nil. }
  unfold bind at 1. unfold with_locals. rewrite default_batchSize_nat.
  destruct (lib_read_spec
              (fun batch => lineCount <- get_locals ;;
                 put_locals (lineCount + length batch) ;;;
                 ret (VJson (JBool false)))
              (fun b n => (Ok (VJson (JBool false)), n + length b))
              1000 path (set_locals 0 w))
    as (warns & Heq & Hall); [done | lia |].
  cbv zeta in Heq, Hall.
  rewrite hand_over_quiet in Heq by (apply quiet_always; intros; by eexists).
  rewrite Heq, Hall by (apply quiet_always; intros; by eexists). simpl.
  rewrite replay_count. simpl.
  unfold chunks. rewrite chunks_from_concat. simpl.
  unfold records_of, file_lines. by rewrite Hpath.
Qed.

(** The queries of the facade never write a file, whatever the caller's
    functions do. *)
Lemma keeps_find_batch matchFn batch : keeps_files (JsonlDir.find_batch matchFn batch).
Proof. induction batch as [|r batch IH]; simpl; keeps. Qed.

Lemma keeps_update_batch matchFn updateFn batch :
  keeps_files (JsonlDir.update_batch matchFn updateFn batch).
Proof. induction batch as [|r batch IH]; simpl; keeps. Qed.

Lemma keeps_delete_batch matchFn batch :
  keeps_files (JsonlDir.delete_batch matchFn batch).
Proof. induction batch as [|r batch IH]; simpl; keeps. Qed.

Lemma keeps_findOne_batch matchFn batch :
  keeps_files (JsonlDir.findOne_batch matchFn batch).
Proof. induction batch as [|r batch IH]; simpl; keeps. Qed.

Lemma keeps_update {L} dirPath entityName matchFn updateFn :
  keeps_files (JsonlDir.update dirPath entityName matchFn updateFn
               : M (World L) (list Json)).
Proof.
  unfold JsonlDir.update. keeps. apply keeps_lib_read, keeps_update_batch.
Qed.

Lemma keeps_delete {L} dirPath entityName matchFn :
  keeps_files (JsonlDir.delete_ dirPath entityName matchFn : M (World L) (list Json)).
Proof.
  unfold JsonlDir.delete_. keeps. apply keeps_lib_read, keeps_delete_batch.
Qed.
End FacadeFacts.

(** * The claims *)

Section TracedWorlds.
Context {A U : Type}.
Implicit Types (f : A -> U -> Res JsVal * U) (w : World (U * list A)).

Lemma hand_over_traced_quiet signal f items w :
  quiet signal f items (fst (locals w)) = true ->
  hand_over signal (traced f) items (locals w) =
    (Ok tt, (replay f items (fst (locals w)), log_of w ++ items)).
Proof.
  unfold log_of. destruct (locals w) as [u log]. simpl. intros Hq.
  rewrite hand_over_quiet by (by rewrite quiet_traced).
  by rewrite replay_traced.
Qed.

Lemma hand_over_traced_stop signal f before a after w :
  quiet signal f before (fst (locals w)) = true ->
  stops signal f a (replay f before (fst (locals w))) = true ->
  hand_over signal (traced f) (before ++ a :: after) (locals w) =
    (Ok tt, (replay f (before ++ [a]) (fst (locals w)),
             log_of w ++ before ++ [a])).
Proof.
  unfold log_of. destruct (locals w) as [u log]. simpl. intros Hq Hs.
  rewrite hand_over_stop.
  - by rewrite replay_traced.
  - by rewrite quiet_traced.
  - by rewrite replay_traced, stops_traced.
Qed.

Lemma lenient_traced_quiet signal f items w :
  quiet signal f items (fst (locals w)) = true ->
  hand_over_lenient signal (traced f) items (locals w) =
    (replay f items (fst (locals w)), log_of w ++ items).
Proof.
  unfold log_of. destruct (locals w) as [u log]. simpl. intros Hq.
  rewrite lenient_quiet by (by rewrite quiet_traced).
  by rewrite replay_traced.
Qed.

Lemma lenient_traced_stop signal f before a after w :
  quiet signal f before (fst (locals w)) = true ->
  stops signal f a (replay f before (fst (locals w))) = true ->
  hand_over_lenient signal (traced f) (before ++ a :: after) (locals w) =
    (replay f (before ++ [a]) (fst (locals w)), log_of w ++ before ++ [a]).
Proof.
  unfold log_of. destruct (locals w) as [u log]. simpl. intros Hq Hs.
  rewrite lenient_stop.
  - by rewrite replay_traced.
  - by rewrite quiet_traced.
  - by rewrite replay_traced, stops_traced.
Qed.
End TracedWorlds.

Section BatchClaims.
Context {codec : JsonCodec} {U : Type}.
Implicit Types (w : World (U * list (list Json))).

Lemma batch_contract_intro traverse k records w :
  0 < k ->
  (forall f,
     let items := chunks k records in
     exists warns,
       traverse (userCb (traced f)) (Z.of_nat k) w =
         (fst (hand_over truthy (traced f) items (locals w)),
          set_locals (snd (hand_over truthy (traced f) items (locals w)))
            (warned warns w))) ->
  batch_contract traverse k records w.
Proof.
  intros Hk H. split; [by apply chunks_batching |].
  intros f. destruct (H f) as (warns & Heq).
  cbv zeta. rewrite Heq. cbn [fst snd]. split; [done |]. split.
  - intros Hq. by rewrite hand_over_traced_quiet.
  - intros before b after -> Hq Hs.
    by rewrite (hand_over_traced_stop truthy f before b after).
Qed.

(** C2, as the code has it.  With a positive batch size [k]: the
    streaming [read], on any file with its [n] decodable records, and
    [readByBatch] of the single-file engine, on any file whose lines are
    all JSON, with the [n] records of these lines, call the batch
    callback on the batches of [chunks k records]: ceil(n/k) batches of
    size [k] except possibly the last, concatenating to the records in
    file order, when the callback never signals a stop; when it does, on
    the batches up to that one and on nothing after it, so that the
    unfinished buffer is dropped and the final flush happens only at the
    end of the file without a stop.  [readByBatch] passes over no line:
    on a file with a line that is not JSON, an empty line for one, it
    fails with the parser's exception at the first such line, after the
    full batches of the records before it, unless the callback has
    stopped it on one of these; the unfinished buffer is then never
    handed over. *)
Theorem readByBatch_batches path k w :
  0 < k ->
  batch_contract (Jsonl.read path) k (records_of (fs w) path) w /\
  (forall content,
      fs w !! path = Some content ->
      js_batch_contract (JsonlFile.readByBatch path) k (rl_lines content) w).
Proof.
  intros Hk. split.
  - apply batch_contract_intro; [done |]. intros f items.
    destruct (lib_read_spec (userCb (traced f)) (traced f) k path w)
      as (warns & Heq & _); [done | done |].
    by exists warns.
  - intros content Hpath records bad Hpre. destruct bad as [line|].
    + split; [by apply full_batches_batching |].
      intros f. cbv zeta. split; [|split].
      * apply keeps_js_readByBatch. intros a. apply keeps_userCb.
      * intros Hq.
        rewrite (js_readByBatch_bad (traced f) k path content records line)
          by (done || (destruct (locals w) as [u log]; by rewrite quiet_traced)).
        cbn [fst snd]. split; [done |].
        unfold log_of. simpl. destruct (locals w) as [u log].
        by rewrite replay_traced.
      * intros before b after Hfull Hq Hs.
        rewrite (js_readByBatch_halts (traced f) k path content records
                   (Some line) before b after)
          by (done || (destruct (locals w) as [u log];
                       by rewrite ?replay_traced, ?quiet_traced, ?stops_traced)).
        cbn [fst snd]. split; [done |].
        unfold log_of. simpl. destruct (locals w) as [u log].
        by rewrite replay_traced.
    + apply batch_contract_intro; [done |].
      intros f items. exists []. rewrite warned_nil.
      by apply (js_readByBatch_parsed (traced f) k path content records).
Qed.
End BatchClaims.

Lemma is_true_truthy v : Jsonl.is_true v = true -> truthy v = true.
Proof. destruct v as [|[| [|] | | | |]]; simpl; done. Qed.

Section LineClaims.
Context {codec : JsonCodec} {U : Type}.
Implicit Types (w : World (U * list Json)).

(** C6, as the code has it.  In [readLineByLine] of the streaming
    reader, on any file, the stop signal is the boolean [true] and
    nothing else: a callback that answers with it on a decodable record
    is called on no later record, and a traversal run afterwards sees
    every decodable record again.  In [read] of the single-file engine,
    on any file, the stop signal is any truthy value: a callback that
    answers with one on a record that the traversal reaches, the lines up
    to it being JSON, is called on no later record, whatever the lines
    after it; and a traversal run afterwards is not affected by the stop:
    it sees every record when every line of the file is JSON, and
    otherwise fails with the parser's exception at the first line that
    is not JSON, after the records before it. *)
Theorem stop_signal_halts_traversal path w :
  line_contract Jsonl.is_true (Jsonl.readLineByLine path)
    (records_of (fs w) path) w /\
  (forall content,
      fs w !! path = Some content ->
      js_line_contract (JsonlFile.read path) (rl_lines content) w).
Proof.
  split.
  - intros f. cbv zeta.
    destruct (readLineByLine_spec (traced f) path w) as (warns & Heq & _).
    cbv zeta in Heq. rewrite Heq. cbn [fst snd].
    split; [done |]. split.
    + intros before r after Hrec Hq Hs. split; [done |].
      rewrite Hrec.
      by rewrite (lenient_traced_stop Jsonl.is_true f before r after).
    + intros g Hq.
      match goal with
      | |- context [Jsonl.readLineByLine path _ ?w1] =>
          destruct (readLineByLine_spec (traced g) path w1) as (warns' & Heq' & _);
          cbv zeta in Heq'; rewrite Heq'; change (fs w1) with (fs w)
      end.
      cbn [fst snd]. split; [done |].
      by rewrite lenient_traced_quiet.
  - intros content Hpath records bad Hpre f. cbv zeta.
    assert (fs (snd (JsonlFile.read path (userCb (traced f)) w)) = fs w) as Hkeep.
    { apply keeps_js_read. intros a. apply keeps_userCb. }
    split; [done |]. split.
    + intros before r after Hrec Hq Hs.
      rewrite (js_read_halts (traced f) path content records bad before r after)
        by (done || (destruct (locals w) as [u log];
                     by rewrite ?replay_traced, ?quiet_traced, ?stops_traced)).
      cbn [fst snd]. split; [done |].
      unfold log_of. simpl. destruct (locals w) as [u log].
      by rewrite replay_traced.
    + intros g Hq.
      set (w1 := snd (JsonlFile.read path (userCb (traced f)) w)) in *.
      rewrite (js_read_reached (traced g) path content records bad)
        by (done || (by rewrite Hkeep) ||
            (destruct (locals w1) as [u log]; by rewrite quiet_traced)).
      cbn [fst snd]. split; [done |].
      unfold log_of. simpl. destruct (locals w1) as [u log].
      by rewrite replay_traced.
Qed.

(** C3, as the code has it.  In the streaming reader ([readLineByLine],
    [read], and the queries of the facade built on [read]) a line that is
    not blank and is not JSON is passed over with one warning: the
    traversal completes, the line is missing from what is handed over,
    and no file changes.  In the single-file engine [read] does not pass
    over such a line: it fails there with the parser's exception, after
    the records before it, and it too changes no file. *)
Theorem malformed_lines_skipped_by_streaming_reader path :
  (forall w,
      skip_contract (Jsonl.readLineByLine path)
        (records_of (fs w) path) (file_lines (fs w) path) w) /\
  (forall k (w : World (U * list (list Json))),
      0 < k ->
      skip_contract (fun c => Jsonl.read path c (Z.of_nat k))
        (chunks k (records_of (fs w) path)) (file_lines (fs w) path) w /\
      concat (chunks k (records_of (fs w) path)) = records_of (fs w) path) /\
  (forall dirPath entityName p (w : World U),
      let file := JsonlDir.filePath dirPath entityName in
      JsonlDir.find dirPath entityName (fun r => Ok (p r)) w =
        (Ok (List.filter p (records_of (fs w) file)),
         warned (warnings_of (file_lines (fs w) file)) w) /\
      JsonlDir.count dirPath entityName w =
        (Ok (length (records_of (fs w) file)),
         warned (warnings_of (file_lines (fs w) file)) w)) /\
  (forall f before bad after records content w,
      fs w !! path = Some content ->
      rl_lines content = before ++ bad :: after ->
      strict_decode before = Some records ->
      JSON_parse bad = None ->
      quiet truthy f records (fst (locals w)) = true ->
      let out := JsonlFile.read path (userCb (traced f)) w in
      fst out = Throw (SyntaxError bad) /\
      log_of (snd out) = log_of w ++ records /\
      fs (snd out) = fs w) /\
  (forall (f : Json -> U -> Res JsVal * U) (w : World U),
      fs (snd (JsonlFile.read path (userCb f) w)) = fs w).
Proof.
  split; [|split; [|split; [|split]]].
  - intros w f Hq. cbv zeta.
    destruct (readLineByLine_spec (traced f) path w) as (warns & Heq & Hall).
    cbv zeta in Heq, Hall.
    assert (quiet Jsonl.is_true f (records_of (fs w) path) (fst (locals w)) = true)
      as Hq' by (eapply quiet_weaken; [apply is_true_truthy | done]).
    rewrite Heq, Hall.
    + cbn [fst snd]. by rewrite lenient_traced_quiet.
    + destruct (locals w) as [u log]. by rewrite quiet_traced.
  - intros k w Hk. split; [|unfold chunks; by rewrite chunks_from_concat].
    intros f Hq. cbv zeta.
    destruct (lib_read_spec (userCb (traced f)) (traced f) k path w)
      as (warns & Heq & Hall); [done | done |].
    cbv zeta in Heq, Hall. rewrite Heq, Hall.
    + cbn [fst snd]. by rewrite hand_over_traced_quiet.
    + destruct (locals w) as [u log]. by rewrite quiet_traced.
  - intros dirPath entityName p w file. split.
    + apply find_spec.
    + apply count_spec.
  - intros f before bad after records content w Hpath Hlines Hdec Hbad Hq.
    cbv zeta.
    unfold JsonlFile.read, bind. rewrite getRl_spec, Hpath, Hlines.
    rewrite (js_read_loop_malformed (traced f) before bad after records);
      [| done | | done].
    + cbn [fst snd]. split; [done |]. split; [|done].
      unfold log_of. simpl. destruct (locals w) as [u log].
      by rewrite replay_traced.
    + destruct (locals w) as [u log]. by rewrite quiet_traced.
  - intros f w. apply keeps_js_read. intros a. apply keeps_userCb.
Qed.
End LineClaims.

Section MissingFile.
Context {codec : JsonCodec} {L : Type}.
Implicit Types (w : World L).

Lemma with_locals_missing {S} (init : S) path
    (onBatch : list Json -> M (World S) JsVal) k w :
  fs w !! path = None ->
  with_locals init (Jsonl.read path onBatch k) w = (Ok (tt, init), w).
Proof.
  intros H. unfold with_locals. rewrite lib_read_missing by done.
  by destruct w.
Qed.

(** C7, as the code has it.  On a path that does not exist, the streaming
    reader and the facade complete without calling the callback: the
    sequence is empty and the world is as before.  The single-file engine
    does not call the callback either, but its traversals fail with the
    ENOENT of the stream. *)
Theorem missing_file_reads :
  reads_missing_as_empty (U := L) Jsonl.readLineByLine /\
  (forall k, reads_missing_as_empty (U := L) (fun p c => Jsonl.read p c k)) /\
  (forall dirPath entityName w,
      fs w !! JsonlDir.filePath dirPath entityName = None ->
      (forall matchFn, JsonlDir.findOne dirPath entityName matchFn w = (Ok None, w)) /\
      (forall matchFn, JsonlDir.find dirPath entityName matchFn w = (Ok [], w)) /\
      (forall matchFn updateFn,
          JsonlDir.update dirPath entityName matchFn updateFn w = (Ok [], w)) /\
      (forall matchFn, JsonlDir.delete_ dirPath entityName matchFn w = (Ok [], w)) /\
      JsonlDir.count dirPath entityName w = (Ok 0, w)) /\
  (forall path onLine w,
      fs w !! path = None ->
      JsonlFile.read path onLine w = (Throw (ENOENT path), w)) /\
  (forall path onBatch k w,
      fs w !! path = None ->
      JsonlFile.readByBatch path onBatch k w = (Throw (ENOENT path), w)).
Proof.
  split; [|split; [|split; [|split]]].
  - intros path onLine w H. by apply readLineByLine_missing.
  - intros k path onBatch w H. by apply lib_read_missing.
  - intros dirPath entityName w H. repeat split; intros.
    + unfold JsonlDir.findOne, bind. by rewrite with_locals_missing.
    + unfold JsonlDir.find, bind. by rewrite with_locals_missing.
    + unfold JsonlDir.update, bind. by rewrite with_locals_missing.
    + unfold JsonlDir.delete_, bind. by rewrite with_locals_missing.
    + unfold JsonlDir.count, Jsonl.count, bind.
      by rewrite safePathExists_spec, H.
  - intros path onLine w H. unfold JsonlFile.read, bind.
    by rewrite getRl_spec, H.
  - intros path onBatch k w H. unfold JsonlFile.readByBatch, bind.
    by rewrite getRl_spec, H.
Qed.
End MissingFile.

Section FirstLast.
Context {codec : JsonCodec} {L : Type}.
Implicit Types (w : World L).

Lemma decode_line_parsed line r :
  decode_line line = Some r -> line <> EmptyString /\ parsed line = Ok r.
Proof.
  unfold decode_line, parsed. destruct line as [|c rest].
  - done.
  - destruct (trim_is_empty _); [done |]. by intros ->.
Qed.

Lemma head_decodable line rest r :
  decode_line line = Some r -> head (decodable_lines (line :: rest)) = Some r.
Proof. intros H. unfold decodable_lines. simpl. by rewrite H. Qed.

Lemma last_decodable lines line r :
  last lines = Some line -> decode_line line = Some r ->
  last (decodable_lines lines) = Some r.
Proof.
  intros Hl H. apply last_Some in Hl as [before ->].
  unfold decodable_lines. rewrite omap_app. simpl. rewrite H.
  by rewrite last_snoc.
Qed.

Lemma guard_spec (line : option string) :
  JsonlFileTs.not_line line = true <-> line = None \/ line = Some EmptyString.
Proof.
  destruct line as [s|]; simpl.
  - rewrite String.eqb_eq. split; [intros ->; by right | by intros [? | [= ->]]].
  - split; [by left | done].
Qed.

Lemma ts_line (line : option string) w :
  (if JsonlFileTs.not_line line then throw (Err "File is empty")
   else JSON_parse_or_throw (text_of_arg line)) w =
    (if JsonlFileTs.not_line line then Throw (Err "File is empty")
     else parsed (text_of_arg line), w).
Proof.
  destruct (JsonlFileTs.not_line line); [done |].
  unfold JSON_parse_or_throw, parsed. by destruct (JSON_parse _).
Qed.

Lemma js_line (line : option string) w :
  JSON_parse_or_throw (text_of_arg line) w = (parsed (text_of_arg line), w).
Proof. unfold JSON_parse_or_throw, parsed. by destruct (JSON_parse _). Qed.

Lemma ts_guard_iff (line : option string) :
  (if JsonlFileTs.not_line line then Throw (Err "File is empty")
   else parsed (text_of_arg line)) = Throw (Err "File is empty") <->
  line = None \/ line = Some EmptyString.
Proof.
  rewrite <- guard_spec. destruct (JsonlFileTs.not_line line); [done |].
  unfold parsed. by destruct (JSON_parse _).
Qed.

Lemma ts_line_some (line : string) :
  line <> EmptyString ->
  (if JsonlFileTs.not_line (Some line) then Throw (Err "File is empty")
   else parsed (text_of_arg (Some line))) = parsed line.
Proof. intros H. simpl. by destruct line. Qed.

(** C8, as the code has it.  On a file that exists, [first] and [last]
    look at one line of the file as it is, the first and the last, and
    pass over nothing.  Those of the TypeScript engine fail with the
    empty-file error exactly when the file has no line or that line is
    the empty text; otherwise they give what [JSON.parse] gives for that
    line: its value, or its exception when the line is not JSON, whatever
    the other lines are.  Those of the JavaScript engine have no such
    guard: they give what [JSON.parse] gives for that line, and on a file
    without lines its exception on the text [undefined].  In both
    engines, when the first line is a decodable record, [first] returns
    it and it is the first decodable record of the file; and so for
    [last], the last line and the last decodable record. *)
Theorem first_last_read_one_line path content w :
  fs w !! path = Some content ->
  let lines := rl_lines content in
  ((fst (JsonlFileTs.first path w) = Throw (Err "File is empty") <->
    head lines = None \/ head lines = Some EmptyString) /\
   (fst (JsonlFileTs.last path w) = Throw (Err "File is empty") <->
    last lines = None \/ last lines = Some EmptyString)) /\
  ((forall line, head lines = Some line -> line <> EmptyString ->
      JsonlFileTs.first path w = (parsed line, w)) /\
   (forall line, last lines = Some line -> line <> EmptyString ->
      JsonlFileTs.last path w = (parsed line, w))) /\
  ((forall line, head lines = Some line ->
      JsonlFile.first path w = (parsed line, w)) /\
   (forall line, last lines = Some line ->
      JsonlFile.last path w = (parsed line, w)) /\
   (lines = [] ->
      JsonlFile.first path w = (Throw (SyntaxError "undefined"), w) /\
      JsonlFile.last path w = (Throw (SyntaxError "undefined"), w))) /\
  ((forall line r, head lines = Some line -> decode_line line = Some r ->
      head (records_of (fs w) path) = Some r /\
      JsonlFileTs.first path w = (Ok r, w) /\
      JsonlFile.first path w = (Ok r, w)) /\
   (forall line r, last lines = Some line -> decode_line line = Some r ->
      last (records_of (fs w) path) = Some r /\
      JsonlFileTs.last path w = (Ok r, w) /\
      JsonlFile.last path w = (Ok r, w))).
Proof.
  intros Hpath lines.
  assert (JsonlFileTs.first path w =
            (if JsonlFileTs.not_line (head lines) then Throw (Err "File is empty")
             else parsed (text_of_arg (head lines)), w)) as Htf.
  { unfold JsonlFileTs.first, bind. rewrite getRl_spec, Hpath. apply ts_line. }
  assert (JsonlFileTs.last path w =
            (if JsonlFileTs.not_line (last lines) then Throw (Err "File is empty")
             else parsed (text_of_arg (last lines)), w)) as Htl.
  { unfold JsonlFileTs.last, bind. rewrite getRl_spec, Hpath. apply ts_line. }
  assert (JsonlFile.first path w = (parsed (text_of_arg (head lines)), w)) as Hjf.
  { unfold JsonlFile.first, bind. rewrite getRl_spec, Hpath. apply js_line. }
  assert (JsonlFile.last path w = (parsed (text_of_arg (last lines)), w)) as Hjl.
  { unfold JsonlFile.last, bind. rewrite getRl_spec, Hpath. apply js_line. }
  rewrite Htf, Htl, Hjf, Hjl. cbn [fst].
  split; [|split; [|split]].
  - split; apply ts_guard_iff.
  - split; intros line -> Hne; by rewrite ts_line_some.
  - split; [|split].
    + by intros line ->.
    + by intros line ->.
    + intros ->. simpl. unfold parsed. by rewrite JSON_parse_undefined.
  - unfold records_of. rewrite Hpath. fold lines.
    split; intros line r Hline Hdec;
      destruct (decode_line_parsed _ _ Hdec) as [Hne Hp];
      rewrite Hline, ts_line_some by done; simpl; rewrite Hp.
    + split; [|done]. destruct lines as [|l rest]; [done |].
      injection Hline as ->. by apply head_decodable.
    + split; [|done]. by apply (last_decodable lines line).
Qed.
End FirstLast.

Section FacadeClaim.
Context {codec : JsonCodec} {L : Type}.
Implicit Types (w : World L).

(** C9. In the facade, [update] returns the transformed matching records
    and [delete] the records that do not match, in file order, and
    neither changes any file: whatever the caller's functions do, the
    file system after the call is the one before it. *)
Theorem facade_update_delete_project dirPath entityName :
  let file := JsonlDir.filePath dirPath entityName in
  (forall matchFn updateFn w,
      fs (snd (JsonlDir.update dirPath entityName matchFn updateFn w)) = fs w) /\
  (forall matchFn w,
      fs (snd (JsonlDir.delete_ dirPath entityName matchFn w)) = fs w) /\
  (forall (p : Json -> bool) (g : Json -> Json) w,
      fst (JsonlDir.update dirPath entityName
             (fun r => Ok (p r)) (fun r => Ok (g r)) w) =
        Ok (map g (List.filter p (records_of (fs w) file)))) /\
  (forall (p : Json -> bool) w,
      fst (JsonlDir.delete_ dirPath entityName (fun r => Ok (p r)) w) =
        Ok (List.filter (fun r => negb (p r)) (records_of (fs w) file))).
Proof.
  intros file. split; [|split; [|split]].
  - intros matchFn updateFn w. apply keeps_update.
  - intros matchFn w. apply keeps_delete.
  - intros p g w. by rewrite update_spec.
  - intros p w. by rewrite delete_spec.
Qed.
End FacadeClaim.

Section FindWhere.
Context {codec : JsonCodec} {L : Type}.
Implicit Types (w : World L).

Lemma field_undefined attribute fields :
  strict_equals (field attribute fields) VUndefined =
    negb (has_field attribute (JObj fields)).
Proof.
  induction fields as [|[k v] fields IH]; simpl; [done |].
  destruct (String.eqb k attribute); simpl; [by destruct v |]. apply IH.
Qed.

Lemma object_without_prop attribute r :
  object_without attribute r = true -> prop_of r attribute = Ok VUndefined.
Proof.
  unfold object_without. destruct r as [| | | | |fields]; try done. simpl.
  intros H. pose proof (field_undefined attribute fields) as E.
  simpl in E. rewrite H in E.
  destruct (field attribute fields) as [|j]; [done |]. by destruct j.
Qed.

(** The loop of [findWhere(attribute, undefined)] goes through the
    objects that have the field, up to the first reached record that is
    not one of them. *)
Lemma findWhere_loop attribute lines records bad (w : World (option Json)) :
  parsed_prefix lines = (records, bad) ->
  JsonlFile.read_loop
    (fun line =>
       v <- get_prop line attribute ;;
       if strict_equals v VUndefined
       then put_locals (Some line) ;;; ret (VJson (JBool true))
       else ret (VJson (JBool false))) lines w =
    match List.find (fun r => negb (object_with attribute r)) records with
    | None => (ending bad, w)
    | Some JNull => (Throw TypeError, w)
    | Some r => (Ok tt, set_locals (Some r) w)
    end.
Proof.
  revert records w. induction lines as [|line rest IH]; intros records w Hpre.
  - by injection Hpre as <- <-.
  - apply parsed_prefix_cons in Hpre. rewrite read_loop_cons.
    destruct (JSON_parse line) as [r|].
    + destruct Hpre as (rs & -> & Hrest). cbn [List.find].
      unfold bind at 1. unfold get_prop.
      destruct r as [| | | | |fields]; try done.
      cbn [prop_of]. rewrite field_undefined.
      unfold object_with. cbn [is_object isSingleJson andb].
      destruct (has_field attribute (JObj fields)); [|done].
      cbn [negb]. unfold ret at 1. cbn [truthy]. by apply IH.
    + by destruct Hpre as [-> ->].
Qed.

Lemma findWhere_prefix path attribute content records bad w :
  fs w !! path = Some content ->
  parsed_prefix (rl_lines content) = (records, bad) ->
  JsonlFile.findWhere path attribute VUndefined w =
    (match List.find (fun r => negb (object_with attribute r)) records with
     | None => match bad with
               | None => Ok None
               | Some line => Throw (SyntaxError line)
               end
     | Some JNull => Throw TypeError
     | Some r => Ok (Some r)
     end, w).
Proof.
  intros Hpath Hpre.
  unfold JsonlFile.findWhere, bind, with_locals, JsonlFile.read.
  unfold bind. rewrite getRl_spec. simpl. rewrite Hpath.
  rewrite (findWhere_loop attribute _ records bad) by done.
  destruct (List.find _ records) as [r|].
  - destruct r; simpl; unfold ret; f_equal; by destruct w.
  - destruct bad; simpl; unfold ret; f_equal; by destruct w.
Qed.

Lemma find_first_other {A} (p : A -> bool) before r after :
  Forall (fun x => p x = true) before -> p r = false ->
  List.find (fun x => negb (p x)) (before ++ r :: after) = Some r.
Proof.
  intros Hall Hr. induction Hall as [|x before Hx Hall IH]; simpl.
  - by rewrite Hr.
  - by rewrite Hx.
Qed.

Lemma find_no_other {A} (p : A -> bool) l :
  Forall (fun x => p x = true) l -> List.find (fun x => negb (p x)) l = None.
Proof.
  induction 1 as [|x l Hx Hall IH]; simpl; [done |]. by rewrite Hx.
Qed.

Lemma objects_split attribute records :
  Forall (fun x => is_object x = true) records ->
  Forall (fun x => object_with attribute x = true) records \/
  exists before r after,
    records = before ++ r :: after /\
    Forall (fun x => object_with attribute x = true) before /\
    object_without attribute r = true.
Proof.
  induction 1 as [|x l Hx Hall IH]; [by left |].
  destruct (has_field attribute x) eqn:Hf.
  - destruct IH as [IH | (before & r & after & -> & Hb & Hr)].
    + left. constructor; [|done]. unfold object_with. by rewrite Hx, Hf.
    + right. exists (x :: before), r, after. split; [done |].
      split; [|done]. constructor; [|done]. unfold object_with. by rewrite Hx, Hf.
  - right. exists [], x, l. split; [done |]. split; [constructor |].
    unfold object_without. by rewrite Hx, Hf.
Qed.

(** C10, as the code has it.  On a file that exists, for an attribute
    that is not a name every object inherits, with the records that
    [findWhere] can reach, those of the lines before the first line that
    is not JSON: [findWhere(attribute, undefined)] returns the first
    record that is an object without the field [attribute], for which
    reading the field gives [undefined], when every record before it is
    an object with the field, whatever the lines after it; when every
    record it can reach is an object with the field, it returns
    [undefined] on a file whose lines are all JSON, and fails with the
    parser's exception on the first line that is not JSON otherwise;
    when the record [null] comes after objects with the field, it fails
    with the exception of reading a property of [null].  So, when the
    records it can reach are objects, it returns [undefined] exactly when
    every line of the file is JSON and every record has the field; and
    on an object the comparison with [undefined] succeeds exactly when
    the field is absent. *)
Theorem findWhere_undefined_finds_missing_field
    path attribute content records bad w :
  fs w !! path = Some content ->
  parsed_prefix (rl_lines content) = (records, bad) ->
  inherited attribute = false ->
  (forall before r after,
      records = before ++ r :: after ->
      Forall (fun x => object_with attribute x = true) before ->
      object_without attribute r = true ->
      prop_of r attribute = Ok VUndefined /\
      JsonlFile.findWhere path attribute VUndefined w = (Ok (Some r), w)) /\
  (Forall (fun x => object_with attribute x = true) records ->
      JsonlFile.findWhere path attribute VUndefined w =
        (match bad with
         | None => Ok None
         | Some line => Throw (SyntaxError line)
         end, w)) /\
  (forall before after,
      records = before ++ JNull :: after ->
      Forall (fun x => object_with attribute x = true) before ->
      JsonlFile.findWhere path attribute VUndefined w = (Throw TypeError, w)) /\
  (Forall (fun x => is_object x = true) records ->
      (fst (JsonlFile.findWhere path attribute VUndefined w) = Ok None <->
       bad = None /\ Forall (fun x => has_field attribute x = true) records)) /\
  (forall r, is_object r = true ->
      matches attribute VUndefined r = negb (has_field attribute r)).
Proof.
  intros Hpath Hpre _.
  rewrite (findWhere_prefix path attribute content records bad) by done.
  split; [|split; [|split; [|split]]];
    [| | | | intros r Hr; destruct r as [| | | | |fields]; try done;
             unfold matches; cbn [prop_of]; apply field_undefined].
  - intros before r after -> Hbefore Hr.
    split; [by apply object_without_prop |].
    rewrite find_first_other; [| done |].
    + by destruct r.
    + unfold object_without in Hr. unfold object_with.
      destruct (is_object r); [|done]. by destruct (has_field attribute r).
  - intros Hall. by rewrite find_no_other.
  - intros before after -> Hbefore. by rewrite find_first_other.
  - intros Hobj. cbn [fst].
    destruct (objects_split attribute records Hobj)
      as [Hall | (before & r & after & -> & Hb & Hr)].
    + rewrite find_no_other by done.
      assert (Forall (fun x => has_field attribute x = true) records) as Hhas.
      { eapply Forall_impl; [exact Hall |]. intros x Hx.
        unfold object_with in Hx. by apply andb_true_iff in Hx as [_ ?]. }
      destruct bad as [line|]; [|done].
      split; [done | by intros [? _]].
    + rewrite find_first_other; [| done |].
      * unfold object_without in Hr. apply andb_true_iff in Hr as [Hr1 Hr2].
        apply negb_true_iff in Hr2.
        split; [by destruct r |]. intros [_ Hall].
        apply Forall_app in Hall as [_ Hall].
        apply Forall_cons in Hall as [Hall _]. congruence.
      * unfold object_without in Hr. unfold object_with.
        destruct (is_object r); [|done]. by destruct (has_field attribute r).
Qed.
End FindWhere.

(** * [deleteMatch] on a file of objects *)

Section DeleteMatch.
Context {codec : JsonCodec} {L : Type}.
Implicit Types (w : World L).

Lemma deleteMatch_plan (p : Json -> bool) lines records :
  strict_decode lines = Some records ->
  Forall (fun r => is_object r = true) records ->
  scratch_plan (decision (DeleteMatch (fun r => Ok (VJson (JBool (p r)))))) lines =
    Ok (List.filter (fun r => negb (p r)) records).
Proof.
  revert records. induction lines as [|line rest IH]; intros records Hdec Hall.
  - by injection Hdec as <-.
  - apply strict_decode_cons in Hdec as (r & rs & -> & _ & Hparse & Hrest).
    apply Forall_cons in Hall as [Hr Hall].
    cbn [scratch_plan]. rewrite Hparse. cbn [decision truthy List.filter].
    destruct (p r); cbn [negb].
    + by apply IH.
    + destruct r as [| | | | |fields]; try discriminate.
      by rewrite (IH rs).
Qed.

(** When at least one record survives, [deleteMatch] leaves exactly the
    survivors, in order; when every record matches, nothing is written to
    the scratch file, the rename fails, and the file keeps every
    record. *)
Lemma deleteMatch_spec src path (p : Json -> bool) records w :
  let tmp := generateTempFilePath src EmptyString in
  fs w !! tmp = None ->
  file_records (fs w) path = Some records ->
  Forall (fun r => is_object r = true) records ->
  JsonlFile.deleteMatch src path (fun r => Ok (VJson (JBool (p r)))) w =
    match List.filter (fun r => negb (p r)) records with
    | [] => (Throw (ENOENT tmp), w)
    | survivor :: survivors =>
        (Ok tt,
         set_fs (fun files => <[path := serialize (survivor :: survivors)]> files) w)
    end.
Proof.
  intros tmp Hfresh Hrec Hall. unfold file_records in Hrec.
  pose proof (mutate_spec src path
                (DeleteMatch (fun r => Ok (VJson (JBool (p r))))) w Hfresh) as H.
  cbn [mutate] in H. rewrite H.
  destruct (fs w !! path) as [content|]; [|done].
  by rewrite (deleteMatch_plan p _ records).
Qed.
End DeleteMatch.

(** * Lines of a text that is extended *)

Lemma last_char_cons c rest :
  rest <> EmptyString -> last_char (String c rest) = last_char rest.
Proof. by destruct rest. Qed.

Lemma last_char_some text :
  text <> EmptyString -> exists c, last_char text = Some c.
Proof.
  induction text as [|c rest IH]; [done | intros _].
  destruct rest as [|c' rest']; [by exists c |].
  rewrite last_char_cons by done. by apply IH.
Qed.

Lemma gap_cons cur cur' c rest :
  rest <> EmptyString -> gap cur (String c rest) = gap cur' rest.
Proof.
  intros H. unfold gap. rewrite last_char_cons by done.
  by destruct (last_char_some rest H) as [c' ->].
Qed.

Lemma gap_one cur c :
  gap cur (String c EmptyString) = if Ascii.eqb c LF then [EmptyString] else [].
Proof. reflexivity. Qed.

Lemma string_snoc_nonempty cur c : cur +:+ String c EmptyString <> EmptyString.
Proof. destruct cur; discriminate. Qed.

Lemma gap_nonempty_cur cur' cur text :
  cur <> EmptyString -> cur' <> EmptyString -> gap cur text = gap cur' text.
Proof.
  intros H H'. unfold gap. destruct (last_char text); [done |].
  destruct cur; [done |]. by destruct cur'.
Qed.

(** The lines of a text after which a line feed and more text are
    written: the lines of the text, the empty line of [gap], and the lines
    of what was written after the line feed. *)
Lemma rl_scan_app_LF_bounded n cur text more :
  String.length text <= n ->
  rl_scan cur (text +:+ String LF more) =
    rl_scan cur text ++ gap cur text ++ rl_scan EmptyString more.
Proof.
  revert cur text. induction n as [|n IH]; intros cur text Hlen.
  - destruct text; [|simpl in Hlen; lia].
    rewrite string_app_nil_l. simpl. by destruct cur.
  - destruct text as [|c rest].
    { rewrite string_app_nil_l. simpl. by destruct cur. }
    simpl in Hlen. assert (String.length rest <= n) as Hrest by lia.
    rewrite string_app_cons. cbn [rl_scan].
    destruct (Ascii.eqb c LF) eqn:Hlf.
    { rewrite IH by done. simpl. f_equal. f_equal.
      destruct rest as [|c' rest'].
      - rewrite gap_one, Hlf. done.
      - by rewrite (gap_cons cur EmptyString). }
    destruct (Ascii.eqb c CR) eqn:Hcr.
    + destruct rest as [|c' rest'].
      { rewrite string_app_nil_l. simpl. rewrite gap_one, Hlf. done. }
      rewrite string_app_cons.
      destruct (Ascii.eqb c' LF) eqn:Hlf'.
      * simpl in Hrest. rewrite IH by lia. simpl. f_equal. f_equal.
        destruct rest' as [|c'' rest''].
        -- rewrite (gap_cons cur cur) by done. rewrite gap_one, Hlf'. done.
        -- rewrite (gap_cons cur cur) by done.
           by rewrite (gap_cons cur EmptyString).
      * rewrite <- string_app_cons. rewrite IH by done. simpl. f_equal. f_equal.
        by rewrite (gap_cons cur EmptyString).
    + rewrite IH by done. f_equal. f_equal.
      destruct rest as [|c' rest'].
      * rewrite gap_one, Hlf. unfold gap. simpl.
        by destruct (cur +:+ String c EmptyString) eqn:E;
          [apply string_snoc_nonempty in E |].
      * by rewrite (gap_cons cur (cur +:+ String c EmptyString)).
Qed.

Lemma rl_scan_app_LF cur text more :
  rl_scan cur (text +:+ String LF more) =
    rl_scan cur text ++ gap cur text ++ rl_scan EmptyString more.
Proof. by apply (rl_scan_app_LF_bounded (String.length text)). Qed.

Lemma rl_lines_app_LF text more :
  rl_lines (text +:+ (newline +:+ more)) =
    rl_lines text ++ gap EmptyString text ++ rl_lines more.
Proof. unfold rl_lines, newline. rewrite string_app_cons, string_app_nil_l. apply rl_scan_app_LF. Qed.

(** A text without line ending is one line, or none when it is empty. *)
Lemma rl_scan_plain cur text :
  plain text = true ->
  rl_scan cur text =
    match cur +:+ text with
    | EmptyString => []
    | line => [line]
    end.
Proof.
  revert cur. induction text as [|c rest IH]; intros cur Hp.
  - rewrite string_app_nil_r. simpl. by destruct cur.
  - simpl in Hp. apply andb_true_iff in Hp as [Hc Hp].
    apply andb_true_iff in Hc as [Hlf Hcr].
    apply negb_true_iff in Hlf, Hcr.
    cbn [rl_scan]. rewrite Hlf, Hcr. rewrite IH by done.
    by rewrite string_app_assoc, string_app_cons, string_app_nil_l.
Qed.

Lemma rl_lines_plain text :
  plain text = true -> text <> EmptyString -> rl_lines text = [text].
Proof.
  intros Hp Hne. unfold rl_lines. rewrite rl_scan_plain by done.
  rewrite string_app_nil_l. by destruct text.
Qed.

Lemma plain_last_char text :
  plain text = true -> ends_with_LF text = false.
Proof.
  unfold ends_with_LF. induction text as [|c rest IH]; [done |].
  simpl. intros Hp. apply andb_true_iff in Hp as [Hc Hp].
  apply andb_true_iff in Hc as [Hlf _]. apply negb_true_iff in Hlf.
  destruct rest as [|c' rest']; [done |]. by apply IH.
Qed.

Lemma gap_ends_with_LF text :
  text <> EmptyString ->
  gap EmptyString text = if ends_with_LF text then [EmptyString] else [].
Proof.
  intros H. unfold gap, ends_with_LF.
  by destruct (last_char_some text H) as [c ->].
Qed.

Lemma ends_with_LF_app text more :
  more <> EmptyString -> ends_with_LF (text +:+ more) = ends_with_LF more.
Proof.
  intros H. unfold ends_with_LF. induction text as [|c rest IH]; [done |].
  rewrite string_app_cons. rewrite last_char_cons; [done |].
  intros E. apply string_app_eq_nil in E as [_ E]. done.
Qed.

(** The lines of a text written by joining lines. *)
Lemma rl_lines_join_lines lines :
  Forall (fun line => plain line = true /\ line <> EmptyString) lines ->
  rl_lines (join_lines lines) = lines.
Proof.
  induction 1 as [|line rest [Hp Hne] Hrest IH]; [done |].
  destruct rest as [|line' rest'].
  - simpl. by apply rl_lines_plain.
  - change (join_lines (line :: line' :: rest'))
      with (line +:+ (newline +:+ join_lines (line' :: rest'))).
    rewrite rl_lines_app_LF, IH, rl_lines_plain by done.
    rewrite gap_ends_with_LF by done. by rewrite plain_last_char.
Qed.

Lemma join_lines_ends lines :
  lines <> [] ->
  Forall (fun line => plain line = true /\ line <> EmptyString) lines ->
  join_lines lines <> EmptyString /\ ends_with_LF (join_lines lines) = false.
Proof.
  intros Hne Hall. induction Hall as [|line rest [Hp Hl] Hrest IH]; [done |].
  destruct rest as [|line' rest'].
  - simpl. split; [done | by apply plain_last_char].
  - change (join_lines (line :: line' :: rest'))
      with (line +:+ (newline +:+ join_lines (line' :: rest'))).
    destruct IH as [IH1 IH2]; [done |]. split.
    + intros E. by apply string_app_eq_nil in E as [E _].
    + rewrite ends_with_LF_app by (by unfold newline; rewrite string_app_cons).
      by rewrite ends_with_LF_app.
Qed.

(** * Adding records *)

Section FaithfulFacts.
Context {codec : JsonCodec}.

Lemma faithful_line r :
  faithful r ->
  plain (JSON_stringify r) = true /\ JSON_stringify r <> EmptyString.
Proof.
  intros (Hp & Hb & _). split; [done |]. intros E. by rewrite E in Hb.
Qed.

Lemma faithful_lines rs :
  Forall faithful rs ->
  Forall (fun line => plain line = true /\ line <> EmptyString)
    (map JSON_stringify rs).
Proof.
  induction 1 as [|r rs Hr _ IH]; [constructor |].
  simpl. constructor; [by apply faithful_line | done].
Qed.

Lemma faithful_decode r :
  faithful r -> decode_line (JSON_stringify r) = Some r.
Proof. intros (_ & Hb & Hparse). unfold decode_line. by rewrite Hb. Qed.

Lemma strict_decode_join before rest rs1 rs2 :
  strict_decode before = Some rs1 ->
  strict_decode rest = Some rs2 ->
  strict_decode (before ++ rest) = Some (rs1 ++ rs2).
Proof.
  revert rs1. induction before as [|line before IH]; intros rs1 H1 H2.
  - by injection H1 as <-.
  - apply strict_decode_cons in H1 as (r & rs & -> & Hne & Hp & H1).
    simpl. unfold decode_line. rewrite Hne, Hp.
    by rewrite (IH rs).
Qed.

Lemma strict_decode_stringify rs :
  Forall faithful rs -> strict_decode (map JSON_stringify rs) = Some rs.
Proof.
  induction 1 as [|r rs Hr _ IH]; [done |].
  simpl. by rewrite faithful_decode, IH.
Qed.

Lemma decodable_lines_stringify rs :
  Forall faithful rs -> decodable_lines (map JSON_stringify rs) = rs.
Proof.
  induction 1 as [|r rs Hr _ IH]; [done |].
  simpl map. rewrite decodable_lines_cons, IH.
  destruct Hr as (_ & -> & ->). done.
Qed.

Lemma strict_decode_length lines rs :
  strict_decode lines = Some rs -> length lines = length rs.
Proof.
  revert rs. induction lines as [|line rest IH]; intros rs H.
  - by injection H as <-.
  - apply strict_decode_cons in H as (r & rs' & -> & _ & _ & H).
    simpl. f_equal. by apply IH.
Qed.

(** The lines of a file written from faithful records. *)
Lemma serialize_lines rs :
  Forall faithful rs -> rl_lines (serialize rs) = map JSON_stringify rs.
Proof. intros H. apply rl_lines_join_lines. by apply faithful_lines. Qed.

Lemma serialize_records rs files path :
  Forall faithful rs ->
  file_records (<[path := serialize rs]> files) path = Some rs.
Proof.
  intros H. unfold file_records. rewrite lookup_insert_eq.
  rewrite serialize_lines by done. by apply strict_decode_stringify.
Qed.

Lemma serialize_appendable rs files path :
  Forall faithful rs ->
  appendable (<[path := serialize rs]> files) path rs.
Proof.
  intros H. unfold appendable. rewrite lookup_insert_eq.
  rewrite serialize_lines by done. split; [by apply strict_decode_stringify |].
  destruct rs as [|r rs']; [done |].
  by apply join_lines_ends; [| apply faithful_lines].
Qed.
End FaithfulFacts.

Section AddMore.
Context {codec : JsonCodec} {L : Type}.
Implicit Types (w : World L) (path : string).

Lemma appendFile_after_ensure path text w :
  (prefix <- JsonlFile.ensureFileAndGetPrefix path ;;
   appendFile path (prefix +:+ text)) w =
    (Ok tt, set_fs (fun files => <[path := extended files path text]> files) w).
Proof.
  unfold bind. rewrite ensureFileAndGetPrefix_spec. unfold extended.
  destruct (fs w !! path) as [content|] eqn:Hp.
  - unfold appendFile, set_fs. rewrite Hp. simpl.
    destruct (bool_decide (content = EmptyString)) eqn:E; [|done].
    apply bool_decide_eq_true in E as ->. by rewrite !string_app_nil_l.
  - unfold appendFile, set_fs. simpl. rewrite lookup_insert_eq. simpl.
    by rewrite insert_insert_eq, Hp, !string_app_nil_l.
Qed.

Lemma add_spec path r w :
  is_object r = true ->
  JsonlFile.add path (VJson r) w =
    (Ok tt,
     set_fs (fun files => <[path := extended files path (JSON_stringify r)]> files) w).
Proof.
  intros Hr. unfold JsonlFile.add, JsonlFile.addText.
  unfold is_object in Hr. rewrite Hr. simpl.
  apply appendFile_after_ensure.
Qed.

Lemma addManyText_spec path lines w :
  JsonlFile.addManyText path lines w =
    (Ok tt,
     set_fs (fun files => <[path := extended files path (join_lines lines)]> files) w).
Proof. apply appendFile_after_ensure. Qed.

(** The lines of the file after one line has been added. *)
Lemma extended_lines files path text :
  plain text = true -> text <> EmptyString ->
  rl_lines (extended files path text) =
    match files !! path with
    | None => [text]
    | Some content =>
        rl_lines content ++
        (if ends_with_LF content then [EmptyString] else []) ++ [text]
    end.
Proof.
  intros Hp Hne. unfold extended.
  destruct (files !! path) as [content|]; [|by apply rl_lines_plain].
  destruct (bool_decide (content = EmptyString)) eqn:E.
  - apply bool_decide_eq_true in E as ->. simpl. by apply rl_lines_plain.
  - apply bool_decide_eq_false in E.
    rewrite rl_lines_app_LF, gap_ends_with_LF by done.
    by rewrite (rl_lines_plain text).
Qed.

Lemma extended_ends files path text :
  plain text = true -> text <> EmptyString ->
  ends_with_LF (extended files path text) = false.
Proof.
  intros Hp Hne. unfold extended.
  destruct (files !! path) as [content|]; [|by apply plain_last_char].
  destruct (bool_decide (content = EmptyString)); [by apply plain_last_char |].
  rewrite ends_with_LF_app by (by unfold newline; rewrite string_app_cons).
  rewrite ends_with_LF_app by done. by apply plain_last_char.
Qed.

(** X1. Adding an object to a file that is missing, or that holds records
    one per line without a final line feed, completes; the file then
    holds the same records followed by the new one and can be extended
    again; [last] returns the new record, [count] has gone up by one, and
    no other file has changed. *)
Theorem add_then_read_back path o rs w :
  is_object o = true -> faithful o ->
  appendable (fs w) path rs ->
  let out := JsonlFile.add path (VJson o) w in
  fst out = Ok tt /\
  appendable (fs (snd out)) path (rs ++ [o]) /\
  file_records (fs (snd out)) path = Some (rs ++ [o]) /\
  JsonlFile.last path (snd out) = (Ok o, snd out) /\
  JsonlFile.count path (snd out) = (Ok (S (length rs)), snd out) /\
  (forall other, other <> path -> fs (snd out) !! other = fs w !! other).
Proof.
  intros Ho Hf Happ. cbv zeta. rewrite add_spec by done. cbn [fst snd].
  destruct (faithful_line o Hf) as [Hp Hne].
  assert (rl_lines (extended (fs w) path (JSON_stringify o)) =
          file_lines (fs w) path ++ [JSON_stringify o] /\
          strict_decode (file_lines (fs w) path) = Some rs) as [Hlines Hdec].
  { rewrite extended_lines by done. unfold appendable in Happ. unfold file_lines.
    destruct (fs w !! path) as [content|]; [|by subst rs].
    destruct Happ as [Hdec Hend]. by rewrite Hend. }
  assert (strict_decode (rl_lines (extended (fs w) path (JSON_stringify o))) =
          Some (rs ++ [o])) as Hall.
  { rewrite Hlines. apply strict_decode_join; [done |].
    simpl. by rewrite faithful_decode. }
  split; [done |]. split; [|split; [|split; [|split]]].
  - unfold appendable. simpl. rewrite lookup_insert_eq.
    split; [done | by apply extended_ends].
  - unfold file_records. simpl. by rewrite lookup_insert_eq.
  - unfold JsonlFile.last, bind. rewrite getRl_spec. simpl.
    rewrite lookup_insert_eq, Hlines, last_snoc. simpl.
    unfold JSON_parse_or_throw. by destruct Hf as (_ & _ & ->).
  - unfold JsonlFile.count, bind. rewrite getRl_spec. simpl.
    rewrite lookup_insert_eq, Hlines. unfold ret. do 2 f_equal.
    rewrite length_app. simpl.
    rewrite (strict_decode_length _ rs) by done. lia.
  - intros other Hne'. simpl. by rewrite lookup_insert_ne.
Qed.

(** X2. Adding an object to a file that holds records one per line and
    ends with a line feed, as the files of most tools do, puts an empty
    line before the new record: [count] goes up by two, the file no
    longer reads as a file of records, and [read] fails on it with the
    parser's exception on the empty text, after the old records. *)
Theorem add_after_final_line_feed path o rs content w :
  is_object o = true -> faithful o ->
  fs w !! path = Some content ->
  strict_decode (rl_lines content) = Some rs ->
  ends_with_LF content = true ->
  JSON_parse EmptyString = None ->
  let out := JsonlFile.add path (VJson o) w in
  fst out = Ok tt /\
  file_lines (fs (snd out)) path =
    file_lines (fs w) path ++ [EmptyString; JSON_stringify o] /\
  JsonlFile.count path w = (Ok (length rs), w) /\
  JsonlFile.count path (snd out) = (Ok (length rs + 2), snd out) /\
  file_records (fs (snd out)) path = None /\
  (forall f : Json -> L -> Res JsVal * L,
      quiet truthy f rs (locals w) = true ->
      JsonlFile.read path (userCb f) (snd out) =
        (Throw (SyntaxError EmptyString),
         set_locals (replay f rs (locals w)) (snd out))).
Proof.
  intros Ho Hf Hpath Hdec Hend Hempty. cbv zeta.
  rewrite add_spec by done. cbn [fst snd].
  destruct (faithful_line o Hf) as [Hp Hne].
  assert (rl_lines (extended (fs w) path (JSON_stringify o)) =
          rl_lines content ++ [EmptyString; JSON_stringify o]) as Hlines.
  { rewrite extended_lines by done. by rewrite Hpath, Hend. }
  pose proof (strict_decode_length _ _ Hdec) as Hlen.
  split; [done |]. split; [|split; [|split; [|split]]].
  - unfold file_lines. simpl. by rewrite lookup_insert_eq, Hpath.
  - unfold JsonlFile.count, bind. rewrite getRl_spec, Hpath. unfold ret.
    by rewrite Hlen.
  - unfold JsonlFile.count, bind. rewrite getRl_spec. simpl.
    rewrite lookup_insert_eq, Hlines. unfold ret. do 2 f_equal.
    rewrite length_app. simpl. lia.
  - unfold file_records. simpl. rewrite lookup_insert_eq, Hlines.
    destruct (strict_decode (rl_lines content ++ _)) as [rs'|] eqn:E; [|done].
    apply strict_decode_app in E as (rs1 & rs2 & _ & _ & E). done.
  - intros f Hq. unfold JsonlFile.read, bind. rewrite getRl_spec. simpl.
    rewrite lookup_insert_eq, Hlines.
    by rewrite (js_read_loop_malformed f _ EmptyString _ rs).
Qed.

Lemma extended_nonempty files path text :
  text <> EmptyString -> extended files path text <> EmptyString.
Proof.
  intros H. unfold extended. destruct (files !! path) as [content|]; [|done].
  destruct (bool_decide (content = EmptyString)) eqn:E; [done |].
  apply bool_decide_eq_false in E. intros E'.
  by apply string_app_eq_nil in E' as [E' _].
Qed.

Lemma extended_twice files path text more :
  text <> EmptyString ->
  extended (<[path := extended files path text]> files) path more =
    extended files path (text +:+ (newline +:+ more)).
Proof.
  intros H. unfold extended at 1. rewrite lookup_insert_eq.
  rewrite bool_decide_eq_false_2 by (by apply extended_nonempty).
  unfold extended. destruct (files !! path) as [content|]; [|done].
  destruct (bool_decide (content = EmptyString)); [done |].
  by rewrite !string_app_assoc.
Qed.

Lemma add_each_cons path o os :
  add_each (L := L) path (o :: os) =
    (JsonlFile.add path (VJson o) ;;; add_each path os).
Proof. reflexivity. Qed.

(** What repeated [add] writes. *)
Lemma add_each_spec path o os w :
  Forall (fun r => is_object r = true) (o :: os) ->
  add_each path (o :: os) w =
    (Ok tt,
     set_fs (fun files =>
               <[path := extended files path (serialize (o :: os))]> files) w).
Proof.
  revert o w. induction os as [|o' os IH]; intros o w Hall.
  - rewrite add_each_cons. unfold bind.
    apply Forall_cons in Hall as [Ho _]. rewrite add_spec by done.
    by rewrite serialize_one.
  - apply Forall_cons in Hall as [Ho Hall].
    rewrite add_each_cons. unfold bind at 1. rewrite add_spec by done.
    rewrite IH by done. f_equal. apply world_eq; try done. simpl.
    rewrite insert_insert_eq. f_equal.
    rewrite extended_twice; [by rewrite serialize_cons |].
    destruct o; try discriminate. apply JSON_stringify_object.
Qed.

Lemma forallb_objects (items : list Json) :
  forallb (fun o => isSingleJson (VJson o)) items = true <->
  Forall (fun r => is_object r = true) items.
Proof. rewrite forallb_forall, List.Forall_forall. done. Qed.

(** X3. On every file, [addMany] of an array of objects does what [add]
    does when it is called on the objects one after the other. *)
Theorem addMany_is_repeated_add path os w :
  Forall (fun r => is_object r = true) os ->
  JsonlFile.addMany path (VJson (JArr os)) w = add_each path os w.
Proof.
  intros Hall. destruct os as [|o os]; [done |].
  rewrite add_each_spec by done.
  unfold JsonlFile.addMany. cbn [length Nat.eqb].
  apply forallb_objects in Hall as ->. cbn [negb].
  by rewrite addManyText_spec.
Qed.

Lemma add_each_app path good rest w :
  add_each path (good ++ rest) w = (add_each path good ;;; add_each path rest) w.
Proof.
  revert w. induction good as [|o good IH]; intros w; [done |].
  simpl app. rewrite !add_each_cons. unfold bind in *.
  destruct (JsonlFile.add path (VJson o) w) as [[[]|e] w']; [|done].
  apply IH.
Qed.

(** X4. [addMany] checks its argument before it writes: given something
    that is not an array, or an array one element of which is not an
    object, it fails and leaves the world as it was, where [add] called
    on the elements in turn would have written those before the
    offending one; given the empty array it completes and does not
    create the file. *)
Theorem addMany_checks_before_writing path w :
  (forall os, (forall items, os <> VJson (JArr items)) ->
      JsonlFile.addMany path os w =
        (Throw (Err "addMany() only accepts an array of json objects"), w)) /\
  (forall good bad rest,
      Forall (fun r => is_object r = true) good ->
      is_object bad = false ->
      JsonlFile.addMany path (VJson (JArr (good ++ bad :: rest))) w =
        (Throw (Err "addMany() only accepts an array of json objects"), w) /\
      add_each path (good ++ bad :: rest) w =
        (Throw (Err "add() only accepts a single json object"),
         snd (add_each path good w))) /\
  JsonlFile.addMany path (VJson (JArr [])) w = (Ok tt, w) /\
  fs (snd (JsonlFile.addMany path (VJson (JArr [])) w)) !! path = fs w !! path.
Proof.
  split; [|split; [|split]]; [| |done..].
  - intros os Hos. destruct os as [|j]; [done |].
    destruct j; try done. by destruct (Hos items).
  - intros good bad rest Hgood Hbad. split.
    + unfold JsonlFile.addMany.
      destruct (good ++ bad :: rest) as [|x l] eqn:E; [by destruct good |].
      cbn [length Nat.eqb]. rewrite <- E.
      destruct (forallb _ (good ++ bad :: rest)) eqn:Hall; [|done].
      apply forallb_objects in Hall. apply Forall_app in Hall as [_ Hall].
      apply Forall_cons in Hall as [Hb _]. congruence.
    + rewrite add_each_app. unfold bind.
      destruct good as [|g good'].
      * change (add_each path [] w) with (Ok tt, w). cbn [snd].
        rewrite add_each_cons. unfold bind. by rewrite add_refused.
      * rewrite add_each_spec by done. cbn [snd].
        rewrite add_each_cons. unfold bind. by rewrite add_refused.
Qed.

Lemma extended_lines_any files path text :
  rl_lines (extended files path text) =
    match files !! path with
    | None => rl_lines text
    | Some content =>
        rl_lines content ++
        (if ends_with_LF content then [EmptyString] else []) ++ rl_lines text
    end.
Proof.
  unfold extended. destruct (files !! path) as [content|]; [|done].
  destruct (bool_decide (content = EmptyString)) eqn:E.
  - by apply bool_decide_eq_true in E as ->.
  - apply bool_decide_eq_false in E.
    by rewrite rl_lines_app_LF, gap_ends_with_LF.
Qed.

Lemma extended_ends_any files path text :
  text <> EmptyString -> ends_with_LF text = false ->
  ends_with_LF (extended files path text) = false.
Proof.
  intros Hne Hend. unfold extended.
  destruct (files !! path) as [content|]; [|done].
  destruct (bool_decide (content = EmptyString)); [done |].
  rewrite ends_with_LF_app by (by unfold newline; rewrite string_app_cons).
  by rewrite ends_with_LF_app.
Qed.

(** X5. [addMany] of an array of objects that the codec is faithful on,
    to a file that is missing or holds records one per line without a
    final line feed: it completes and the file can be extended again;
    when the array is not empty the file then holds the old records
    followed by the new ones, in the order of the array, and [count]
    returns the number of old and new records. *)
Theorem addMany_then_read_back path os rs w :
  Forall (fun r => is_object r = true) os ->
  Forall faithful os ->
  appendable (fs w) path rs ->
  let out := JsonlFile.addMany path (VJson (JArr os)) w in
  fst out = Ok tt /\
  appendable (fs (snd out)) path (rs ++ os) /\
  (os <> [] ->
   file_records (fs (snd out)) path = Some (rs ++ os) /\
   JsonlFile.count path (snd out) = (Ok (length rs + length os), snd out)) /\
  (forall other, other <> path -> fs (snd out) !! other = fs w !! other).
Proof.
  intros Hobj Hfaith Happ. cbv zeta.
  destruct os as [|o os'] eqn:Hos.
  { cbn [fst snd]. rewrite app_nil_r. simpl. done. }
  rewrite <- Hos in *.
  assert (JsonlFile.addMany path (VJson (JArr os)) w =
          (Ok tt,
           set_fs (fun files => <[path := extended files path (serialize os)]> files) w))
    as ->.
  { rewrite Hos. unfold JsonlFile.addMany. cbn [length Nat.eqb].
    rewrite <- Hos. apply forallb_objects in Hobj as ->. cbn [negb].
    by rewrite addManyText_spec. }
  cbn [fst snd].
  assert (rl_lines (extended (fs w) path (serialize os)) =
          file_lines (fs w) path ++ map JSON_stringify os /\
          strict_decode (file_lines (fs w) path) = Some rs) as [Hlines Hdec].
  { rewrite extended_lines_any, serialize_lines by done.
    unfold appendable in Happ. unfold file_lines.
    destruct (fs w !! path) as [content|]; [|by subst rs].
    destruct Happ as [Hdec Hend]. by rewrite Hend. }
  assert (strict_decode (rl_lines (extended (fs w) path (serialize os))) =
          Some (rs ++ os)) as Hall.
  { rewrite Hlines. apply strict_decode_join; [done |].
    by apply strict_decode_stringify. }
  assert (os <> []) as Hne by (by rewrite Hos).
  destruct (join_lines_ends (map JSON_stringify os)) as [Hne' Hend'].
  { by rewrite Hos. }
  { by apply faithful_lines. }
  split; [done |]. split; [|split].
  - unfold appendable. simpl. rewrite lookup_insert_eq.
    split; [done |]. by apply extended_ends_any.
  - intros _. split.
    + unfold file_records. simpl. by rewrite lookup_insert_eq.
    + unfold JsonlFile.count, bind. rewrite getRl_spec. simpl.
      rewrite lookup_insert_eq, Hlines. unfold ret. do 2 f_equal.
      rewrite length_app, length_map.
      by rewrite (strict_decode_length _ rs).
  - intros other Ho. simpl. by rewrite lookup_insert_ne.
Qed.

(** X6. On a path that holds no file, [deleteFile] fails with ENOENT and
    changes nothing, and [add] followed by [deleteFile] leaves the world
    as it was before the two calls. *)
Theorem add_then_deleteFile_restores path o w :
  is_object o = true ->
  fs w !! path = None ->
  JsonlFile.deleteFile path w = (Throw (ENOENT path), w) /\
  (JsonlFile.add path (VJson o) ;;; JsonlFile.deleteFile path) w = (Ok tt, w).
Proof.
  intros Ho Hp. split.
  - unfold JsonlFile.deleteFile, rm. by rewrite Hp.
  - unfold bind. rewrite add_spec by done.
    unfold JsonlFile.deleteFile, rm. simpl. rewrite lookup_insert_eq.
    f_equal. apply world_eq; try done. simpl.
    by rewrite delete_insert_id.
Qed.
End AddMore.

(** * The queries of the single-file engine *)

Section ReadExt.
Context {codec : JsonCodec} {U : Type}.
Implicit Types (w : World U).

(** [read] sees its callback only through what it does. *)
Lemma read_loop_ext (c c' : Json -> M (World U) JsVal) lines w :
  (forall r w, c r w = c' r w) ->
  JsonlFile.read_loop c lines w = JsonlFile.read_loop c' lines w.
Proof.
  intros H. revert w. induction lines as [|line rest IH]; intros w; [done |].
  rewrite !read_loop_cons. destruct (JSON_parse line) as [r|]; [|done].
  rewrite H. destruct (c' r w) as [[v|e] w']; [|done].
  by destruct (truthy v).
Qed.

Lemma read_ext (c c' : Json -> M (World U) JsVal) path w :
  (forall r w, c r w = c' r w) ->
  JsonlFile.read path c w = JsonlFile.read path c' w.
Proof.
  intros H. unfold JsonlFile.read, bind.
  destruct (getRl path w) as [[lines|e] w']; [|done].
  by apply read_loop_ext.
Qed.

Lemma js_read_acts (c : Json -> M (World U) JsVal) f path records w :
  acts_as c f ->
  file_records (fs w) path = Some records ->
  JsonlFile.read path c w =
    (fst (hand_over truthy f records (locals w)),
     set_locals (snd (hand_over truthy f records (locals w))) w).
Proof.
  intros Hc Hrec. rewrite (read_ext c (userCb f)) by apply Hc.
  by apply js_read_spec.
Qed.
End ReadExt.

Section Collect.
Context {U : Type}.
Implicit Types (matchFn : Json -> Res JsVal) (step : U -> Json -> U).

(** The callback of a query that keeps a tally of the records its
    predicate holds of. *)
Lemma tally_returns matchFn step records u :
  returns_on matchFn records ->
  hand_over truthy
    (fun line u =>
       match matchFn line with
       | Ok m => (Ok VUndefined, if truthy m then step u line else u)
       | Throw e => (Throw e, u)
       end) records u =
    (Ok tt, fold_left step (List.filter (holds_of matchFn) records) u).
Proof.
  intros H. revert u. induction H as [|r rs [v Hv] _ IH]; intros u; [done |].
  cbn [hand_over List.filter]. unfold holds_of at 1. rewrite Hv. cbn [truthy].
  rewrite IH. by destruct (truthy v).
Qed.

Lemma tally_throws matchFn step before r after e u :
  returns_on matchFn before ->
  matchFn r = Throw e ->
  fst (hand_over truthy
         (fun line u =>
            match matchFn line with
            | Ok m => (Ok VUndefined, if truthy m then step u line else u)
            | Throw e => (Throw e, u)
            end) (before ++ r :: after) u) = Throw e.
Proof.
  intros H He. revert u. induction H as [|x xs [v Hv] _ IH]; intros u.
  - simpl. by rewrite He.
  - simpl app. cbn [hand_over]. rewrite Hv. cbn [truthy]. apply IH.
Qed.
End Collect.

Lemma fold_left_snoc {A} (l acc : list A) :
  fold_left (fun found line => found ++ [line]) l acc = acc ++ l.
Proof.
  revert acc. induction l as [|x l IH]; intros acc; simpl.
  - by rewrite app_nil_r.
  - rewrite IH. by rewrite <- app_assoc.
Qed.

Lemma fold_left_count {A} (l : list A) (n : nat) :
  fold_left (fun lineCount _ => S lineCount) l n = n + length l.
Proof.
  revert n. induction l as [|x l IH]; intros n; simpl; [lia |].
  rewrite IH. lia.
Qed.

Section Queries.
Context {codec : JsonCodec} {L : Type}.
Implicit Types (w : World L) (matchFn : Json -> Res JsVal).

Lemma findMatch_acts matchFn :
  acts_as
    (fun line : Json =>
       matched <- pureCb (L := list Json) matchFn line ;;
       (if truthy matched
        then found <- get_locals ;; put_locals (found ++ [line])
        else ret tt) ;;;
       ret VUndefined)
    (fun line found =>
       match matchFn line with
       | Ok m => (Ok VUndefined, if truthy m then found ++ [line] else found)
       | Throw e => (Throw e, found)
       end).
Proof.
  intros line w. unfold bind, pureCb, userCb, get_locals, put_locals, ret.
  destruct (matchFn line) as [m|e]; [|by rewrite set_locals_id].
  destruct (truthy m); [done | by rewrite set_locals_id].
Qed.

Lemma countMatch_acts matchFn :
  acts_as
    (fun line : Json =>
       matched <- pureCb (L := nat) matchFn line ;;
       (if truthy matched
        then lineCount <- get_locals ;; put_locals (S lineCount)
        else ret tt) ;;;
       ret VUndefined)
    (fun line lineCount =>
       match matchFn line with
       | Ok m => (Ok VUndefined, if truthy m then S lineCount else lineCount)
       | Throw e => (Throw e, lineCount)
       end).
Proof.
  intros line w. unfold bind, pureCb, userCb, get_locals, put_locals, ret.
  destruct (matchFn line) as [m|e]; [|by rewrite set_locals_id].
  destruct (truthy m); [done | by rewrite set_locals_id].
Qed.

Lemma with_locals_read {S} (init : S) (c : Json -> M (World S) JsVal) f
    path records w :
  acts_as c f ->
  file_records (fs w) path = Some records ->
  with_locals init (JsonlFile.read path c) w =
    (match fst (hand_over truthy f records init) with
     | Ok _ => Ok (tt, snd (hand_over truthy f records init))
     | Throw e => Throw e
     end, w).
Proof.
  intros Hc Hrec. unfold with_locals.
  rewrite (js_read_acts c f path records) by done. simpl.
  destruct (hand_over truthy f records init) as [[[]|e] u]; simpl;
    f_equal; by destruct w.
Qed.

Lemma findMatch_returns path matchFn records w :
  file_records (fs w) path = Some records ->
  returns_on matchFn records ->
  JsonlFile.findMatch path matchFn w =
    (Ok (List.filter (holds_of matchFn) records), w).
Proof.
  intros Hrec Hret. unfold JsonlFile.findMatch. unfold bind at 1.
  rewrite (with_locals_read _ _ _ path records w (findMatch_acts matchFn) Hrec).
  rewrite (tally_returns matchFn (fun found line => found ++ [line])) by done.
  simpl. by rewrite fold_left_snoc.
Qed.

(** X7. On a file whose lines are records, with a predicate that returns
    on each of them: [findMatch] returns the records the predicate holds
    of, in file order, [countMatch] returns their number, and neither
    changes anything. *)
Theorem findMatch_and_countMatch path matchFn records w :
  file_records (fs w) path = Some records ->
  returns_on matchFn records ->
  JsonlFile.findMatch path matchFn w =
    (Ok (List.filter (holds_of matchFn) records), w) /\
  JsonlFile.countMatch path matchFn w =
    (Ok (length (List.filter (holds_of matchFn) records)), w).
Proof.
  intros Hrec Hret. split.
  - by apply findMatch_returns.
  - unfold JsonlFile.countMatch. unfold bind at 1.
    rewrite (with_locals_read _ _ _ path records w (countMatch_acts matchFn) Hrec).
    rewrite (tally_returns matchFn (fun lineCount _ => S lineCount)) by done.
    simpl. by rewrite fold_left_count.
Qed.

(** X8. On a file whose lines are records, what the predicate throws on a
    record, having returned on those before it, comes out of [findMatch]
    and of [countMatch], and the world is as before the call. *)
Theorem query_lets_predicate_error_through
    path matchFn before r after e w :
  file_records (fs w) path = Some (before ++ r :: after) ->
  returns_on matchFn before ->
  matchFn r = Throw e ->
  JsonlFile.findMatch path matchFn w = (Throw e, w) /\
  JsonlFile.countMatch path matchFn w = (Throw e, w).
Proof.
  intros Hrec Hret He. split.
  - unfold JsonlFile.findMatch. unfold bind at 1.
    rewrite (with_locals_read _ _ _ path _ w (findMatch_acts matchFn) Hrec).
    by rewrite (tally_throws matchFn (fun found line => found ++ [line])
                  before r after e).
  - unfold JsonlFile.countMatch. unfold bind at 1.
    rewrite (with_locals_read _ _ _ path _ w (countMatch_acts matchFn) Hrec).
    by rewrite (tally_throws matchFn (fun lineCount _ => S lineCount)
                  before r after e).
Qed.

Lemma findWhere_acts attribute value :
  acts_as
    (fun line : Json =>
       v <- get_prop (W := World (option Json)) line attribute ;;
       if strict_equals v value
       then put_locals (Some line) ;;; ret (VJson (JBool true))
       else ret (VJson (JBool false)))
    (fun line found =>
       match prop_of line attribute with
       | Ok v =>
           if strict_equals v value
           then (Ok (VJson (JBool true)), Some line)
           else (Ok (VJson (JBool false)), found)
       | Throw e => (Throw e, found)
       end).
Proof.
  intros line w. unfold bind, get_prop, userCb, put_locals, ret.
  destruct (prop_of line attribute) as [v|e]; [|by rewrite set_locals_id].
  destruct (strict_equals v value); [done | by rewrite set_locals_id].
Qed.

Lemma where_returns attribute value records :
  Forall (fun r => r <> JNull) records ->
  returns_on (where_ attribute value) records.
Proof.
  intros H. unfold returns_on. eapply Forall_impl; [exact H |].
  intros r Hr. unfold where_.
  destruct r; try done; simpl; by eexists.
Qed.

Lemma findWhere_hand_over attribute value records :
  Forall (fun r => r <> JNull) records ->
  hand_over truthy
    (fun line found =>
       match prop_of line attribute with
       | Ok v =>
           if strict_equals v value
           then (Ok (VJson (JBool true)), Some line)
           else (Ok (VJson (JBool false)), found)
       | Throw e => (Throw e, found)
       end) records None =
    (Ok tt, List.find (holds_of (where_ attribute value)) records).
Proof.
  induction 1 as [|r rs Hr _ IH]; [done |].
  cbn [hand_over List.find]. unfold holds_of, where_.
  destruct (prop_of r attribute) as [v|e] eqn:Hp; [|by destruct r].
  destruct (strict_equals v value); [done |]. cbn [truthy]. apply IH.
Qed.

Lemma head_filter {A} (p : A -> bool) (l : list A) :
  head (List.filter p l) = List.find p l.
Proof.
  induction l as [|x l IH]; [done |]. simpl. by destruct (p x).
Qed.

(** X9. On a file whose lines are records, none of them [null]:
    [findWhere(attribute, value)] returns the first of the records that
    [findMatch] returns for the predicate [line[attribute] === value],
    and [undefined] when there is none; it changes nothing. *)
Theorem findWhere_is_first_of_findMatch path attribute value records w :
  file_records (fs w) path = Some records ->
  Forall (fun r => r <> JNull) records ->
  let found := List.filter (holds_of (where_ attribute value)) records in
  JsonlFile.findMatch path (where_ attribute value) w = (Ok found, w) /\
  JsonlFile.findWhere path attribute value w = (Ok (head found), w).
Proof.
  intros Hrec Hall found. split.
  - by apply findMatch_returns, where_returns.
  - unfold JsonlFile.findWhere. unfold bind at 1.
    rewrite (with_locals_read _ _ _ path records w
               (findWhere_acts attribute value) Hrec).
    rewrite findWhere_hand_over by done. simpl.
    unfold found. by rewrite head_filter.
Qed.

(** X10. [findWhere] reads the attribute of every line it comes to: on a
    file of records in which a line [null] comes before any record with
    the value looked for, it fails with the TypeError of reading a
    property of [null], and changes nothing. *)
Theorem findWhere_fails_on_null_line path attribute value before after w :
  file_records (fs w) path = Some (before ++ JNull :: after) ->
  Forall (fun r => r <> JNull) before ->
  List.find (holds_of (where_ attribute value)) before = None ->
  JsonlFile.findWhere path attribute value w = (Throw TypeError, w).
Proof.
  intros Hrec Hall Hnone. unfold JsonlFile.findWhere. unfold bind at 1.
  rewrite (with_locals_read _ _ _ path _ w
             (findWhere_acts attribute value) Hrec).
  assert (forall found,
            hand_over truthy
              (fun line found =>
                 match prop_of line attribute with
                 | Ok v =>
                     if strict_equals v value
                     then (Ok (VJson (JBool true)), Some line)
                     else (Ok (VJson (JBool false)), found)
                 | Throw e => (Throw e, found)
                 end) (before ++ JNull :: after) found =
            (Throw TypeError, found)) as ->; [|done].
  clear Hrec. induction Hall as [|r rs Hr _ IH]; intros found; [done |].
  simpl in Hnone. unfold holds_of at 1, where_ in Hnone.
  simpl app. cbn [hand_over].
  destruct (prop_of r attribute) as [v|e] eqn:Hp; [|by destruct r].
  simpl in Hnone. destruct (strict_equals v value); [done |].
  cbn [truthy]. by apply IH.
Qed.

Lemma omap_length_le {A B} (f : A -> option B) (l : list A) :
  length (omap f l) <= length l /\
  (length (omap f l) = length l <-> Forall (fun x => is_Some (f x)) l).
Proof.
  induction l as [|x l [IH1 IH2]]; simpl.
  - split; [lia |]. split; [constructor | done].
  - change (list_omap A B f l) with (omap f l).
    destruct (f x) as [y|] eqn:E; simpl.
    + split; [lia |]. rewrite Forall_cons. split.
      * intros H. split; [by rewrite E | apply IH2; lia].
      * intros [_ H]. f_equal. by apply IH2.
    + split; [lia |]. rewrite Forall_cons. split; [lia |].
      intros [H _]. rewrite E in H. by destruct H.
Qed.

Lemma strict_decode_all lines :
  is_Some (strict_decode lines) <->
  Forall (fun line => is_Some (decode_line line)) lines.
Proof.
  induction lines as [|line rest IH]; simpl.
  - split; [constructor | by eexists].
  - rewrite Forall_cons, <- IH.
    destruct (decode_line line) as [r|]; simpl.
    + destruct (strict_decode rest) as [rs|]; simpl.
      * split; [intros _; split; by eexists | by eexists].
      * split; [by intros [] | by intros [_ []]].
    + split; [by intros [] | by intros [[] _]].
Qed.

(** X11. The two engines count differently.  On a file that exists,
    [count] of the single-file engine is the number of lines, blank
    lines and lines that are not JSON included, and [count] of the
    streaming engine is the number of decodable records: it is never the
    greater, and the two agree exactly when every line of the file is a
    record.  On a missing file the first fails with ENOENT and the second
    returns zero. *)
Theorem count_of_the_two_engines path w :
  (forall content,
      fs w !! path = Some content ->
      let n := length (rl_lines content) in
      let m := length (records_of (fs w) path) in
      JsonlFile.count path w = (Ok n, w) /\
      fst (Jsonl.count path w) = Ok m /\
      m <= n /\
      (m = n <-> is_Some (file_records (fs w) path))) /\
  (fs w !! path = None ->
   JsonlFile.count path w = (Throw (ENOENT path), w) /\
   Jsonl.count path w = (Ok 0, w)).
Proof.
  split.
  - intros content Hp n m. split; [|split].
    + unfold JsonlFile.count, bind. by rewrite getRl_spec, Hp.
    + by rewrite count_spec.
    + unfold m, n, records_of, file_records, decodable_lines. rewrite Hp.
      destruct (omap_length_le decode_line (rl_lines content)) as [Hle Hiff].
      split; [done |]. by rewrite Hiff, strict_decode_all.
  - intros Hp. split.
    + unfold JsonlFile.count, bind. by rewrite getRl_spec, Hp.
    + rewrite count_spec. unfold records_of, file_lines. rewrite Hp.
      simpl. by rewrite warned_nil.
Qed.
End Queries.

(** * More on the copy-rewrite mutations *)

Section MutationsMore.
Context {codec : JsonCodec} {L : Type}.
Implicit Types (w : World L) (matchFn : Json -> Res JsVal).

Lemma mutation_task_ext src (c c' : string -> Json -> M (World L) JsVal) path w :
  (forall tmp r w, c tmp r w = c' tmp r w) ->
  temporaryFileTask src
    (fun tmpPath => JsonlFile.read path (c tmpPath) ;;; rename tmpPath path) w =
  temporaryFileTask src
    (fun tmpPath => JsonlFile.read path (c' tmpPath) ;;; rename tmpPath path) w.
Proof.
  intros H. rewrite !temporaryFileTask_spec. cbv zeta. unfold bind.
  by rewrite (read_ext _ (c' (generateTempFilePath src EmptyString)))
    by apply H.
Qed.

(** X12. [deleteWhere(attribute, value)] is [deleteMatch] with the
    predicate [line[attribute] === value], and [updateWhere] is
    [updateMatch] with it: on every world the two calls return the same
    and leave the same world. *)
Theorem where_mutation_is_match_mutation src path attribute value updateFn w :
  JsonlFile.deleteWhere src path attribute value w =
    JsonlFile.deleteMatch src path (where_ attribute value) w /\
  JsonlFile.updateWhere src path attribute value updateFn w =
    JsonlFile.updateMatch src path (where_ attribute value) updateFn w.
Proof.
  split.
  - unfold JsonlFile.deleteWhere, JsonlFile.deleteMatch.
    apply (mutation_task_ext src
             (fun tmp => JsonlFile.deleteWhere_onLine tmp attribute value)
             (fun tmp => JsonlFile.deleteMatch_onLine tmp (where_ attribute value))).
    intros tmp r w'.
    unfold JsonlFile.deleteWhere_onLine, JsonlFile.deleteMatch_onLine,
      bind, get_prop, pureCb, where_.
    by destruct (prop_of r attribute) as [v|e]; [destruct (strict_equals v value) |].
  - unfold JsonlFile.updateWhere, JsonlFile.updateMatch.
    apply (mutation_task_ext src
             (fun tmp => JsonlFile.updateWhere_onLine tmp attribute value updateFn)
             (fun tmp => JsonlFile.updateMatch_onLine tmp (where_ attribute value)
                           updateFn)).
    intros tmp r w'.
    unfold JsonlFile.updateWhere_onLine, JsonlFile.updateMatch_onLine,
      bind, get_prop, pureCb, where_.
    by destruct (prop_of r attribute) as [v|e]; [destruct (strict_equals v value) |].
Qed.

Lemma deleteMatch_plan_returns matchFn lines records :
  strict_decode lines = Some records ->
  Forall (fun r => is_object r = true) records ->
  returns_on matchFn records ->
  scratch_plan (decision (DeleteMatch matchFn)) lines =
    Ok (List.filter (fun r => negb (holds_of matchFn r)) records).
Proof.
  revert records. induction lines as [|line rest IH]; intros records Hdec Hall Hret.
  - by injection Hdec as <-.
  - apply strict_decode_cons in Hdec as (r & rs & -> & _ & Hparse & Hrest).
    apply Forall_cons in Hall as [Hr Hall].
    apply Forall_cons in Hret as [[v Hv] Hret].
    cbn [scratch_plan]. rewrite Hparse. cbn [decision List.filter].
    unfold holds_of at 1. rewrite Hv.
    destruct (truthy v); cbn [negb].
    + by apply IH.
    + destruct r as [| | | | |fields]; try discriminate.
      by rewrite (IH rs).
Qed.

Lemma updateMatch_plan_returns matchFn (u : Json -> Json) lines records :
  strict_decode lines = Some records ->
  Forall (fun r => is_object r = true) records ->
  returns_on matchFn records ->
  Forall (fun r => holds_of matchFn r = true -> is_object (u r) = true) records ->
  scratch_plan (decision (UpdateMatch matchFn (fun r => Ok (VJson (u r))))) lines =
    Ok (map (fun r => if holds_of matchFn r then u r else r) records).
Proof.
  revert records.
  induction lines as [|line rest IH]; intros records Hdec Hall Hret Hu.
  - by injection Hdec as <-.
  - apply strict_decode_cons in Hdec as (r & rs & -> & _ & Hparse & Hrest).
    apply Forall_cons in Hall as [Hr Hall].
    apply Forall_cons in Hret as [[v Hv] Hret].
    apply Forall_cons in Hu as [Hur Hu].
    cbn [scratch_plan]. rewrite Hparse. cbn [decision map].
    unfold holds_of at 1. unfold holds_of in Hur. rewrite Hv in *.
    destruct (truthy v).
    + specialize (Hur eq_refl). destruct (u r) as [| | | | |fields]; try discriminate.
      by rewrite (IH rs).
    + destruct r as [| | | | |fields]; try discriminate.
      by rewrite (IH rs).
Qed.

Lemma filter_lengths {A} (p : A -> bool) (l : list A) :
  length (List.filter (fun x => negb (p x)) l) =
    length l - length (List.filter p l) /\
  length (List.filter p l) <= length l.
Proof.
  induction l as [|x l [IH1 IH2]]; [done |]. simpl.
  destruct (p x); simpl; lia.
Qed.

Lemma count_of_records path records w :
  file_records (fs w) path = Some records ->
  JsonlFile.count path w = (Ok (length records), w).
Proof.
  unfold file_records. intros H. unfold JsonlFile.count, bind.
  rewrite getRl_spec. destruct (fs w !! path) as [content|]; [|done].
  unfold ret. by rewrite (strict_decode_length _ _ H).
Qed.

(** The world after a mutation that has written the records [written],
    at least one. *)
Lemma mutate_written src path op content written w :
  fs w !! generateTempFilePath src EmptyString = None ->
  fs w !! path = Some content ->
  scratch_plan (decision op) (rl_lines content) = Ok written ->
  written <> [] ->
  mutate src path op w =
    (Ok tt, set_fs (fun files => <[path := serialize written]> files) w).
Proof.
  intros Hfresh Hp Hplan Hne. rewrite mutate_spec by done.
  rewrite Hp, Hplan. by destruct written.
Qed.

(** X13. [deleteMatch] on a file of records that the codec is faithful
    on, all objects, with a predicate that returns on each and does not
    hold of all of them: it completes; the file then holds the records
    the predicate does not hold of, in their order; [count] has gone down
    by the number of records it holds of; no scratch file is left and no
    other file has changed. *)
Theorem deleteMatch_keeps_the_rest src path matchFn records w :
  let tmp := generateTempFilePath src EmptyString in
  let survivors := List.filter (fun r => negb (holds_of matchFn r)) records in
  fs w !! tmp = None ->
  file_records (fs w) path = Some records ->
  Forall (fun r => is_object r = true) records ->
  Forall faithful records ->
  returns_on matchFn records ->
  survivors <> [] ->
  let out := JsonlFile.deleteMatch src path matchFn w in
  fst out = Ok tt /\
  file_records (fs (snd out)) path = Some survivors /\
  JsonlFile.count path (snd out) =
    (Ok (length records - length (List.filter (holds_of matchFn) records)),
     snd out) /\
  fs (snd out) !! tmp = None /\
  (forall other, other <> path -> fs (snd out) !! other = fs w !! other).
Proof.
  intros tmp survivors Hfresh Hrec Hobj Hfaith Hret Hne out.
  assert (Forall faithful survivors) as Hfs.
  { unfold survivors. clear -Hfaith.
    induction Hfaith as [|r rs Hr _ IH]; [constructor |]. simpl.
    destruct (negb (holds_of matchFn r)); [by constructor | done]. }
  pose proof Hrec as Hrec'. unfold file_records in Hrec'.
  destruct (fs w !! path) as [content|] eqn:Hp; [|done].
  assert (path <> tmp) as Hpt by (intros ->; unfold tmp in *; congruence).
  assert (out = (Ok tt, set_fs (fun files => <[path := serialize survivors]> files) w))
    as ->.
  { unfold out.
    apply (mutate_written src path (DeleteMatch matchFn) content); try done.
    by apply deleteMatch_plan_returns. }
  cbn [fst snd]. split; [done |].
  assert (file_records (<[path := serialize survivors]> (fs w)) path = Some survivors)
    as Hafter by (by apply serialize_records).
  split; [done |]. split; [|split].
  - rewrite (count_of_records path survivors) by done.
    do 2 f_equal. apply filter_lengths.
  - simpl. by rewrite lookup_insert_ne.
  - intros other Ho. simpl. by rewrite lookup_insert_ne.
Qed.

(** X14. [updateMatch] on a file of records, all objects and at least
    one, with a predicate that returns on each and an update function
    that returns an object for those it holds of: it completes; the file
    then holds, in the same order, the update of each record the
    predicate holds of and the other records as they were; [count] is as
    before; the file can be extended again. *)
Theorem updateMatch_rewrites_matches src path matchFn (u : Json -> Json) records w :
  let tmp := generateTempFilePath src EmptyString in
  let updated := map (fun r => if holds_of matchFn r then u r else r) records in
  fs w !! tmp = None ->
  file_records (fs w) path = Some records ->
  records <> [] ->
  Forall (fun r => is_object r = true) records ->
  returns_on matchFn records ->
  Forall (fun r => holds_of matchFn r = true -> is_object (u r) = true) records ->
  Forall faithful updated ->
  let out := JsonlFile.updateMatch src path matchFn (fun r => Ok (VJson (u r))) w in
  fst out = Ok tt /\
  file_records (fs (snd out)) path = Some updated /\
  appendable (fs (snd out)) path updated /\
  JsonlFile.count path (snd out) = (Ok (length records), snd out) /\
  (forall other, other <> path -> fs (snd out) !! other = fs w !! other).
Proof.
  intros tmp updated Hfresh Hrec Hne Hobj Hret Hu Hfaith out.
  pose proof Hrec as Hrec'. unfold file_records in Hrec'.
  destruct (fs w !! path) as [content|] eqn:Hp; [|done].
  assert (out = (Ok tt, set_fs (fun files => <[path := serialize updated]> files) w))
    as ->.
  { unfold out.
    apply (mutate_written src path
             (UpdateMatch matchFn (fun r => Ok (VJson (u r)))) content); try done.
    - by apply updateMatch_plan_returns.
    - unfold updated. by destruct records. }
  cbn [fst snd]. split; [done |].
  assert (file_records (<[path := serialize updated]> (fs w)) path = Some updated)
    as Hafter by (by apply serialize_records).
  split; [done |]. split; [|split].
  - simpl. by apply serialize_appendable.
  - rewrite (count_of_records path updated) by done.
    unfold updated. by rewrite length_map.
  - intros other Ho. simpl. by rewrite lookup_insert_ne.
Qed.

(** X15. A mutation that writes no record fails: the scratch file is
    created by the first record written to it, so that without one the
    rename finds no file, the mutation fails with the ENOENT of the
    scratch path, and the world is as before.  This is what each of the
    four mutations does on a file that exists and is empty. *)
Theorem mutation_that_writes_nothing_fails src path op w :
  let tmp := generateTempFilePath src EmptyString in
  fs w !! tmp = None ->
  (forall content,
      fs w !! path = Some content ->
      scratch_plan (decision op) (rl_lines content) = Ok [] ->
      mutate src path op w = (Throw (ENOENT tmp), w)) /\
  (fs w !! path = Some EmptyString ->
   mutate src path op w = (Throw (ENOENT tmp), w)).
Proof.
  intros tmp Hfresh. split.
  - intros content Hp Hplan. rewrite mutate_spec by done. by rewrite Hp, Hplan.
  - intros Hp. rewrite mutate_spec by done. by rewrite Hp.
Qed.

(** X16. An update function that returns something that is not an
    object, [undefined] for one, on a record the predicate holds of:
    [updateMatch] fails with the error of [add], and the world is as
    before. *)
Theorem update_must_return_an_object
    src path matchFn updateFn content before line after written r m x w :
  fs w !! generateTempFilePath src EmptyString = None ->
  fs w !! path = Some content ->
  rl_lines content = before ++ line :: after ->
  scratch_plan (decision (UpdateMatch matchFn updateFn)) before = Ok written ->
  JSON_parse line = Some r ->
  matchFn r = Ok m -> truthy m = true ->
  updateFn r = Ok x -> isSingleJson x = false ->
  JsonlFile.updateMatch src path matchFn updateFn w =
    (Throw (Err "add() only accepts a single json object"), w).
Proof.
  intros Hfresh Hp Hlines Hplan Hparse Hm Ht Hx Hno.
  pose proof (mutate_spec src path (UpdateMatch matchFn updateFn) w Hfresh) as H.
  cbn [mutate] in H. rewrite H, Hp, Hlines, scratch_plan_app, Hplan.
  cbn [scratch_plan decision]. rewrite Hparse, Hm, Ht, Hx.
  destruct x as [|j]; [done |]. by destruct j.
Qed.

(** X17. [temporaryFileTask] returns or throws what its task does, and
    leaves no file at the scratch path, whatever the task did there; the
    other files, the console and the caller's variables are as the task
    left them. *)
Theorem temporaryFileTask_cleans_up {A} src (task : string -> M (World L) A) w :
  let tmp := generateTempFilePath src EmptyString in
  let ran := task tmp w in
  let out := temporaryFileTask src task w in
  fst out = fst ran /\
  fs (snd out) !! tmp = None /\
  (forall other, other <> tmp -> fs (snd out) !! other = fs (snd ran) !! other) /\
  console (snd out) = console (snd ran) /\
  locals (snd out) = locals (snd ran).
Proof.
  intros tmp ran out. unfold out. rewrite temporaryFileTask_spec. cbv zeta.
  fold tmp. fold ran. cbn [fst snd]. split; [done |]. split; [|split; [|done]].
  - simpl. by rewrite lookup_delete_eq.
  - intros other Ho. simpl. by rewrite lookup_delete_ne.
Qed.
End MutationsMore.

(** * The file object of the streaming engine *)

Lemma string_length_zero s : (String.length s =? 0) = bool_decide (s = EmptyString).
Proof. by destruct s. Qed.

Lemma isEmptyFile_loop_app before rest :
  Jsonl.isEmptyFile_loop (before ++ rest) =
    Jsonl.isEmptyFile_loop before && Jsonl.isEmptyFile_loop rest.
Proof.
  induction before as [|line before IH]; [done |]. simpl.
  by destruct (trim_is_empty line).
Qed.

Lemma isEmptyFile_loop_blank lines :
  Jsonl.isEmptyFile_loop lines = true <->
  Forall (fun line => trim_is_empty line = true) lines.
Proof.
  induction lines as [|line rest IH]; simpl.
  - split; [constructor | done].
  - rewrite Forall_cons, <- IH.
    destruct (trim_is_empty line); simpl; [tauto |].
    split; [done | by intros [? _]].
Qed.

Section LibWrites.
Context {codec : JsonCodec} {L : Type}.
Implicit Types (w : World L) (path : string).

Lemma lib_isEmptyFile_spec path w :
  Jsonl.isEmptyFile path w =
    (Ok (Jsonl.isEmptyFile_loop (file_lines (fs w) path)), w).
Proof.
  unfold Jsonl.isEmptyFile, file_lines. unfold bind at 1.
  rewrite safePathExists_spec.
  destruct (fs w !! path) as [content|] eqn:Hp; [|done]. cbn [negb].
  unfold bind at 1, try_catch, bind, stat_size. rewrite Hp. unfold ret at 1.
  rewrite string_length_zero.
  destruct (bool_decide (content = EmptyString)) eqn:E.
  - apply bool_decide_eq_true in E as ->. done.
  - unfold bind. rewrite getRl_spec, Hp. done.
Qed.

Lemma lib_ensure_spec path w :
  Jsonl.ensure path w =
    match fs w !! path with
    | Some content =>
        (Ok (if Jsonl.isEmptyFile_loop (rl_lines content)
             then EmptyString else newline), w)
    | None =>
        (Ok EmptyString, set_fs (fun files => <[path := EmptyString]> files) w)
    end.
Proof.
  unfold Jsonl.ensure. unfold bind at 1. rewrite safePathExists_spec.
  destruct (fs w !! path) as [content|] eqn:Hp; [|done]. cbn [negb].
  unfold bind. rewrite lib_isEmptyFile_spec. unfold file_lines. by rewrite Hp.
Qed.

Lemma appendText_spec path line lines w :
  Jsonl.appendText path (line :: lines) w =
    (Ok tt,
     set_fs (fun files =>
               <[path := lib_extended files path (join_lines (line :: lines))]>
                 files) w).
Proof.
  unfold Jsonl.appendText. cbn [length Nat.eqb]. unfold bind.
  rewrite lib_ensure_spec. unfold lib_extended.
  destruct (fs w !! path) as [content|] eqn:Hp.
  - unfold appendFile, set_fs. rewrite Hp. simpl.
    destruct (Jsonl.isEmptyFile_loop (rl_lines content)); [|done].
    by rewrite string_app_nil_l.
  - unfold appendFile, set_fs. simpl. rewrite lookup_insert_eq. simpl.
    by rewrite insert_insert_eq, Hp, !string_app_nil_l.
Qed.

Lemma decodable_lines_app before rest :
  decodable_lines (before ++ rest) = decodable_lines before ++ decodable_lines rest.
Proof.
  induction before as [|line before IH]; [done |].
  rewrite <- app_comm_cons, !decodable_lines_cons, IH.
  destruct (trim_is_empty line); [done |]. by destruct (JSON_parse line).
Qed.

Lemma decodable_lines_gap cur text : decodable_lines (gap cur text) = [].
Proof.
  unfold gap. destruct (last_char text) as [c|].
  - by destruct (Ascii.eqb c LF).
  - by destruct cur.
Qed.

Lemma isEmptyFile_loop_faithful r rs :
  faithful r ->
  Jsonl.isEmptyFile_loop (map JSON_stringify (r :: rs)) = false.
Proof. intros (_ & Hb & _). simpl. by rewrite Hb. Qed.

(** The lines of the file after records have been appended to it. *)
Lemma lib_extended_lines files path r rs :
  extendable files path ->
  Forall faithful (r :: rs) ->
  exists blanks,
    rl_lines (lib_extended files path (serialize (r :: rs))) =
      file_lines files path ++ blanks ++ map JSON_stringify (r :: rs) /\
    decodable_lines blanks = [].
Proof.
  intros Hext Hall. unfold lib_extended, extendable, file_lines in *.
  pose proof (serialize_lines (r :: rs) Hall) as Hser.
  destruct (files !! path) as [content|].
  - destruct Hext as [-> | Hloop].
    + exists []. by rewrite string_app_nil_l.
    + rewrite Hloop. exists (gap EmptyString content).
      rewrite rl_lines_app_LF, Hser. split; [done |].
      apply decodable_lines_gap.
  - by exists [].
Qed.

Lemma append_spec path data w :
  Jsonl.append path data w =
    match appended data with
    | [] => (Ok tt, w)
    | r :: rs =>
        (Ok tt,
         set_fs (fun files =>
                   <[path := lib_extended files path (serialize (r :: rs))]> files) w)
    end.
Proof.
  unfold Jsonl.append. fold (appended data).
  destruct (appended data) as [|r rs]; [done |].
  simpl map. by rewrite appendText_spec.
Qed.

(** X18. Appending to a file that is missing, empty, or has a line that
    is not blank, records the codec is faithful on (the elements of an
    array, or one value that is not an array): [append] completes; the
    decodable records of the file are then those it had, followed by
    the new ones; [count] returns their number; the file can be
    extended again, and no other file has changed. *)
Theorem append_then_read_back path data w :
  extendable (fs w) path ->
  Forall faithful (appended data) ->
  let out := Jsonl.append path data w in
  fst out = Ok tt /\
  records_of (fs (snd out)) path = records_of (fs w) path ++ appended data /\
  fst (Jsonl.count path (snd out)) =
    Ok (length (records_of (fs w) path) + length (appended data)) /\
  extendable (fs (snd out)) path /\
  (forall other, other <> path -> fs (snd out) !! other = fs w !! other).
Proof.
  intros Hext Hall. cbv zeta. rewrite append_spec.
  destruct (appended data) as [|r rs] eqn:Hdata.
  { cbn [fst snd]. rewrite app_nil_r, count_spec. simpl.
    by rewrite Nat.add_0_r. }
  cbn [fst snd].
  destruct (lib_extended_lines (fs w) path r rs Hext Hall)
    as (blanks & Hlines & Hblanks).
  assert (records_of
            (<[path := lib_extended (fs w) path (serialize (r :: rs))]> (fs w)) path =
          records_of (fs w) path ++ r :: rs) as Hrecs.
  { unfold records_of at 1. rewrite lookup_insert_eq, Hlines.
    rewrite !decodable_lines_app, Hblanks.
    rewrite (decodable_lines_stringify (r :: rs)) by done.
    unfold records_of, file_lines. by destruct (fs w !! path). }
  split; [done |]. split; [done |]. split; [|split].
  - rewrite count_spec. simpl. rewrite Hrecs. by rewrite length_app.
  - unfold extendable. simpl. rewrite lookup_insert_eq. right.
    rewrite Hlines, !isEmptyFile_loop_app.
    rewrite (isEmptyFile_loop_faithful r rs) by (by apply Forall_cons in Hall as [? _]).
    by rewrite !andb_false_r.
  - intros other Ho. simpl. by rewrite lookup_insert_ne.
Qed.

Lemma facade_add_array dirPath entityName items w :
  JsonlDir.add dirPath entityName (VJson (JArr items)) w =
    Jsonl.append (JsonlDir.filePath dirPath entityName) (JArr items) w.
Proof.
  unfold JsonlDir.add, Jsonl.append. by destruct items.
Qed.

(** X19. In the facade, after [add] of an array of values the codec is
    faithful on, objects or not, to a collection whose file is missing,
    empty, or has a line that is not blank: [find] returns the records
    of the collection that its predicate holds of, the old ones first
    and then the new ones, and [count] returns the number of old and
    new records. *)
Theorem facade_add_then_find dirPath entityName items (p : Json -> bool) w :
  let file := JsonlDir.filePath dirPath entityName in
  extendable (fs w) file ->
  Forall faithful items ->
  let out := JsonlDir.add dirPath entityName (VJson (JArr items)) w in
  fst out = Ok tt /\
  fst (JsonlDir.find dirPath entityName (fun r => Ok (p r)) (snd out)) =
    Ok (List.filter p (records_of (fs w) file ++ items)) /\
  fst (JsonlDir.count dirPath entityName (snd out)) =
    Ok (length (records_of (fs w) file) + length items).
Proof.
  intros file Hext Hall. cbv zeta. rewrite facade_add_array. fold file.
  rewrite append_spec. cbn [appended].
  destruct items as [|r rs].
  { cbn [fst snd]. split; [done |]. rewrite find_spec. unfold JsonlDir.count.
    rewrite count_spec. fold file. simpl. by rewrite app_nil_r, Nat.add_0_r. }
  cbn [fst snd].
  destruct (lib_extended_lines (fs w) file r rs Hext Hall)
    as (blanks & Hlines & Hblanks).
  assert (records_of
            (<[file := lib_extended (fs w) file (serialize (r :: rs))]> (fs w)) file =
          records_of (fs w) file ++ r :: rs) as Hrecs.
  { unfold records_of at 1. rewrite lookup_insert_eq, Hlines.
    rewrite !decodable_lines_app, Hblanks.
    rewrite (decodable_lines_stringify (r :: rs)) by done.
    unfold records_of, file_lines. by destruct (fs w !! file). }
  split; [done |]. split.
  - rewrite find_spec. fold file. simpl. by rewrite Hrecs.
  - unfold JsonlDir.count. rewrite count_spec. fold file. simpl.
    by rewrite Hrecs, length_app.
Qed.

(** X20. What [add] of the facade takes: one object is added as the
    array of that object is; an array is taken whatever its elements
    are, objects or not, where [addMany] of the single-file engine
    refuses an array with an element that is not an object; a value
    that is neither an object nor an array is refused and nothing is
    written; the empty array completes and does not create the file. *)
Theorem facade_add_takes_objects_and_arrays dirPath entityName w :
  (forall fields,
      JsonlDir.add dirPath entityName (VJson (JObj fields)) w =
        JsonlDir.add dirPath entityName (VJson (JArr [JObj fields])) w) /\
  (forall items,
      fst (JsonlDir.add dirPath entityName (VJson (JArr items)) w) = Ok tt /\
      (Exists (fun r => is_object r = false) items ->
       JsonlFile.addMany (JsonlDir.filePath dirPath entityName)
           (VJson (JArr items)) w =
         (Throw (Err "addMany() only accepts an array of json objects"), w))) /\
  (forall data,
      isSingleJson data = false ->
      (forall items, data <> VJson (JArr items)) ->
      JsonlDir.add dirPath entityName data w =
        (Throw (Err "add() only accepts a single json object or an array of json objects"),
         w)) /\
  JsonlDir.add dirPath entityName (VJson (JArr [])) w = (Ok tt, w).
Proof.
  split; [|split; [|split]]; [done | | | done].
  - intros items. split.
    + rewrite facade_add_array, append_spec. cbn [appended].
      by destruct items.
    + intros Hex. unfold JsonlFile.addMany.
      destruct items as [|r rs] eqn:Hitems; [by apply Exists_nil in Hex |].
      cbn [length Nat.eqb]. rewrite <- Hitems in *.
      destruct (forallb _ items) eqn:Hall; [|done].
      apply forallb_objects in Hall.
      apply Exists_exists in Hex as (x & Hin & Hx).
      rewrite Forall_forall in Hall. specialize (Hall x Hin). congruence.
  - intros data Hno Harr. unfold JsonlDir.add.
    destruct data as [|j]; [done |].
    destruct j; try done. by destruct (Harr items).
Qed.

Lemma blank_lines_decode lines :
  Jsonl.isEmptyFile_loop lines = true ->
  decodable_lines lines = [] /\ warnings_of lines = [].
Proof.
  induction lines as [|line rest IH]; [done |].
  cbn [Jsonl.isEmptyFile_loop].
  destruct (trim_is_empty line) eqn:E; [|done]. cbn [negb]. intros H.
  rewrite decodable_lines_cons, warnings_of_cons, E. by apply IH.
Qed.

(** X21. [isEmpty] never fails and never changes anything; it returns
    [true] exactly when the file is missing or each of its lines is
    blank, and then [count] returns zero. *)
Theorem isEmpty_means_no_record path w :
  exists b,
    Jsonl.isEmpty path w = (Ok b, w) /\
    (b = true <->
     Forall (fun line => trim_is_empty line = true) (file_lines (fs w) path)) /\
    (fs w !! path = None -> b = true) /\
    (b = true -> Jsonl.count path w = (Ok 0, w)).
Proof.
  exists (Jsonl.isEmptyFile_loop (file_lines (fs w) path)).
  split; [apply lib_isEmptyFile_spec |]. split; [apply isEmptyFile_loop_blank |].
  split.
  - unfold file_lines. by intros ->.
  - intros H. rewrite count_spec.
    assert (records_of (fs w) path = decodable_lines (file_lines (fs w) path)) as ->
      by (unfold records_of, file_lines; by destruct (fs w !! path)).
    apply blank_lines_decode in H as [-> ->]. simpl. by rewrite warned_nil.
Qed.

Lemma lib_delete_spec path w :
  Jsonl.delete_ path w = (Ok tt, set_fs (fun files => delete path files) w).
Proof.
  unfold Jsonl.delete_, bind. rewrite safePathExists_spec. unfold rm.
  destruct (fs w !! path) as [content|] eqn:Hp; [by rewrite Hp |].
  unfold ret. f_equal. apply world_eq; try done. simpl. by rewrite delete_id.
Qed.

(** X22. [delete] of the file object never fails: it removes the file
    when there is one and does nothing otherwise, so that a second
    [delete] changes nothing; afterwards [exists] returns [false], and
    no other file has changed. *)
Theorem lib_delete_is_idempotent path w :
  let out := Jsonl.delete_ path w in
  fst out = Ok tt /\
  fs (snd out) !! path = None /\
  (forall other, other <> path -> fs (snd out) !! other = fs w !! other) /\
  Jsonl.delete_ path (snd out) = (Ok tt, snd out) /\
  Jsonl.exists_ path (snd out) = (Ok false, snd out).
Proof.
  cbv zeta. rewrite !lib_delete_spec. cbn [fst snd].
  split; [done |]. split; [simpl; by rewrite lookup_delete_eq |].
  split; [intros other Ho; simpl; by rewrite lookup_delete_ne |].
  split.
  - f_equal. apply world_eq; try done. simpl.
    by rewrite delete_id by (by rewrite lookup_delete_eq).
  - unfold Jsonl.exists_. rewrite safePathExists_spec. simpl.
    by rewrite lookup_delete_eq.
Qed.

(** X23. After [clear], whatever the file held, [isEmpty] returns [true]
    and [count] returns zero; and [clear] followed by [append] of
    records the codec is faithful on leaves a file that holds exactly
    these records, one per line. *)
Theorem clear_then_append path data w :
  Forall faithful (appended data) ->
  let cleared := snd (Jsonl.clear path w) in
  let out := (Jsonl.clear path ;;; Jsonl.append path data) w in
  Jsonl.isEmpty path cleared = (Ok true, cleared) /\
  Jsonl.count path cleared = (Ok 0, cleared) /\
  fst out = Ok tt /\
  fs (snd out) !! path = Some (serialize (appended data)) /\
  records_of (fs (snd out)) path = appended data.
Proof.
  intros Hall. cbv zeta. unfold Jsonl.clear, writeFile. unfold bind. cbn [snd].
  split; [|split].
  - unfold Jsonl.isEmpty. rewrite lib_isEmptyFile_spec. unfold file_lines.
    simpl. by rewrite lookup_insert_eq.
  - rewrite count_spec. unfold records_of, file_lines. simpl.
    rewrite lookup_insert_eq. simpl. by rewrite warned_nil.
  - rewrite append_spec. destruct (appended data) as [|r rs].
    + cbn [fst snd]. split; [done |]. unfold records_of. simpl.
      by rewrite lookup_insert_eq.
    + cbn [fst snd]. split; [done |]. simpl. rewrite lookup_insert_eq.
      unfold lib_extended, records_of. rewrite !lookup_insert_eq. simpl.
      rewrite string_app_nil_l. split; [done |].
      rewrite serialize_lines by done. by apply decodable_lines_stringify.
Qed.
End LibWrites.

(** * More on the traversals *)

Section LenientFacts.
Context {A U : Type}.
Implicit Types (f : A -> U -> Res JsVal * U) (signal : JsVal -> bool).

(** A callback that never returns the stop signal is called on every
    item, whether it throws or not. *)
Lemma lenient_never_stops signal f items u :
  (forall a u, stops signal f a u = false) ->
  hand_over_lenient signal f items u = replay f items u.
Proof.
  intros H. revert u. induction items as [|a items IH]; intros u; [done |].
  cbn [hand_over_lenient]. rewrite replay_cons.
  specialize (H a u). unfold stops in H.
  destruct (f a u) as [[v|e] u']; simpl in *; [|apply IH].
  rewrite H. apply IH.
Qed.
End LenientFacts.

Section TraversalsMore.
Context {codec : JsonCodec} {U : Type}.

Lemma stops_traced_all signal (f : Json -> U -> Res JsVal * U) :
  (forall r u, stops signal f r u = false) ->
  forall r st, stops signal (traced f) r st = false.
Proof. intros H r [u log]. by rewrite stops_traced. Qed.

(** X24. [readLineByLine] completes whatever its callback does, and
    writes no file when the callback writes none; a callback that never
    returns [true] is called on every decodable record of the file, in
    order, also on those that come after a record on which it threw. *)
Theorem readLineByLine_never_fails path (w : World (U * list Json)) :
  (forall onLine, fst (Jsonl.readLineByLine path onLine w) = Ok tt) /\
  (forall f : Json -> U -> Res JsVal * U,
      let out := Jsonl.readLineByLine path (userCb (traced f)) w in
      fs (snd out) = fs w /\
      ((forall r u, stops Jsonl.is_true f r u = false) ->
       log_of (snd out) = log_of w ++ records_of (fs w) path)).
Proof.
  split; [intros onLine; apply readLineByLine_completes |].
  intros f. cbv zeta.
  destruct (readLineByLine_spec (traced f) path w) as (warns & Heq & _).
  cbv zeta in Heq. rewrite Heq. cbn [fst snd]. split; [done |].
  intros Hnever.
  rewrite lenient_never_stops by (by apply stops_traced_all).
  unfold log_of. simpl. destruct (locals w) as [u log].
  by rewrite replay_traced.
Qed.

(** X25. What the callback throws comes out of [read], in both engines:
    when it throws on a batch (a record) after having returned, without
    a stop signal, on those before, [read] fails with the same
    exception, the callback is called on nothing after, and no file has
    changed. *)
Theorem read_lets_callback_error_through path e (w : World U) :
  (forall k (f : list Json -> U -> Res JsVal * U) before b after,
      0 < k ->
      chunks k (records_of (fs w) path) = before ++ b :: after ->
      quiet truthy f before (locals w) = true ->
      fst (f b (replay f before (locals w))) = Throw e ->
      let out := Jsonl.read path (userCb f) (Z.of_nat k) w in
      fst out = Throw e /\
      locals (snd out) = replay f (before ++ [b]) (locals w) /\
      fs (snd out) = fs w) /\
  (forall (f : Json -> U -> Res JsVal * U) before r after,
      file_records (fs w) path = Some (before ++ r :: after) ->
      quiet truthy f before (locals w) = true ->
      fst (f r (replay f before (locals w))) = Throw e ->
      JsonlFile.read path (userCb f) w =
        (Throw e, set_locals (replay f (before ++ [r]) (locals w)) w)).
Proof.
  split.
  - intros k f before b after Hk Hchunks Hq He. cbv zeta.
    destruct (lib_read_spec (userCb f) f k path w) as (warns & Heq & _);
      [done | done |].
    cbv zeta in Heq. rewrite Heq, Hchunks.
    by rewrite (hand_over_throw truthy f before b after _ e).
  - intros f before r after Hrec Hq He.
    rewrite (js_read_spec f path _ w Hrec).
    by rewrite (hand_over_throw truthy f before r after _ e).
Qed.

Lemma try_finally_close {A} (m : M (World U) A) w :
  try_finally m rl_close w = m w.
Proof. unfold try_finally, rl_close, ret. by destruct (m w). Qed.

Lemma readByBatch_loop_below_one (c : list Json -> M (World U) JsVal)
    (k : Z) lines records buf w :
  (k <= 0)%Z ->
  strict_decode lines = Some records ->
  JsonlFile.readByBatch_loop c k lines buf w = (Ok (buf ++ records, false), w).
Proof.
  intros Hk. revert records buf.
  induction lines as [|line rest IH]; intros records buf Hdec.
  - injection Hdec as <-. simpl. by rewrite app_nil_r.
  - apply strict_decode_cons in Hdec as (r & rs & -> & _ & Hparse & Hrest).
    rewrite readByBatch_loop_cons, Hparse.
    assert ((Z.of_nat (length (buf ++ [r])) =? k)%Z = false) as ->.
    { apply Z.eqb_neq. rewrite length_app. simpl. lia. }
    rewrite (IH rs) by done. by rewrite <- app_assoc.
Qed.

Lemma lib_read_loop_below_one (c : list Json -> M (World U) JsVal)
    (k : Z) lines buf w :
  (k <= 0)%Z ->
  Jsonl.read_loop c k lines buf w =
    (Ok (buf ++ decodable_lines lines, false), warned (warnings_of lines) w).
Proof.
  intros Hk. revert buf w. induction lines as [|line rest IH]; intros buf w.
  - simpl. by rewrite app_nil_r, warned_nil.
  - rewrite lib_read_loop_cons, decodable_lines_cons, warnings_of_cons.
    destruct (trim_is_empty line); [apply IH |].
    destruct (JSON_parse line) as [r|].
    + assert ((Z.of_nat (length (buf ++ [r])) =? k)%Z = false) as ->.
      { apply Z.eqb_neq. rewrite length_app. simpl. lia. }
      rewrite IH. by rewrite <- app_assoc.
    + rewrite IH. by rewrite warned_warned.
Qed.

(** X26. With a batch size of zero or less no batch is ever full: the
    single-file [readByBatch] and the streaming [read] then read the
    whole file and hand all its records over in one batch, at the end,
    or call nothing when there is no record. *)
Theorem batch_size_below_one_gives_one_batch path (k : Z)
    (c : list Json -> M (World U) JsVal) (w : World U) :
  (k <= 0)%Z ->
  (forall records,
      file_records (fs w) path = Some records ->
      JsonlFile.readByBatch path c k w =
        match records with
        | [] => (Ok tt, w)
        | _ :: _ => (c records ;;; ret tt) w
        end) /\
  (let w' := warned (warnings_of (file_lines (fs w) path)) w in
   Jsonl.read path c k w =
     match records_of (fs w) path with
     | [] => (Ok tt, w')
     | _ :: _ => (c (records_of (fs w) path) ;;; ret tt) w'
     end).
Proof.
  intros Hk. split.
  - intros records Hrec. unfold file_records in Hrec.
    unfold JsonlFile.readByBatch. unfold bind at 1. rewrite getRl_spec.
    destruct (fs w !! path) as [content|]; [|done].
    unfold bind at 1.
    rewrite (readByBatch_loop_below_one c k _ records) by done.
    by destruct records.
  - cbv zeta. unfold Jsonl.read, records_of, file_lines.
    unfold bind at 1. rewrite safePathExists_spec.
    destruct (fs w !! path) as [content|] eqn:Hp; cbn [negb].
    2: { unfold ret. by rewrite warned_nil. }
    unfold bind at 1. rewrite getRl_spec, Hp. rewrite try_finally_close.
    unfold bind at 1. rewrite lib_read_loop_below_one by done.
    by destruct (decodable_lines (rl_lines content)).
Qed.
End TraversalsMore.

Section FindOne.
Context {codec : JsonCodec} {L : Type}.

Lemma findOne_batch_acts (p : Json -> bool) :
  acts_as (JsonlDir.findOne_batch (fun r => Ok (p r)))
    (fun batch st =>
       match List.find p batch with
       | Some r => (Ok (VJson (JBool true)), (Some r, true))
       | None => (Ok (VJson (JBool (snd st))), st)
       end).
Proof.
  intros batch. induction batch as [|r batch IH]; intros w.
  - unfold userCb. simpl. unfold bind, get_locals, ret. by rewrite set_locals_id.
  - cbn [JsonlDir.findOne_batch]. unfold bind at 1, pureCb.
    unfold userCb at 1. cbn [List.find].
    destruct (p r); [done |]. by rewrite IH.
Qed.

Lemma find_app_first {A} (p : A -> bool) (l l' : list A) :
  List.find p (l ++ l') =
    match List.find p l with
    | Some x => Some x
    | None => List.find p l'
    end.
Proof. induction l as [|x l IH]; [done |]. simpl. by destruct (p x). Qed.

Lemma findOne_hand_over (p : Json -> bool) (batches : list (list Json)) :
  fst (hand_over truthy
         (fun batch (st : option Json * bool) =>
            match List.find p batch with
            | Some r => (Ok (VJson (JBool true)), (Some r, true))
            | None => (Ok (VJson (JBool (snd st))), st)
            end) batches (None, false)) = Ok tt /\
  fst (snd (hand_over truthy
              (fun batch (st : option Json * bool) =>
                 match List.find p batch with
                 | Some r => (Ok (VJson (JBool true)), (Some r, true))
                 | None => (Ok (VJson (JBool (snd st))), st)
                 end) batches (None, false))) =
    List.find p (concat batches).
Proof.
  induction batches as [|b batches IH]; [done |].
  cbn [hand_over concat]. rewrite find_app_first.
  destruct (List.find p b) as [r|]; [done |]. cbn [snd truthy]. apply IH.
Qed.

(** X27. [findOne] of the facade, with a predicate that returns on every
    record: it returns the first decodable record of the collection the
    predicate holds of, which is the first of those [find] returns, and
    [undefined] when there is none; and it writes no file. *)
Theorem findOne_is_first_of_find dirPath entityName (p : Json -> bool) (w : World L) :
  let file := JsonlDir.filePath dirPath entityName in
  let one := JsonlDir.findOne dirPath entityName (fun r => Ok (p r)) w in
  let all := JsonlDir.find dirPath entityName (fun r => Ok (p r)) w in
  fst one = Ok (List.find p (records_of (fs w) file)) /\
  (exists found, fst all = Ok found /\ fst one = Ok (head found)) /\
  fs (snd one) = fs w.
Proof.
  intros file one all.
  assert (exists warns,
            one = (Ok (List.find p (records_of (fs w) file)), warned warns w))
    as (warns & Hone).
  { unfold one, JsonlDir.findOne, bind, with_locals.
    rewrite default_batchSize_nat. fold file.
    destruct (lib_read_spec _ _ 1000 file (set_locals (None, false) w)
                (findOne_batch_acts p)) as (warns & Heq & _); [lia |].
    cbv zeta in Heq. rewrite Heq. cbn [locals set_locals fs snd].
    destruct (findOne_hand_over p (chunks 1000 (records_of (fs w) file)))
      as [Hres Hfound].
    destruct (hand_over truthy _ _ _) as [res st]. cbn [fst snd] in *.
    subst res. exists warns. unfold ret. cbn [fst snd].
    rewrite Hfound. unfold chunks. by rewrite chunks_from_concat. }
  rewrite Hone. cbn [fst snd]. split; [done |]. split; [|done].
  exists (List.filter p (records_of (fs w) file)). split.
  - unfold all. by rewrite find_spec.
  - by rewrite head_filter.
Qed.
End FindOne.

(** * The mutations by attribute, and [ensure] *)

Section WhereMutations.
Context {codec : JsonCodec} {L : Type}.
Implicit Types (w : World L).

Lemma deleteWhere_plan attribute value lines records :
  strict_decode lines = Some records ->
  Forall (fun r => is_object r = true) records ->
  scratch_plan (decision (DeleteWhere attribute value)) lines =
    Ok (List.filter (fun r => negb (matches attribute value r)) records).
Proof.
  revert records. induction lines as [|line rest IH]; intros records Hdec Hall.
  - by injection Hdec as <-.
  - apply strict_decode_cons in Hdec as (r & rs & -> & _ & Hparse & Hrest).
    apply Forall_cons in Hall as [Hr Hall].
    destruct r as [| | | | |fields]; try discriminate.
    cbn [scratch_plan]. rewrite Hparse.
    cbn [decision List.filter]. unfold matches. cbn [prop_of].
    destruct (strict_equals (field attribute fields) value); cbn [negb].
    + by apply IH.
    + by rewrite (IH rs).
Qed.

Lemma updateWhere_plan attribute value (u : Json -> Json) lines records :
  strict_decode lines = Some records ->
  Forall (fun r => is_object r = true) records ->
  Forall (fun r => matches attribute value r = true -> is_object (u r) = true)
    records ->
  scratch_plan
    (decision (UpdateWhere attribute value (fun r => Ok (VJson (u r))))) lines =
    Ok (map (fun r => if matches attribute value r then u r else r) records).
Proof.
  revert records. induction lines as [|line rest IH]; intros records Hdec Hall Hu.
  - by injection Hdec as <-.
  - apply strict_decode_cons in Hdec as (r & rs & -> & _ & Hparse & Hrest).
    apply Forall_cons in Hall as [Hr Hall].
    apply Forall_cons in Hu as [Hur Hu].
    destruct r as [| | | | |fields]; try discriminate.
    cbn [scratch_plan]. rewrite Hparse.
    cbn [decision map]. unfold matches in *. cbn [prop_of] in *.
    destruct (strict_equals (field attribute fields) value).
    + specialize (Hur eq_refl).
      destruct (u (JObj fields)) as [| | | | |fields']; try discriminate.
      by rewrite (IH rs).
    + by rewrite (IH rs).
Qed.

(** X28. [deleteWhere] and [updateWhere] act on every record whose
    attribute has the value, not on the first one only.  With a fresh
    scratch path, on a file of records that are all objects:
    [deleteWhere] leaves exactly the records whose attribute does not
    strictly equal the value, when there is one; and [updateWhere]
    leaves, in the same order, the update of each record whose attribute
    strictly equals the value and the other records as they were. *)
Theorem where_mutations_act_on_every_match
    src path attribute value (u : Json -> Json) records w :
  fs w !! generateTempFilePath src EmptyString = None ->
  file_records (fs w) path = Some records ->
  Forall (fun r => is_object r = true) records ->
  (let kept := List.filter (fun r => negb (matches attribute value r)) records in
   kept <> [] -> Forall faithful kept ->
   let out := JsonlFile.deleteWhere src path attribute value w in
   fst out = Ok tt /\ file_records (fs (snd out)) path = Some kept) /\
  (let updated :=
     map (fun r => if matches attribute value r then u r else r) records in
   records <> [] ->
   Forall (fun r => matches attribute value r = true -> is_object (u r) = true)
     records ->
   Forall faithful updated ->
   let out := JsonlFile.updateWhere src path attribute value
                (fun r => Ok (VJson (u r))) w in
   fst out = Ok tt /\ file_records (fs (snd out)) path = Some updated).
Proof.
  intros Hfresh Hrec Hobj. pose proof Hrec as Hrec'. unfold file_records in Hrec'.
  destruct (fs w !! path) as [content|] eqn:Hp; [|done]. split.
  - intros kept Hne Hfaith out.
    assert (out = (Ok tt, set_fs (fun files => <[path := serialize kept]> files) w))
      as ->.
    { unfold out.
      apply (mutate_written src path (DeleteWhere attribute value) content);
        try done.
      by apply deleteWhere_plan. }
    cbn [fst snd]. split; [done |]. by apply serialize_records.
  - intros updated Hne Hu Hfaith out.
    assert (out = (Ok tt, set_fs (fun files => <[path := serialize updated]> files) w))
      as ->.
    { unfold out.
      apply (mutate_written src path
               (UpdateWhere attribute value (fun r => Ok (VJson (u r)))) content);
        try done.
      - by apply updateWhere_plan.
      - unfold updated. by destruct records. }
    cbn [fst snd]. split; [done |]. by apply serialize_records.
Qed.

(** X29. [ensure] never fails; it creates the file, empty, when it is
    missing and leaves an existing file and every other file as they
    are; afterwards the file exists; the prefix it returns is the empty
    text exactly when the file was missing or had only blank lines, and
    a line feed otherwise; and a second [ensure] returns the same prefix
    and changes nothing. *)
Theorem ensure_creates_the_file_once path w :
  let out := Jsonl.ensure path w in
  fst out =
    Ok (if Jsonl.isEmptyFile_loop (file_lines (fs w) path)
        then EmptyString else newline) /\
  (forall content, fs w !! path = Some content -> snd out = w) /\
  (fs w !! path = None -> fs (snd out) !! path = Some EmptyString) /\
  (forall other, other <> path -> fs (snd out) !! other = fs w !! other) /\
  Jsonl.exists_ path (snd out) = (Ok true, snd out) /\
  Jsonl.ensure path (snd out) = (fst out, snd out).
Proof.
  cbv zeta. unfold Jsonl.exists_. rewrite safePathExists_spec.
  rewrite !lib_ensure_spec. unfold file_lines.
  destruct (fs w !! path) as [content|] eqn:Hp; cbn [fst snd].
  - rewrite Hp. by repeat split.
  - simpl. rewrite lookup_insert_eq. simpl.
    split; [done |]. split; [done |]. split; [done |].
    split; [|done]. intros other Ho. by rewrite lookup_insert_ne.
Qed.
End WhereMutations.

(** * The engine on sample files

    From here on [JSON.parse] and [JSON.stringify] are those of the
    reference codec. *)

#[local] Existing Instance mini_codec.

Lemma mutation_commits_by_rename_witness :
  fs Sample.plain_world
    !! generateTempFilePath Sample.src EmptyString = None /\
  commit_contract Sample.src "data.jsonl"
    (UpdateWhere "name" (VJson (JStr "Bob")) (fun _ => Throw (Err "boom")))
    Sample.plain_world.
Proof.
  split; [vm_compute; reflexivity |].
  apply mutation_commits_by_rename. vm_compute; reflexivity.
Defined.

Lemma readByBatch_batches_witness :
  0 < 2 /\
  (batch_contract (U := unit) (Jsonl.read "data.jsonl") 2
     (records_of (fs Sample.gap_batch_world) "data.jsonl")
     Sample.gap_batch_world /\
   (forall content,
       fs Sample.gap_batch_world !! "data.jsonl" = Some content ->
       js_batch_contract (U := unit) (JsonlFile.readByBatch "data.jsonl") 2
         (rl_lines content) Sample.gap_batch_world)).
Proof.
  split; [apply Nat.lt_0_succ |].
  apply (readByBatch_batches "data.jsonl" 2). apply Nat.lt_0_succ.
Defined.

Lemma first_last_read_one_line_witness :
  fs Sample.broken_world !! "data.jsonl" = Some Sample.broken_then_alice /\
  JsonlFileTs.first "data.jsonl" Sample.broken_world =
    (Throw (SyntaxError "not-json"), Sample.broken_world) /\
  JsonlFileTs.last "data.jsonl" Sample.broken_world =
    (Ok Sample.alice, Sample.broken_world).
Proof.
  split; [reflexivity |].
  destruct (first_last_read_one_line "data.jsonl" Sample.broken_then_alice
              Sample.broken_world eq_refl) as (_ & [Hfirst Hlast] & _).
  split.
  - rewrite (Hfirst "not-json"); [reflexivity | vm_compute; reflexivity | discriminate].
  - rewrite (Hlast (MiniJson.stringify Sample.alice));
      [reflexivity | vm_compute; reflexivity | discriminate].
Defined.

Lemma findWhere_undefined_finds_missing_field_witness :
  let w := Sample.world_with Sample.carol_broken_alice tt in
  fs w !! "data.jsonl" = Some Sample.carol_broken_alice /\
  parsed_prefix (rl_lines Sample.carol_broken_alice) =
    ([Sample.carol], Some "not-json") /\
  inherited "age" = false /\
  JsonlFile.findWhere "data.jsonl" "age" VUndefined w = (Ok (Some Sample.carol), w).
Proof.
  intros w.
  split; [reflexivity |]. split; [vm_compute; reflexivity |].
  split; [reflexivity |].
  destruct (findWhere_undefined_finds_missing_field "data.jsonl" "age"
              Sample.carol_broken_alice [Sample.carol] (Some "not-json") w)
    as (Hfound & _); [reflexivity | vm_compute; reflexivity | reflexivity |].
  destruct (Hfound [] Sample.carol []) as [_ H];
    [reflexivity | constructor | reflexivity |].
  exact H.
Defined.

(** C2, as the claim has it, fails on the single-file engine: on the file
    of Alice, an empty line and Bob, which has two decodable records,
    [readByBatch] with batches of two and a callback that never stops does
    not complete with the one batch: it fails on the empty line. *)
Lemma readByBatch_fails_on_empty_line :
  ~ batch_contract (U := unit) (JsonlFile.readByBatch "data.jsonl") 2
      (records_of (fs Sample.gap_batch_world) "data.jsonl")
      Sample.gap_batch_world.
Proof.
  intros [_ H].
  destruct (H (Sample.always VUndefined)) as (_ & Hquiet & _).
  destruct Hquiet as [Hres _].
  - vm_compute; reflexivity.
  - vm_compute in Hres. discriminate Hres.
Qed.

(** C10, as the claim has it, fails: on a file whose first line is not JSON
    and whose second line is Alice, who has no field [email],
    [findWhere("email", undefined)] does not return Alice, it fails on the
    first line. *)
Lemma findWhere_does_not_skip_malformed_line :
  ~ missing_field_contract (L := unit) JsonlFile.findWhere.
Proof.
  intros H.
  specialize (H "data.jsonl" "email" Sample.broken_world).
  apply (f_equal fst) in H. vm_compute in H. discriminate H.
Qed.

(** C3, as the claim has it, fails on the single-file engine: [read] on a
    file whose first line is not JSON does not complete. *)
Lemma read_fails_on_malformed_line :
  ~ skip_contract (U := unit) (JsonlFile.read "data.jsonl")
      (records_of (fs Sample.broken_line_world) "data.jsonl")
      (file_lines (fs Sample.broken_line_world) "data.jsonl")
      Sample.broken_line_world.
Proof.
  intros H.
  destruct (H (Sample.always VUndefined)) as [Hres _].
  - vm_compute; reflexivity.
  - vm_compute in Hres. discriminate Hres.
Qed.

(** C6, as the claim has it, fails on the streaming reader: a callback that
    answers the truthy value 1 on the first record is still called on the
    second and the third. *)
Lemma readLineByLine_ignores_truthy_answer :
  ~ line_contract (U := unit) truthy (Jsonl.readLineByLine "data.jsonl")
      (records_of (fs Sample.line_world) "data.jsonl") Sample.line_world.
Proof.
  intros H.
  destruct (H (Sample.always (VJson (JNum 1)))) as (_ & Hstop & _).
  destruct (Hstop [] Sample.alice [Sample.bob; Sample.carol]) as [_ Hlog].
  - vm_compute; reflexivity.
  - reflexivity.
  - reflexivity.
  - vm_compute in Hlog. discriminate Hlog.
Qed.

(** C7, as the claim has it, fails on the single-file engine: [read] on a
    path that does not exist fails. *)
Lemma read_fails_on_missing_file :
  ~ reads_missing_as_empty (A := Json) (U := unit) JsonlFile.read.
Proof.
  intros H.
  specialize (H "data.jsonl" (fun _ => ret VUndefined) (mkWorld ∅ [] tt) eq_refl).
  apply (f_equal fst) in H. vm_compute in H. discriminate H.
Qed.

(** C8, as the claim has it, fails: on a file whose first line is not JSON
    and whose second line is Alice, [first] does not return Alice. *)
Lemma first_does_not_skip_malformed_line :
  ~ first_last_contract (L := unit) JsonlFileTs.first JsonlFileTs.last.
Proof.
  intros H.
  destruct (H "data.jsonl" Sample.broken_world)
    as (_ & _ & Hfirst & _).
  specialize (Hfirst Sample.alice ltac:(vm_compute; reflexivity)).
  apply (f_equal fst) in Hfirst. vm_compute in Hfirst. discriminate Hfirst.
Qed.

(** C4.  [readLineByLine] catches what the callback throws: with a callback
    that throws on every record the traversal completes, the callback has
    been called on all three records, and each exception has become a
    warning about an invalid line.  The streaming [read] and the [read] of
    the single-file engine let the same exception through. *)
Theorem readLineByLine_swallows_callback_error :
  let w := Sample.line_world in
  let out := Jsonl.readLineByLine "data.jsonl" (userCb (traced Sample.boom)) w in
  fst out = Ok tt /\
  log_of (snd out) = [Sample.alice; Sample.bob; Sample.carol] /\
  console (snd out) =
    map (fun r => Jsonl.warning (JSON_stringify r))
      [Sample.alice; Sample.bob; Sample.carol] /\
  fst (Jsonl.read "data.jsonl" (fun _ => throw (Err "boom")) 2
         Sample.plain_world) = Throw (Err "boom") /\
  fst (JsonlFile.read "data.jsonl" (userCb (traced Sample.boom)) w) =
    Throw (Err "boom").
Proof. vm_compute. repeat split; reflexivity. Qed.

(** C5.  [deleteMatch] with a predicate that every record satisfies: the
    scratch file is never created, the rename fails with ENOENT, and the
    file still holds its three records, where the claim has [count] go
    down to zero. *)
Theorem deleteMatch_of_every_record_fails :
  let w := Sample.plain_world in
  let out := JsonlFile.deleteMatch Sample.src "data.jsonl"
               (fun _ => Ok (VJson (JBool true))) w in
  fst (JsonlFile.count "data.jsonl" w) = Ok 3 /\
  fst out = Throw (ENOENT (generateTempFilePath Sample.src EmptyString)) /\
  snd out = w /\
  fst (JsonlFile.count "data.jsonl" (snd out)) = Ok 3.
Proof. vm_compute. repeat split; reflexivity. Qed.

(** * The further properties on sample files *)

Lemma add_then_read_back_witness :
  is_object Sample.dave = true /\
  faithful Sample.dave /\
  appendable (fs Sample.plain_world) "data.jsonl"
    [Sample.alice; Sample.bob; Sample.carol] /\
  (let out := JsonlFile.add "data.jsonl" (VJson Sample.dave) Sample.plain_world in
   fst out = Ok tt /\
   appendable (fs (snd out)) "data.jsonl"
     ([Sample.alice; Sample.bob; Sample.carol] ++ [Sample.dave]) /\
   file_records (fs (snd out)) "data.jsonl" =
     Some ([Sample.alice; Sample.bob; Sample.carol] ++ [Sample.dave]) /\
   JsonlFile.last "data.jsonl" (snd out) = (Ok Sample.dave, snd out) /\
   JsonlFile.count "data.jsonl" (snd out) = (Ok 4, snd out) /\
   (forall other, other <> "data.jsonl" ->
      fs (snd out) !! other = fs Sample.plain_world !! other)).
Proof.
  assert (faithful Sample.dave) as Hf by (repeat split; vm_compute; reflexivity).
  assert (appendable (fs Sample.plain_world) "data.jsonl"
            [Sample.alice; Sample.bob; Sample.carol]) as Ha
    by (vm_compute; split; reflexivity).
  split; [reflexivity |]. split; [exact Hf |]. split; [exact Ha |].
  exact (add_then_read_back "data.jsonl" Sample.dave
           [Sample.alice; Sample.bob; Sample.carol] Sample.plain_world
           eq_refl Hf Ha).
Defined.

Lemma add_after_final_line_feed_witness :
  is_object Sample.dave = true /\
  faithful Sample.dave /\
  fs Sample.newline_world !! "data.jsonl" =
    Some (Sample.three_records +:+ newline) /\
  strict_decode (rl_lines (Sample.three_records +:+ newline)) =
    Some [Sample.alice; Sample.bob; Sample.carol] /\
  ends_with_LF (Sample.three_records +:+ newline) = true /\
  JSON_parse EmptyString = None /\
  (let out := JsonlFile.add "data.jsonl" (VJson Sample.dave) Sample.newline_world in
   JsonlFile.count "data.jsonl" Sample.newline_world = (Ok 3, Sample.newline_world) /\
   JsonlFile.count "data.jsonl" (snd out) = (Ok 5, snd out) /\
   file_records (fs (snd out)) "data.jsonl" = None).
Proof.
  assert (faithful Sample.dave) as Hf by (repeat split; vm_compute; reflexivity).
  assert (strict_decode (rl_lines (Sample.three_records +:+ newline)) =
          Some [Sample.alice; Sample.bob; Sample.carol]) as Hd
    by (vm_compute; reflexivity).
  assert (ends_with_LF (Sample.three_records +:+ newline) = true) as He
    by (vm_compute; reflexivity).
  assert (JSON_parse EmptyString = None) as Hp by (vm_compute; reflexivity).
  split; [reflexivity |]. split; [exact Hf |]. split; [reflexivity |].
  split; [exact Hd |]. split; [exact He |]. split; [exact Hp |].
  destruct (add_after_final_line_feed "data.jsonl" Sample.dave
              [Sample.alice; Sample.bob; Sample.carol]
              (Sample.three_records +:+ newline) Sample.newline_world
              eq_refl Hf eq_refl Hd He Hp)
    as (_ & _ & Hbefore & Hafter & Hrec & _).
  exact (conj Hbefore (conj Hafter Hrec)).
Defined.

Lemma addMany_is_repeated_add_witness :
  Forall (fun r => is_object r = true) [Sample.dave; Sample.erin] /\
  JsonlFile.addMany "data.jsonl" (VJson (JArr [Sample.dave; Sample.erin]))
      Sample.plain_world =
    add_each "data.jsonl" [Sample.dave; Sample.erin] Sample.plain_world.
Proof.
  assert (Forall (fun r => is_object r = true) [Sample.dave; Sample.erin]) as Ho
    by (repeat constructor).
  exact (conj Ho (addMany_is_repeated_add "data.jsonl" [Sample.dave; Sample.erin]
                    Sample.plain_world Ho)).
Defined.

Lemma addMany_then_read_back_witness :
  Forall (fun r => is_object r = true) [Sample.dave; Sample.erin] /\
  Forall faithful [Sample.dave; Sample.erin] /\
  appendable (fs Sample.plain_world) "data.jsonl"
    [Sample.alice; Sample.bob; Sample.carol] /\
  (let out := JsonlFile.addMany "data.jsonl"
                (VJson (JArr [Sample.dave; Sample.erin])) Sample.plain_world in
   fst out = Ok tt /\
   appendable (fs (snd out)) "data.jsonl"
     ([Sample.alice; Sample.bob; Sample.carol] ++ [Sample.dave; Sample.erin]) /\
   ([Sample.dave; Sample.erin] <> [] ->
    file_records (fs (snd out)) "data.jsonl" =
      Some ([Sample.alice; Sample.bob; Sample.carol] ++ [Sample.dave; Sample.erin]) /\
    JsonlFile.count "data.jsonl" (snd out) = (Ok (3 + 2), snd out)) /\
   (forall other, other <> "data.jsonl" ->
      fs (snd out) !! other = fs Sample.plain_world !! other)).
Proof.
  assert (Forall (fun r => is_object r = true) [Sample.dave; Sample.erin]) as Ho
    by (repeat constructor).
  assert (Forall faithful [Sample.dave; Sample.erin]) as Hf
    by (repeat constructor; vm_compute; reflexivity).
  assert (appendable (fs Sample.plain_world) "data.jsonl"
            [Sample.alice; Sample.bob; Sample.carol]) as Ha
    by (vm_compute; split; reflexivity).
  split; [exact Ho |]. split; [exact Hf |]. split; [exact Ha |].
  exact (addMany_then_read_back "data.jsonl" [Sample.dave; Sample.erin]
           [Sample.alice; Sample.bob; Sample.carol] Sample.plain_world Ho Hf Ha).
Defined.

Lemma add_then_deleteFile_restores_witness :
  is_object Sample.alice = true /\
  fs Sample.no_file !! "data.jsonl" = None /\
  JsonlFile.deleteFile "data.jsonl" Sample.no_file =
    (Throw (ENOENT "data.jsonl"), Sample.no_file) /\
  (JsonlFile.add "data.jsonl" (VJson Sample.alice) ;;;
   JsonlFile.deleteFile "data.jsonl") Sample.no_file = (Ok tt, Sample.no_file).
Proof.
  split; [reflexivity |]. split; [reflexivity |].
  exact (add_then_deleteFile_restores "data.jsonl" Sample.alice Sample.no_file
           eq_refl eq_refl).
Defined.

Lemma findMatch_and_countMatch_witness :
  file_records (fs Sample.plain_world) "data.jsonl" =
    Some [Sample.alice; Sample.bob; Sample.carol] /\
  returns_on Sample.with_age [Sample.alice; Sample.bob; Sample.carol] /\
  JsonlFile.findMatch "data.jsonl" Sample.with_age Sample.plain_world =
    (Ok (List.filter (holds_of Sample.with_age)
           [Sample.alice; Sample.bob; Sample.carol]), Sample.plain_world) /\
  JsonlFile.countMatch "data.jsonl" Sample.with_age Sample.plain_world =
    (Ok (length (List.filter (holds_of Sample.with_age)
                   [Sample.alice; Sample.bob; Sample.carol])), Sample.plain_world).
Proof.
  assert (file_records (fs Sample.plain_world) "data.jsonl" =
          Some [Sample.alice; Sample.bob; Sample.carol]) as Hr
    by (vm_compute; reflexivity).
  assert (returns_on Sample.with_age [Sample.alice; Sample.bob; Sample.carol]) as Ht
    by (repeat constructor; eexists; reflexivity).
  split; [exact Hr |]. split; [exact Ht |].
  exact (findMatch_and_countMatch "data.jsonl" Sample.with_age
           [Sample.alice; Sample.bob; Sample.carol] Sample.plain_world Hr Ht).
Defined.

Lemma query_lets_predicate_error_through_witness :
  file_records (fs Sample.plain_world) "data.jsonl" =
    Some ([Sample.alice; Sample.bob] ++ Sample.carol :: []) /\
  returns_on Sample.bob_or_boom [Sample.alice; Sample.bob] /\
  Sample.bob_or_boom Sample.carol = Throw (Err "boom") /\
  JsonlFile.findMatch "data.jsonl" Sample.bob_or_boom Sample.plain_world =
    (Throw (Err "boom"), Sample.plain_world) /\
  JsonlFile.countMatch "data.jsonl" Sample.bob_or_boom Sample.plain_world =
    (Throw (Err "boom"), Sample.plain_world).
Proof.
  assert (file_records (fs Sample.plain_world) "data.jsonl" =
          Some ([Sample.alice; Sample.bob] ++ Sample.carol :: [])) as Hr
    by (vm_compute; reflexivity).
  assert (returns_on Sample.bob_or_boom [Sample.alice; Sample.bob]) as Ht
    by (repeat constructor; eexists; reflexivity).
  split; [exact Hr |]. split; [exact Ht |]. split; [reflexivity |].
  exact (query_lets_predicate_error_through "data.jsonl" Sample.bob_or_boom
           [Sample.alice; Sample.bob] Sample.carol [] (Err "boom")
           Sample.plain_world Hr Ht eq_refl).
Defined.

Lemma findWhere_is_first_of_findMatch_witness :
  file_records (fs Sample.plain_world) "data.jsonl" =
    Some [Sample.alice; Sample.bob; Sample.carol] /\
  Forall (fun r => r <> JNull) [Sample.alice; Sample.bob; Sample.carol] /\
  (let found := List.filter (holds_of (where_ "name" (VJson (JStr "Bob"))))
                  [Sample.alice; Sample.bob; Sample.carol] in
   JsonlFile.findMatch "data.jsonl" (where_ "name" (VJson (JStr "Bob")))
       Sample.plain_world = (Ok found, Sample.plain_world) /\
   JsonlFile.findWhere "data.jsonl" "name" (VJson (JStr "Bob")) Sample.plain_world =
     (Ok (head found), Sample.plain_world)).
Proof.
  assert (file_records (fs Sample.plain_world) "data.jsonl" =
          Some [Sample.alice; Sample.bob; Sample.carol]) as Hr
    by (vm_compute; reflexivity).
  assert (Forall (fun r => r <> JNull) [Sample.alice; Sample.bob; Sample.carol])
    as Hn by (repeat constructor; discriminate).
  split; [exact Hr |]. split; [exact Hn |].
  exact (findWhere_is_first_of_findMatch "data.jsonl" "name" (VJson (JStr "Bob"))
           [Sample.alice; Sample.bob; Sample.carol] Sample.plain_world Hr Hn).
Defined.

Lemma findWhere_fails_on_null_line_witness :
  file_records (fs Sample.null_world) "data.jsonl" =
    Some ([Sample.alice] ++ JNull :: [Sample.bob]) /\
  Forall (fun r => r <> JNull) [Sample.alice] /\
  List.find (holds_of (where_ "name" (VJson (JStr "Bob")))) [Sample.alice] = None /\
  JsonlFile.findWhere "data.jsonl" "name" (VJson (JStr "Bob")) Sample.null_world =
    (Throw TypeError, Sample.null_world).
Proof.
  assert (file_records (fs Sample.null_world) "data.jsonl" =
          Some ([Sample.alice] ++ JNull :: [Sample.bob])) as Hr
    by (vm_compute; reflexivity).
  assert (Forall (fun r => r <> JNull) [Sample.alice]) as Hn
    by (repeat constructor; discriminate).
  split; [exact Hr |]. split; [exact Hn |]. split; [reflexivity |].
  exact (findWhere_fails_on_null_line "data.jsonl" "name" (VJson (JStr "Bob"))
           [Sample.alice] [Sample.bob] Sample.null_world Hr Hn eq_refl).
Defined.

Lemma deleteMatch_keeps_the_rest_witness :
  fs Sample.plain_world !! generateTempFilePath Sample.src EmptyString = None /\
  file_records (fs Sample.plain_world) "data.jsonl" =
    Some [Sample.alice; Sample.bob; Sample.carol] /\
  Forall (fun r => is_object r = true) [Sample.alice; Sample.bob; Sample.carol] /\
  Forall faithful [Sample.alice; Sample.bob; Sample.carol] /\
  returns_on Sample.with_age [Sample.alice; Sample.bob; Sample.carol] /\
  List.filter (fun r => negb (holds_of Sample.with_age r))
    [Sample.alice; Sample.bob; Sample.carol] <> [] /\
  (let out := JsonlFile.deleteMatch Sample.src "data.jsonl" Sample.with_age
                Sample.plain_world in
   fst out = Ok tt /\
   file_records (fs (snd out)) "data.jsonl" =
     Some (List.filter (fun r => negb (holds_of Sample.with_age r))
             [Sample.alice; Sample.bob; Sample.carol]) /\
   JsonlFile.count "data.jsonl" (snd out) =
     (Ok (length [Sample.alice; Sample.bob; Sample.carol] -
          length (List.filter (holds_of Sample.with_age)
                    [Sample.alice; Sample.bob; Sample.carol])), snd out) /\
   fs (snd out) !! generateTempFilePath Sample.src EmptyString = None /\
   (forall other, other <> "data.jsonl" ->
      fs (snd out) !! other = fs Sample.plain_world !! other)).
Proof.
  assert (fs Sample.plain_world !! generateTempFilePath Sample.src EmptyString = None)
    as Hfresh by (vm_compute; reflexivity).
  assert (file_records (fs Sample.plain_world) "data.jsonl" =
          Some [Sample.alice; Sample.bob; Sample.carol]) as Hr
    by (vm_compute; reflexivity).
  assert (Forall (fun r => is_object r = true)
            [Sample.alice; Sample.bob; Sample.carol]) as Ho by (repeat constructor).
  assert (Forall faithful [Sample.alice; Sample.bob; Sample.carol]) as Hf
    by (repeat constructor; vm_compute; reflexivity).
  assert (returns_on Sample.with_age [Sample.alice; Sample.bob; Sample.carol]) as Ht
    by (repeat constructor; eexists; reflexivity).
  assert (List.filter (fun r => negb (holds_of Sample.with_age r))
            [Sample.alice; Sample.bob; Sample.carol] <> []) as Hs
    by (vm_compute; discriminate).
  split; [exact Hfresh |]. split; [exact Hr |]. split; [exact Ho |].
  split; [exact Hf |]. split; [exact Ht |]. split; [exact Hs |].
  exact (deleteMatch_keeps_the_rest Sample.src "data.jsonl" Sample.with_age
           [Sample.alice; Sample.bob; Sample.carol] Sample.plain_world
           Hfresh Hr Ho Hf Ht Hs).
Defined.

Lemma updateMatch_rewrites_matches_witness :
  fs Sample.plain_world !! generateTempFilePath Sample.src EmptyString = None /\
  file_records (fs Sample.plain_world) "data.jsonl" =
    Some [Sample.alice; Sample.bob; Sample.carol] /\
  [Sample.alice; Sample.bob; Sample.carol] <> [] /\
  Forall (fun r => is_object r = true) [Sample.alice; Sample.bob; Sample.carol] /\
  returns_on Sample.with_age [Sample.alice; Sample.bob; Sample.carol] /\
  Forall (fun r => holds_of Sample.with_age r = true ->
                   is_object (Sample.retire r) = true)
    [Sample.alice; Sample.bob; Sample.carol] /\
  Forall faithful
    (map (fun r => if holds_of Sample.with_age r then Sample.retire r else r)
       [Sample.alice; Sample.bob; Sample.carol]) /\
  (let updated := map (fun r => if holds_of Sample.with_age r
                                then Sample.retire r else r)
                    [Sample.alice; Sample.bob; Sample.carol] in
   let out := JsonlFile.updateMatch Sample.src "data.jsonl" Sample.with_age
                (fun r => Ok (VJson (Sample.retire r))) Sample.plain_world in
   fst out = Ok tt /\
   file_records (fs (snd out)) "data.jsonl" = Some updated /\
   appendable (fs (snd out)) "data.jsonl" updated /\
   JsonlFile.count "data.jsonl" (snd out) =
     (Ok (length [Sample.alice; Sample.bob; Sample.carol]), snd out) /\
   (forall other, other <> "data.jsonl" ->
      fs (snd out) !! other = fs Sample.plain_world !! other)).
Proof.
  assert (fs Sample.plain_world !! generateTempFilePath Sample.src EmptyString = None)
    as Hfresh by (vm_compute; reflexivity).
  assert (file_records (fs Sample.plain_world) "data.jsonl" =
          Some [Sample.alice; Sample.bob; Sample.carol]) as Hr
    by (vm_compute; reflexivity).
  assert ([Sample.alice; Sample.bob; Sample.carol] <> []) as Hne by discriminate.
  assert (Forall (fun r => is_object r = true)
            [Sample.alice; Sample.bob; Sample.carol]) as Ho by (repeat constructor).
  assert (returns_on Sample.with_age [Sample.alice; Sample.bob; Sample.carol]) as Ht
    by (repeat constructor; eexists; reflexivity).
  assert (Forall (fun r => holds_of Sample.with_age r = true ->
                           is_object (Sample.retire r) = true)
            [Sample.alice; Sample.bob; Sample.carol]) as Hu
    by (repeat constructor).
  assert (Forall faithful
            (map (fun r => if holds_of Sample.with_age r then Sample.retire r else r)
               [Sample.alice; Sample.bob; Sample.carol])) as Hf
    by (repeat constructor; vm_compute; reflexivity).
  split; [exact Hfresh |]. split; [exact Hr |]. split; [exact Hne |].
  split; [exact Ho |]. split; [exact Ht |]. split; [exact Hu |]. split; [exact Hf |].
  exact (updateMatch_rewrites_matches Sample.src "data.jsonl" Sample.with_age
           Sample.retire [Sample.alice; Sample.bob; Sample.carol] Sample.plain_world
           Hfresh Hr Hne Ho Ht Hu Hf).
Defined.

Lemma mutation_that_writes_nothing_fails_witness :
  fs Sample.empty_world !! generateTempFilePath Sample.src EmptyString = None /\
  fs Sample.empty_world !! "data.jsonl" = Some EmptyString /\
  mutate Sample.src "data.jsonl" (DeleteMatch Sample.with_age) Sample.empty_world =
    (Throw (ENOENT (generateTempFilePath Sample.src EmptyString)), Sample.empty_world).
Proof.
  assert (fs Sample.empty_world !! generateTempFilePath Sample.src EmptyString = None)
    as Hfresh by (vm_compute; reflexivity).
  split; [exact Hfresh |]. split; [reflexivity |].
  exact (proj2 (mutation_that_writes_nothing_fails Sample.src "data.jsonl"
                  (DeleteMatch Sample.with_age) Sample.empty_world Hfresh)
           eq_refl).
Defined.

Lemma update_must_return_an_object_witness :
  fs Sample.plain_world !! generateTempFilePath Sample.src EmptyString = None /\
  fs Sample.plain_world !! "data.jsonl" = Some Sample.three_records /\
  rl_lines Sample.three_records =
    [JSON_stringify Sample.alice] ++
    JSON_stringify Sample.bob :: [JSON_stringify Sample.carol] /\
  scratch_plan
    (decision (UpdateMatch (where_ "name" (VJson (JStr "Bob")))
                 (fun _ => Ok VUndefined)))
    [JSON_stringify Sample.alice] = Ok [Sample.alice] /\
  JSON_parse (JSON_stringify Sample.bob) = Some Sample.bob /\
  where_ "name" (VJson (JStr "Bob")) Sample.bob = Ok (VJson (JBool true)) /\
  JsonlFile.updateMatch Sample.src "data.jsonl"
      (where_ "name" (VJson (JStr "Bob"))) (fun _ => Ok VUndefined)
      Sample.plain_world =
    (Throw (Err "add() only accepts a single json object"), Sample.plain_world).
Proof.
  assert (fs Sample.plain_world !! generateTempFilePath Sample.src EmptyString = None)
    as Hfresh by (vm_compute; reflexivity).
  assert (rl_lines Sample.three_records =
          [JSON_stringify Sample.alice] ++
          JSON_stringify Sample.bob :: [JSON_stringify Sample.carol]) as Hl
    by (vm_compute; reflexivity).
  assert (scratch_plan
            (decision (UpdateMatch (where_ "name" (VJson (JStr "Bob")))
                         (fun _ => Ok VUndefined)))
            [JSON_stringify Sample.alice] = Ok [Sample.alice]) as Hp
    by (vm_compute; reflexivity).
  assert (JSON_parse (JSON_stringify Sample.bob) = Some Sample.bob) as Hb
    by (vm_compute; reflexivity).
  split; [exact Hfresh |]. split; [reflexivity |]. split; [exact Hl |].
  split; [exact Hp |]. split; [exact Hb |]. split; [reflexivity |].
  exact (update_must_return_an_object Sample.src "data.jsonl"
           (where_ "name" (VJson (JStr "Bob"))) (fun _ => Ok VUndefined)
           Sample.three_records [JSON_stringify Sample.alice]
           (JSON_stringify Sample.bob) [JSON_stringify Sample.carol]
           [Sample.alice] Sample.bob (VJson (JBool true)) VUndefined
           Sample.plain_world Hfresh eq_refl Hl Hp Hb eq_refl eq_refl eq_refl eq_refl).
Defined.

Lemma append_then_read_back_witness :
  extendable (fs Sample.plain_world) "data.jsonl" /\
  Forall faithful (appended (JArr [Sample.dave; Sample.erin])) /\
  (let out := Jsonl.append "data.jsonl" (JArr [Sample.dave; Sample.erin])
                Sample.plain_world in
   fst out = Ok tt /\
   records_of (fs (snd out)) "data.jsonl" =
     records_of (fs Sample.plain_world) "data.jsonl" ++
     appended (JArr [Sample.dave; Sample.erin]) /\
   fst (Jsonl.count "data.jsonl" (snd out)) =
     Ok (length (records_of (fs Sample.plain_world) "data.jsonl") +
         length (appended (JArr [Sample.dave; Sample.erin]))) /\
   extendable (fs (snd out)) "data.jsonl" /\
   (forall other, other <> "data.jsonl" ->
      fs (snd out) !! other = fs Sample.plain_world !! other)).
Proof.
  assert (extendable (fs Sample.plain_world) "data.jsonl") as He
    by (vm_compute; right; reflexivity).
  assert (Forall faithful (appended (JArr [Sample.dave; Sample.erin]))) as Hf
    by (repeat constructor; vm_compute; reflexivity).
  split; [exact He |]. split; [exact Hf |].
  exact (append_then_read_back "data.jsonl" (JArr [Sample.dave; Sample.erin])
           Sample.plain_world He Hf).
Defined.

Lemma facade_add_then_find_witness :
  extendable (fs Sample.users_world) (JsonlDir.filePath "db" "users") /\
  Forall faithful [Sample.dave; Sample.erin] /\
  (let file := JsonlDir.filePath "db" "users" in
   let out := JsonlDir.add "db" "users" (VJson (JArr [Sample.dave; Sample.erin]))
                Sample.users_world in
   fst out = Ok tt /\
   fst (JsonlDir.find "db" "users" (fun r => Ok (Sample.has_age r)) (snd out)) =
     Ok (List.filter Sample.has_age
           (records_of (fs Sample.users_world) file ++ [Sample.dave; Sample.erin])) /\
   fst (JsonlDir.count "db" "users" (snd out)) =
     Ok (length (records_of (fs Sample.users_world) file) +
         length [Sample.dave; Sample.erin])).
Proof.
  assert (extendable (fs Sample.users_world) (JsonlDir.filePath "db" "users")) as He
    by (vm_compute; right; reflexivity).
  assert (Forall faithful [Sample.dave; Sample.erin]) as Hf
    by (repeat constructor; vm_compute; reflexivity).
  split; [exact He |]. split; [exact Hf |].
  exact (facade_add_then_find "db" "users" [Sample.dave; Sample.erin]
           Sample.has_age Sample.users_world He Hf).
Defined.

Lemma clear_then_append_witness :
  Forall faithful (appended (JArr [Sample.dave])) /\
  (let cleared := snd (Jsonl.clear "data.jsonl" Sample.plain_world) in
   let out := (Jsonl.clear "data.jsonl" ;;;
               Jsonl.append "data.jsonl" (JArr [Sample.dave])) Sample.plain_world in
   Jsonl.isEmpty "data.jsonl" cleared = (Ok true, cleared) /\
   Jsonl.count "data.jsonl" cleared = (Ok 0, cleared) /\
   fst out = Ok tt /\
   fs (snd out) !! "data.jsonl" = Some (serialize (appended (JArr [Sample.dave]))) /\
   records_of (fs (snd out)) "data.jsonl" = appended (JArr [Sample.dave])).
Proof.
  assert (Forall faithful (appended (JArr [Sample.dave]))) as Hf
    by (repeat constructor; vm_compute; reflexivity).
  split; [exact Hf |].
  exact (clear_then_append "data.jsonl" (JArr [Sample.dave]) Sample.plain_world Hf).
Defined.

Lemma batch_size_below_one_gives_one_batch_witness :
  (0 <= 0)%Z /\
  (forall records,
      file_records (fs Sample.batch_world) "data.jsonl" = Some records ->
      JsonlFile.readByBatch "data.jsonl"
          (userCb (traced (Sample.always VUndefined))) 0 Sample.batch_world =
        match records with
        | [] => (Ok tt, Sample.batch_world)
        | _ :: _ =>
            (userCb (traced (Sample.always VUndefined)) records ;;; ret tt)
              Sample.batch_world
        end) /\
  (let w' := warned (warnings_of (file_lines (fs Sample.batch_world) "data.jsonl"))
               Sample.batch_world in
   Jsonl.read "data.jsonl" (userCb (traced (Sample.always VUndefined))) 0
       Sample.batch_world =
     match records_of (fs Sample.batch_world) "data.jsonl" with
     | [] => (Ok tt, w')
     | _ :: _ =>
         (userCb (traced (Sample.always VUndefined))
            (records_of (fs Sample.batch_world) "data.jsonl") ;;; ret tt) w'
     end).
Proof.
  split; [apply Z.le_refl |].
  exact (batch_size_below_one_gives_one_batch "data.jsonl" 0
           (userCb (traced (Sample.always VUndefined))) Sample.batch_world
           (Z.le_refl 0)).
Defined.

Lemma where_mutations_act_on_every_match_witness :
  fs Sample.plain_world !! generateTempFilePath Sample.src EmptyString = None /\
  file_records (fs Sample.plain_world) "data.jsonl" =
    Some [Sample.alice; Sample.bob; Sample.carol] /\
  Forall (fun r => is_object r = true) [Sample.alice; Sample.bob; Sample.carol] /\
  (let kept := List.filter (fun r => negb (matches "name" (VJson (JStr "Bob")) r))
                 [Sample.alice; Sample.bob; Sample.carol] in
   let out := JsonlFile.deleteWhere Sample.src "data.jsonl" "name"
                (VJson (JStr "Bob")) Sample.plain_world in
   fst out = Ok tt /\ file_records (fs (snd out)) "data.jsonl" = Some kept) /\
  (let updated := map (fun r => if matches "name" (VJson (JStr "Bob")) r
                                then Sample.retire r else r)
                    [Sample.alice; Sample.bob; Sample.carol] in
   let out := JsonlFile.updateWhere Sample.src "data.jsonl" "name"
                (VJson (JStr "Bob")) (fun r => Ok (VJson (Sample.retire r)))
                Sample.plain_world in
   fst out = Ok tt /\ file_records (fs (snd out)) "data.jsonl" = Some updated).
Proof.
  assert (fs Sample.plain_world !! generateTempFilePath Sample.src EmptyString = None)
    as Hfresh by (vm_compute; reflexivity).
  assert (file_records (fs Sample.plain_world) "data.jsonl" =
          Some [Sample.alice; Sample.bob; Sample.carol]) as Hr
    by (vm_compute; reflexivity).
  assert (Forall (fun r => is_object r = true)
            [Sample.alice; Sample.bob; Sample.carol]) as Ho by (repeat constructor).
  split; [exact Hfresh |]. split; [exact Hr |]. split; [exact Ho |].
  destruct (where_mutations_act_on_every_match Sample.src "data.jsonl" "name"
              (VJson (JStr "Bob")) Sample.retire
              [Sample.alice; Sample.bob; Sample.carol] Sample.plain_world
              Hfresh Hr Ho) as [Hdel Hupd].
  split.
  - apply Hdel.
    + vm_compute; discriminate.
    + repeat constructor; vm_compute; reflexivity.
  - apply Hupd.
    + discriminate.
    + repeat constructor.
    + repeat constructor; vm_compute; reflexivity.
Defined.
